(** * SimpleJack floor calculator: geometry kernel, statistics, cutting, snapping

    A shallow embedding of the TypeScript sources

    - [lib/geometry.ts]  (distance, pointInPolygon, polygonArea, polygonPerimeter,
                          segmentsIntersect, polygonIntersectsRectangle,
                          getLineIntersection, rectanglesIntersect,
                          clipPolygonByPolygon),
    - [App.tsx]          (renumberTilesByColor, isPolygonClockwise,
                          isSegmentOnTileBoundary, calculateStatsForArea, handleCut,
                          recordHistory, handleUndo, handleRedo, the snap switches),
    - [components/Canvas.tsx] (getSnappedPos, getFirstPointSnap,
                          addTileToPaintBatch),

    followed by the properties of these functions: the orientation
    independence of [polygonArea], the results of [calculateStatsForArea]
    on degenerate input and its frame, a polygon clipped by itself, the
    pieces that [handleCut] emits for a tile and the packing of the
    offcuts, the renumbering of the tiles, the priorities and the polar
    mode of the snap resolver, the undo history, the snap switches and the
    painting batch.

    Numbers.  A JavaScript [number] is modelled as a real number: [+], [-],
    [*], [/], [Math.sqrt], [Math.abs], [Math.min], [Math.max], [Math.cos],
    [Math.sin] are the exact operations of [R], [Math.atan2] and
    [Math.round] are defined from [atan] and the integer part; no [NaN] and
    no infinity arise (the one infinite value of the sources, the initial
    [bestSnap.dist = Infinity], is an [option]).  A division is only
    meaningful where the sources guard it or where a hypothesis excludes a
    zero divisor.  Comparisons are the decidable comparisons of [R],
    packaged as booleans.  Identifiers ([Date.now()] values and the negative
    sentinels) are integers.

    Rounding.  The operations of the sources are those of IEEE 754 doubles:
    the exact result, rounded.  A property of the real-number model carries
    over to the sources where it rests on comparisons and on the
    expressions that the sources themselves evaluate; an algebraic identity
    between two different expressions does not.  The properties of the
    value that [polygonArea] computes are therefore stated on two further
    embeddings of it: [Rounded], with an explicit rounding after every
    operation, and [Double], on the binary64 numbers of Rocq.

    Objects.  [Record<string, T>] objects keyed by colour and [Map]s are
    association lists in insertion order, which is the enumeration order of
    [for ... in] for keys that are not array indices (colours are
    ['#rrggbb'] strings).  The pieces that [handleCut] reaches through
    several arrays are held in a store and named by their index in it. *)

From Stdlib Require Import String Ascii DecimalString.
From Stdlib Require Import Reals Lra Lia ZArith Bool List Permutation Sorted.
Import ListNotations.

Open Scope R_scope.

(** ** Numbers and comparisons *)

Definition ltb (a b : R) : bool := if Rlt_dec a b then true else false.
Definition leb (a b : R) : bool := if Rle_dec a b then true else false.
Definition gtb (a b : R) : bool := ltb b a.
Definition geb (a b : R) : bool := leb b a.
Definition eqb (a b : R) : bool := if Req_dec_T a b then true else false.

(** ** Data model ([types.ts]) *)

(** The anonymous object type [{x: number, y: number}]. *)
Module Pos.
Record t : Type := mk { x : R; y : R }.
End Pos.

Module Point.
Record t : Type := mk { id : Z; x : R; y : R }.
Definition pos (p : t) : Pos.t := Pos.mk (x p) (y p).
End Point.
Coercion Point.pos : Point.t >-> Pos.t.

Module Wall.
Record t : Type := mk { id : Z; p1Id : Z; p2Id : Z }.
End Wall.

Module TileDimensions.
Record t : Type := mk { width : R; height : R }.
End TileDimensions.

(** The anonymous rectangle type [{x, y, width, height}]. *)
Module Rect.
Record t : Type := mk { x : R; y : R; width : R; height : R }.
End Rect.

Module Tile.
Record t : Type := mk {
  id : Z;
  x : R;
  y : R;
  width : R;
  height : R;
  color : string;
  number : option string
}.
Definition rect (t : t) : Rect.t := Rect.mk (x t) (y t) (width t) (height t).
End Tile.
Coercion Tile.rect : Tile.t >-> Rect.t.

Module CalculationResult.
Record t : Type := mk {
  tileCount : R;
  colorCount : nat;
  tileCountsByColor : list (string * R);
  total : R;
  polygonArea : R;
  perimeter : R
}.
End CalculationResult.

Module Area.
Record t : Type := mk {
  id : Z;
  name : string;
  points : list Point.t;
  walls : list Wall.t;
  color : string;
  isClosed : bool;
  calculationResult : option CalculationResult.t;
  isVisible : bool
}.
End Area.

Definition TILE_COLORS : list string :=
  [ "#ef4444"; "#f97316"; "#eab308"; "#84cc16"; "#22c55e";
    "#06b6d4"; "#3b82f6"; "#8b5cf6"; "#ec4899"; "#78716c" ]%string.

(** ** Array helpers *)

(** [polygon[i]]; every index the sources use is in range. *)
Definition origin : Point.t := Point.mk 0 0 0.
Definition at_ (polygon : list Point.t) (i : nat) : Point.t := nth i polygon origin.

(** [polygon[polygon.length - 1]]. *)
Definition lastOf (polygon : list Point.t) : Point.t := last polygon origin.

(** ** Geometry kernel ([lib/geometry.ts]) *)

Definition EPSILON : R := 1e-9.

Definition distance (p1 p2 : Pos.t) : R :=
  sqrt ((Pos.x p2 - Pos.x p1) ^ 2 + (Pos.y p2 - Pos.y p1) ^ 2).

(** The ray-casting loop [for (i = 0, j = n - 1; i < n; j = i++)]: the state
    is the previous vertex [pj] and the parity [isInside]. *)
Definition rayStep (point : Pos.t) (st : Point.t * bool) (pi : Point.t) : Point.t * bool :=
  let '(pj, isInside) := st in
  let intersect :=
    negb (Bool.eqb (gtb (Point.y pi) (Pos.y point)) (gtb (Point.y pj) (Pos.y point)))
    && ltb (Pos.x point)
           ((Point.x pj - Point.x pi) * (Pos.y point - Point.y pi)
              / (Point.y pj - Point.y pi) + Point.x pi) in
  (pi, if intersect then negb isInside else isInside).

Definition pointInPolygon (point : Pos.t) (polygon : list Point.t) : bool :=
  let n := length polygon in
  if (n <? 3)%nat then false
  else if existsb
            (fun i =>
               let p1 := at_ polygon i in
               let p2 := at_ polygon ((i + 1) mod n) in
               let d_p1_p2 := distance p1 p2 in
               let d_p1_point := distance p1 point in
               let d_point_p2 := distance point p2 in
               ltb (Rabs (d_p1_point + d_point_p2 - d_p1_p2)) EPSILON)
            (seq 0 n)
  then true
  else snd (fold_left (rayStep point) polygon (lastOf polygon, false)).

(** The shoelace loop [for (i = 0; i < n; j = i++)] with [j = n - 1]
    initially: the state is the previous vertex and the running sum. *)
Definition shoelaceStep (st : Point.t * R) (pi : Point.t) : Point.t * R :=
  let '(pj, area) := st in
  (pi, area + Point.x pi * Point.y pj - Point.x pj * Point.y pi).

Definition polygonArea (polygon : list Point.t) : R :=
  if (length polygon <? 3)%nat then 0
  else
    let area := snd (fold_left shoelaceStep polygon (lastOf polygon, 0)) in
    Rabs (area / 2).

Definition polygonPerimeter (polygon : list Point.t) : R :=
  let n := length polygon in
  fold_left
    (fun perimeter i =>
       let p1 := at_ polygon i in
       let p2 := at_ polygon ((i + 1) mod n) in
       perimeter + distance p1 p2)
    (seq 0 n) 0.

Definition onSegment (p q r : Point.t) : bool :=
  leb (Point.x q) (Rmax (Point.x p) (Point.x r))
  && geb (Point.x q) (Rmin (Point.x p) (Point.x r))
  && leb (Point.y q) (Rmax (Point.y p) (Point.y r))
  && geb (Point.y q) (Rmin (Point.y p) (Point.y r)).

Definition orientation (p q r : Point.t) : nat :=
  let val := (Point.y q - Point.y p) * (Point.x r - Point.x q)
             - (Point.x q - Point.x p) * (Point.y r - Point.y q) in
  if ltb (Rabs val) EPSILON then 0%nat
  else if gtb val 0 then 1%nat else 2%nat.

Definition segmentsIntersect (p1 q1 p2 q2 : Point.t) : bool :=
  let o1 := orientation p1 q1 p2 in
  let o2 := orientation p1 q1 q2 in
  let o3 := orientation p2 q2 p1 in
  let o4 := orientation p2 q2 q1 in
  if negb (o1 =? o2)%nat && negb (o3 =? o4)%nat then true
  else if (o1 =? 0)%nat && onSegment p1 p2 q1 then true
  else if (o2 =? 0)%nat && onSegment p1 q2 q1 then true
  else if (o3 =? 0)%nat && onSegment p2 p1 q2 then true
  else if (o4 =? 0)%nat && onSegment p2 q1 q2 then true
  else false.

(** The four corners of a rectangle, with the sentinel ids [-1 .. -4]. *)
Definition rectPolygon (rx ry w h : R) : list Point.t :=
  [ Point.mk (-1) rx ry;
    Point.mk (-2) (rx + w) ry;
    Point.mk (-3) (rx + w) (ry + h);
    Point.mk (-4) rx (ry + h) ].

Definition polygonIntersectsRectangle (polygon : list Point.t) (rect : Rect.t) : bool :=
  let rectPoints :=
    rectPolygon (Rect.x rect) (Rect.y rect) (Rect.width rect) (Rect.height rect) in
  if existsb
       (fun p =>
          geb (Point.x p) (Rect.x rect)
          && leb (Point.x p) (Rect.x rect + Rect.width rect)
          && geb (Point.y p) (Rect.y rect)
          && leb (Point.y p) (Rect.y rect + Rect.height rect))
       polygon
  then true
  else if existsb (fun p : Point.t => pointInPolygon p polygon) rectPoints then true
  else
    existsb
      (fun i =>
         let p1 := at_ polygon i in
         let q1 := at_ polygon ((i + 1) mod length polygon) in
         existsb
           (fun j =>
              let p2 := at_ rectPoints j in
              let q2 := at_ rectPoints ((j + 1) mod length rectPoints) in
              segmentsIntersect p1 q1 p2 q2)
           (seq 0 (length rectPoints)))
      (seq 0 (length polygon)).

Definition getLineIntersection (p1 p2 p3 p4 : Pos.t) : option Pos.t :=
  let d := (Pos.x p1 - Pos.x p2) * (Pos.y p3 - Pos.y p4)
           - (Pos.y p1 - Pos.y p2) * (Pos.x p3 - Pos.x p4) in
  if ltb (Rabs d) 1e-9 then None
  else
    let t := ((Pos.x p1 - Pos.x p3) * (Pos.y p3 - Pos.y p4)
              - (Pos.y p1 - Pos.y p3) * (Pos.x p3 - Pos.x p4)) / d in
    let intersectX := Pos.x p1 + t * (Pos.x p2 - Pos.x p1) in
    let intersectY := Pos.y p1 + t * (Pos.y p2 - Pos.y p1) in
    Some (Pos.mk intersectX intersectY).

Definition rectanglesIntersect (rect1 rect2 : Rect.t) : bool :=
  ltb (Rect.x rect1) (Rect.x rect2 + Rect.width rect2)
  && gtb (Rect.x rect1 + Rect.width rect1) (Rect.x rect2)
  && ltb (Rect.y rect1) (Rect.y rect2 + Rect.height rect2)
  && gtb (Rect.y rect1 + Rect.height rect1) (Rect.y rect2).

(** *** Sutherland-Hodgman clipping *)

Definition crossProduct (p2 p1 p : Point.t) : R :=
  (Point.x p2 - Point.x p1) * (Point.y p - Point.y p1)
  - (Point.y p2 - Point.y p1) * (Point.x p - Point.x p1).

(** [{id: -1, ...intersection}] pushed when the intersection is not [null]. *)
Definition pushIntersection (outputList : list Point.t) (i : option Pos.t) : list Point.t :=
  match i with
  | Some q => outputList ++ [Point.mk (-1) (Pos.x q) (Pos.y q)]
  | None => outputList
  end.

(** One turn of the inner loop: the state is [S] (written [S_], as [S] is the
    successor of [nat]) and [outputList]. *)
Definition clipStep (clipEdgeP1 clipEdgeP2 : Point.t)
    (st : Point.t * list Point.t) (E : Point.t) : Point.t * list Point.t :=
  let '(S_, outputList) := st in
  let sInside := geb (crossProduct clipEdgeP2 clipEdgeP1 S_) 0 in
  let eInside := geb (crossProduct clipEdgeP2 clipEdgeP1 E) 0 in
  let outputList' :=
    if sInside && eInside then outputList ++ [E]
    else if sInside && negb eInside then
      pushIntersection outputList (getLineIntersection S_ E clipEdgeP1 clipEdgeP2)
    else if negb sInside && eInside then
      pushIntersection outputList (getLineIntersection S_ E clipEdgeP1 clipEdgeP2) ++ [E]
    else outputList in
  (E, outputList').

(** The inner loop over a non-empty [inputList]. *)
Definition clipAgainstEdge (clipEdgeP1 clipEdgeP2 : Point.t)
    (inputList : list Point.t) : list Point.t :=
  snd (fold_left (clipStep clipEdgeP1 clipEdgeP2) inputList (lastOf inputList, [])).

(** The outer loop over the indices [i] of the clip polygon, with its
    [break] on an empty [inputList]. *)
Fixpoint clipLoop (clipPolygon : list Point.t) (indices : list nat)
    (outputList : list Point.t) : list Point.t :=
  match indices with
  | [] => outputList
  | i :: rest =>
      let clipEdgeP1 := at_ clipPolygon i in
      let clipEdgeP2 := at_ clipPolygon ((i + 1) mod length clipPolygon) in
      let inputList := outputList in
      match inputList with
      | [] => []
      | _ :: _ => clipLoop clipPolygon rest (clipAgainstEdge clipEdgeP1 clipEdgeP2 inputList)
      end
  end.

Definition clipPolygonByPolygon (subjectPolygon clipPolygon : list Point.t) : list Point.t :=
  clipLoop clipPolygon (seq 0 (length clipPolygon)) subjectPolygon.

(** ** JavaScript library functions *)

(** Objects used as maps and [Map]s: association lists in insertion order.
    [assocSet] overwrites the value of an existing key in place and appends
    a new key at the end, as property assignment and [Map.prototype.set] do. *)
Section Assoc.
Context {K V : Type} (keq : K -> K -> bool).

Fixpoint assocGet (o : list (K * V)) (k : K) : option V :=
  match o with
  | [] => None
  | (k', v) :: rest => if keq k' k then Some v else assocGet rest k
  end.

Fixpoint assocSet (o : list (K * V)) (k : K) (v : V) : list (K * V) :=
  match o with
  | [] => [(k, v)]
  | (k', v') :: rest =>
      if keq k' k then (k', v) :: rest else (k', v') :: assocSet rest k v
  end.

(** [new Map(entries)]. *)
Definition mapOfEntries (entries : list (K * V)) : list (K * V) :=
  fold_left (fun m e => assocSet m (fst e) (snd e)) entries [].
End Assoc.

(** [Array.prototype.sort(compare)]: the sort is stable.  For a comparator
    that orders the elements consistently the result is that of the stable
    insertion sort below, in which an element [a] goes after [b] exactly
    when [compare(a, b) > 0].  For a comparator that does not (one that
    returns [NaN] for some pairs) the order of the result is left to the
    implementation; the insertion sort then gives one of the possible
    orders, and the properties of the order below are stated for
    consistent comparators only. *)
Section Sort.
Context {A : Type} (compare : A -> A -> R).

Fixpoint insertSorted (a : A) (l : list A) : list A :=
  match l with
  | [] => [a]
  | b :: rest =>
      if gtb (compare a b) 0 then b :: insertSorted a rest else a :: b :: rest
  end.

Definition sort (l : list A) : list A := fold_right insertSorted [] l.
End Sort.

(** [Array.prototype.map((x, index) => ...)]. *)
Fixpoint mapiFrom {A B : Type} (f : A -> nat -> B) (i : nat) (l : list A) : list B :=
  match l with
  | [] => []
  | a :: rest => f a i :: mapiFrom f (S i) rest
  end.
Definition mapi {A B : Type} (f : A -> nat -> B) (l : list A) : list B := mapiFrom f 0 l.

(** [Array.prototype.indexOf] on an array of strings. *)
Fixpoint indexOfFrom (l : list string) (s : string) (i : Z) : Z :=
  match l with
  | [] => (-1)%Z
  | c :: rest => if String.eqb c s then i else indexOfFrom rest s (i + 1)%Z
  end.
Definition indexOf (l : list string) (s : string) : Z := indexOfFrom l s 0.

(** Conversion of an integer [number] to a string, as in a template literal. *)
Definition stringOfZ (z : Z) : string := NilZero.string_of_int (Z.to_int z).
Definition stringOfNat (n : nat) : string := stringOfZ (Z.of_nat n).

(** [Math.min(...xs)] and [Math.max(...xs)] on a non-empty array. *)
Definition minOf (xs : list R) : R :=
  match xs with
  | [] => 0
  | a :: rest => fold_left Rmin rest a
  end.
Definition maxOf (xs : list R) : R :=
  match xs with
  | [] => 0
  | a :: rest => fold_left Rmax rest a
  end.

(** [Math.round]: the nearest integer, halves going up. *)
Definition round (a : R) : R := IZR (Int_part (a + / 2)).

(** [Math.atan2(y, x)] for real arguments. *)
Definition atan2 (dy dx : R) : R :=
  if ltb 0 dx then atan (dy / dx)
  else if ltb dx 0 then
    (if leb 0 dy then atan (dy / dx) + PI else atan (dy / dx) - PI)
  else if ltb 0 dy then PI / 2
  else if ltb dy 0 then - (PI / 2)
  else 0.

(** [String.prototype.split('-')]. *)
Fixpoint splitDash (s : string) (cur : string) : list string :=
  match s with
  | EmptyString => [cur]
  | String c rest =>
      if Ascii.eqb c "-"%char then cur :: splitDash rest EmptyString
      else splitDash rest (cur ++ String c EmptyString)%string
  end.
Definition split (s : string) : list string := splitDash s EmptyString.

(** [parseInt(s)] without a radix; [None] is [NaN].  Leading white space is
    skipped, a sign is read, then hexadecimal digits after ['0x'] or ['0X']
    and decimal digits otherwise; the digits stop at the first other
    character.  The result is the integer that the digits denote; the
    [number] that JavaScript returns is this integer up to [2 ^ 53] in
    absolute value, and its rounding beyond. *)
Definition isWhiteSpace (c : ascii) : bool :=
  let n := nat_of_ascii c in
  ((9 <=? n) && (n <=? 13))%nat || (n =? 32)%nat.

Fixpoint skipWhiteSpace (s : string) : string :=
  match s with
  | String c rest => if isWhiteSpace c then skipWhiteSpace rest else s
  | EmptyString => s
  end.

Definition digitValue (radix : Z) (c : ascii) : option Z :=
  let n := Z.of_nat (nat_of_ascii c) in
  let v :=
    if ((48 <=? n) && (n <=? 57))%Z then Some (n - 48)%Z
    else if ((97 <=? n) && (n <=? 122))%Z then Some (n - 87)%Z
    else if ((65 <=? n) && (n <=? 90))%Z then Some (n - 55)%Z
    else None in
  match v with
  | Some d => if (d <? radix)%Z then Some d else None
  | None => None
  end.

Fixpoint parseDigits (radix : Z) (s : string) (acc : option Z) : option Z :=
  match s with
  | EmptyString => acc
  | String c rest =>
      match digitValue radix c with
      | Some d =>
          parseDigits radix rest
            (Some (match acc with Some a => a * radix + d | None => d end)%Z)
      | None => acc
      end
  end.

Definition parseUnsigned (s : string) : option Z :=
  match s with
  | String "0" (String "x" rest) => parseDigits 16 rest None
  | String "0" (String "X" rest) => parseDigits 16 rest None
  | _ => parseDigits 10 s None
  end.

Definition parseInt (s : string) : option Z :=
  match skipWhiteSpace s with
  | String "-" rest => option_map Z.opp (parseUnsigned rest)
  | String "+" rest => parseUnsigned rest
  | rest => parseUnsigned rest
  end.

(** ** Tile renumbering ([App.tsx], [renumberTilesByColor]) *)

(** [{ ...tile, number: n }]. *)
Definition withNumber (tile : Tile.t) (n : option string) : Tile.t :=
  Tile.mk (Tile.id tile) (Tile.x tile) (Tile.y tile) (Tile.width tile)
    (Tile.height tile) (Tile.color tile) n.

(** The grouping loop: tiles without a number are skipped, the others are
    pushed onto the array of their colour. *)
Definition groupStep (tilesByColor : list (string * list Tile.t)) (tile : Tile.t)
    : list (string * list Tile.t) :=
  match Tile.number tile with
  | None => tilesByColor
  | Some _ =>
      let group :=
        match assocGet String.eqb tilesByColor (Tile.color tile) with
        | Some g => g
        | None => []
        end in
      assocSet String.eqb tilesByColor (Tile.color tile) (group ++ [tile])
  end.

(** [(a, b) => a.y - b.y || a.x - b.x]. *)
Definition byPosition (a b : Tile.t) : R :=
  let dy := Tile.y a - Tile.y b in
  if eqb dy 0 then Tile.x a - Tile.x b else dy.

Definition renumberGroup (color : string) (group : list Tile.t) : list Tile.t :=
  let colorPrefix := indexOf TILE_COLORS color in
  let sortedTiles := sort byPosition group in
  mapi
    (fun tile index =>
       withNumber tile
         (Some (stringOfZ colorPrefix ++ "-" ++ stringOfNat (index + 1))%string))
    sortedTiles.

Definition renumberTilesByColor (tiles : list Tile.t) : list Tile.t :=
  let tilesByColor := fold_left groupStep tiles [] in
  let allRenumberedTiles :=
    fold_left (fun acc entry => acc ++ renumberGroup (fst entry) (snd entry))
      tilesByColor [] in
  let renumberedMap :=
    mapOfEntries Z.eqb (map (fun t => (Tile.id t, t)) allRenumberedTiles) in
  map
    (fun t =>
       match assocGet Z.eqb renumberedMap (Tile.id t) with
       | Some t' => t'
       | None => t
       end)
    tiles.

(** ** Winding and boundary tests ([App.tsx]) *)

Definition isPolygonClockwise (polygon : list Point.t) : bool :=
  let n := length polygon in
  let sum :=
    fold_left
      (fun sum i =>
         let p1 := at_ polygon i in
         let p2 := at_ polygon ((i + 1) mod n) in
         sum + (Point.x p2 - Point.x p1) * (Point.y p2 + Point.y p1))
      (seq 0 n) 0 in
  gtb sum 0.

Definition arePointsCollinear (p1 p2 p3 : Point.t) (epsilon : R) : bool :=
  let area := Point.x p1 * (Point.y p2 - Point.y p3)
              + Point.x p2 * (Point.y p3 - Point.y p1)
              + Point.x p3 * (Point.y p1 - Point.y p2) in
  ltb (Rabs area) epsilon.

Definition isPointOnSegment (p a b : Point.t) (epsilon : R) : bool :=
  arePointsCollinear a b p epsilon
  && leb (Rmin (Point.x a) (Point.x b) - epsilon) (Point.x p)
  && leb (Point.x p) (Rmax (Point.x a) (Point.x b) + epsilon)
  && leb (Rmin (Point.y a) (Point.y b) - epsilon) (Point.y p)
  && leb (Point.y p) (Rmax (Point.y a) (Point.y b) + epsilon).

Definition isSegmentOnTileBoundary (p1 p2 : Point.t) (tile : Tile.t) : bool :=
  let x := Tile.x tile in
  let y := Tile.y tile in
  let width := Tile.width tile in
  let height := Tile.height tile in
  let tileEdges :=
    [ (Point.mk (-1) x y, Point.mk (-1) (x + width) y);
      (Point.mk (-1) (x + width) y, Point.mk (-1) (x + width) (y + height));
      (Point.mk (-1) (x + width) (y + height), Point.mk (-1) x (y + height));
      (Point.mk (-1) x (y + height), Point.mk (-1) x y) ] in
  existsb
    (fun edge =>
       let '(e1, e2) := edge in
       isPointOnSegment p1 e1 e2 1e-6 && isPointOnSegment p2 e1 e2 1e-6)
    tileEdges.

(** ** Area statistics ([App.tsx], [calculateStatsForArea]) *)

(** [{ ...area, calculationResult: r }]. *)
Definition withCalculationResult (area : Area.t) (r : option CalculationResult.t) : Area.t :=
  Area.mk (Area.id area) (Area.name area) (Area.points area) (Area.walls area)
    (Area.color area) (Area.isClosed area) r (Area.isVisible area).

(** [{ ...area, points: ps }]. *)
Definition withPoints (area : Area.t) (ps : list Point.t) : Area.t :=
  Area.mk (Area.id area) (Area.name area) ps (Area.walls area)
    (Area.color area) (Area.isClosed area) (Area.calculationResult area)
    (Area.isVisible area).

Definition tilePolygon (tile : Tile.t) : list Point.t :=
  rectPolygon (Tile.x tile) (Tile.y tile) (Tile.width tile) (Tile.height tile).

(** The winding normalisation shared by the statistics and the cut. *)
Definition normalized (polygon : list Point.t) : list Point.t :=
  if isPolygonClockwise polygon then rev polygon else polygon.

(** The body of [intersectingTiles.forEach]: the state is
    [totalUsedTileArea] and [tileAreaByColor]. *)
Definition statsStep (areaPolygon : list Point.t)
    (st : R * list (string * R)) (tile : Tile.t) : R * list (string * R) :=
  let '(totalUsedTileArea, tileAreaByColor) := st in
  let intersection := clipPolygonByPolygon (tilePolygon tile) areaPolygon in
  let intersectionArea := polygonArea intersection in
  if gtb intersectionArea 1e-6 then
    let previous :=
      match assocGet String.eqb tileAreaByColor (Tile.color tile) with
      | Some v => v
      | None => 0
      end in
    (totalUsedTileArea + intersectionArea,
     assocSet String.eqb tileAreaByColor (Tile.color tile) (previous + intersectionArea))
  else st.

Definition calculateStatsForArea (area : Area.t) (allTiles : list Tile.t)
    (tileDims : TileDimensions.t) : Area.t :=
  if negb (Area.isClosed area) || (length (Area.points area) <? 3)%nat then
    withCalculationResult area None
  else
    let areaPolygon := normalized (Area.points area) in
    let pArea := polygonArea areaPolygon in
    let perimeter := polygonPerimeter areaPolygon in
    let singleTileArea := TileDimensions.width tileDims * TileDimensions.height tileDims in
    if eqb singleTileArea 0 then
      withCalculationResult area
        (Some (CalculationResult.mk 0 0 [] 0 pArea perimeter))
    else
      let intersectingTiles :=
        filter (fun tile : Tile.t => polygonIntersectsRectangle areaPolygon tile) allTiles in
      let '(totalUsedTileArea, tileAreaByColor) :=
        fold_left (statsStep areaPolygon) intersectingTiles (0, []) in
      let finalTileCount := totalUsedTileArea / singleTileArea in
      let finalTileCountsByColor :=
        fold_left
          (fun acc entry => assocSet String.eqb acc (fst entry) (snd entry / singleTileArea))
          tileAreaByColor [] in
      let colorCount := length finalTileCountsByColor in
      withCalculationResult area
        (Some (CalculationResult.mk finalTileCount colorCount finalTileCountsByColor
                 finalTileCount pArea perimeter)).

(** ** Cut decomposition ([App.tsx], [handleCut]) *)

Module CutTilePiece.
Record t : Type := mk {
  id : string;
  originalTile : Tile.t;
  polygons : list (list Point.t);
  cutSegments : option (list (list Point.t));
  x : R;
  y : R;
  isOffcut : bool;
  wastePercentage : R
}.
End CutTilePiece.

(** [p => ({ ...p, x: p.x - tile.x, y: p.y - tile.y })]. *)
Definition toLocal (tile : Tile.t) (p : Point.t) : Point.t :=
  Point.mk (Point.id p) (Point.x p - Tile.x tile) (Point.y p - Tile.y tile).

(** [p => ({ ...p, id: -1, x: p.x - tile.x, y: p.y - tile.y })]. *)
Definition toLocalCut (tile : Tile.t) (p : Point.t) : Point.t :=
  Point.mk (-1) (Point.x p - Tile.x tile) (Point.y p - Tile.y tile).

(** The untouched tile rectangle in piece-local coordinates. *)
Definition outerPoly (tile : Tile.t) : list Point.t :=
  [ Point.mk (-1) 0 0;
    Point.mk (-1) (Tile.width tile) 0;
    Point.mk (-1) (Tile.width tile) (Tile.height tile);
    Point.mk (-1) 0 (Tile.height tile) ].

(** [correctedAreas.forEach]: the clipped polygons of area above [1e-6]. *)
Definition inPiecePolygonsOf (correctedAreas : list Area.t) (tile : Tile.t)
    : list (list Point.t) :=
  fold_left
    (fun inPiecePolygons area =>
       let intersection := clipPolygonByPolygon (tilePolygon tile) (Area.points area) in
       if gtb (polygonArea intersection) 1e-6 then inPiecePolygons ++ [intersection]
       else inPiecePolygons)
    correctedAreas [].

(** The edges of the in-piece polygons that do not lie on the tile boundary. *)
Definition cutSegmentsOf (inPiecePolygons : list (list Point.t)) (tile : Tile.t)
    : list (list Point.t) :=
  fold_left
    (fun cutSegments poly =>
       fold_left
         (fun cutSegments i =>
            let p1 := at_ poly i in
            let p2 := at_ poly ((i + 1) mod length poly) in
            if negb (isSegmentOnTileBoundary p1 p2 tile) then cutSegments ++ [[p1; p2]]
            else cutSegments)
         (seq 0 (length poly)) cutSegments)
    inPiecePolygons [].

Definition totalInPieceAreaOf (inPiecePolygons : list (list Point.t)) : R :=
  fold_left (fun sum p => sum + polygonArea p) inPiecePolygons 0.

(** The pieces that the body of [tiles.forEach] pushes for one tile. *)
Definition cutTile (correctedAreas : list Area.t) (tile : Tile.t) : list CutTilePiece.t :=
  let inPiecePolygons := inPiecePolygonsOf correctedAreas tile in
  let cutSegments := cutSegmentsOf inPiecePolygons tile in
  let totalInPieceArea := totalInPieceAreaOf inPiecePolygons in
  let originalTileArea := Tile.width tile * Tile.height tile in
  if ltb totalInPieceArea 1e-6 then
    [ CutTilePiece.mk (stringOfZ (Tile.id tile) ++ "-offcut")%string tile
        [outerPoly tile] (Some []) (Tile.x tile) (Tile.y tile) true 100 ]
  else
    mapi
      (fun poly i =>
         CutTilePiece.mk
           (stringOfZ (Tile.id tile) ++ "-in-" ++ stringOfNat i)%string tile
           [map (toLocal tile) poly] None (Tile.x tile) (Tile.y tile) false 0)
      inPiecePolygons
    ++
    (if gtb (originalTileArea - totalInPieceArea) 1e-6 then
       let holePolys := map (map (toLocal tile)) inPiecePolygons in
       let wastePercentage :=
         if gtb originalTileArea 0
         then (originalTileArea - totalInPieceArea) / originalTileArea * 100
         else 0 in
       [ CutTilePiece.mk (stringOfZ (Tile.id tile) ++ "-offcut")%string tile
           (outerPoly tile :: holePolys)
           (Some (map (map (toLocalCut tile)) cutSegments))
           (Tile.x tile) (Tile.y tile) true wastePercentage ]
     else []).

(** *** Offcut packing

    The arrays of [offcutPiecesByColor] hold references to the objects of
    [allNewCutPieces]; the packing assigns [x] and [y] through these
    references.  A reference is the index of the piece in
    [allNewCutPieces], the store is that list. *)

Definition setPosition (piece : CutTilePiece.t) (px py : R) : CutTilePiece.t :=
  CutTilePiece.mk (CutTilePiece.id piece) (CutTilePiece.originalTile piece)
    (CutTilePiece.polygons piece) (CutTilePiece.cutSegments piece) px py
    (CutTilePiece.isOffcut piece) (CutTilePiece.wastePercentage piece).

Fixpoint updateAt {A : Type} (l : list A) (i : nat) (f : A -> A) : list A :=
  match l, i with
  | [], _ => []
  | a :: rest, O => f a :: rest
  | a :: rest, S j => a :: updateAt rest j f
  end.

Definition blankPiece : CutTilePiece.t :=
  CutTilePiece.mk EmptyString (Tile.mk 0 0 0 0 0 EmptyString None) [] None 0 0 false 0.

Definition deref (store : list CutTilePiece.t) (ref : nat) : CutTilePiece.t :=
  nth ref store blankPiece.

(** [allNewCutPieces.filter(p => p.isOffcut).forEach(...)]: group the
    references of the offcuts by the colour of their tile. *)
Definition groupOffcuts (store : list CutTilePiece.t) : list (string * list nat) :=
  fold_left
    (fun offcutPiecesByColor ref =>
       let p := deref store ref in
       if CutTilePiece.isOffcut p then
         let color := Tile.color (CutTilePiece.originalTile p) in
         let pieces :=
           match assocGet String.eqb offcutPiecesByColor color with
           | Some ps => ps
           | None => []
           end in
         assocSet String.eqb offcutPiecesByColor color (pieces ++ [ref])
       else offcutPiecesByColor)
    (seq 0 (length store)) [].

(** [parseInt((tile.number || '0-0').split('-')[1])]; [None] is [NaN]. *)
Definition ordinalOf (tile : Tile.t) : option Z :=
  let s :=
    match Tile.number tile with
    | None => "0-0"%string
    | Some EmptyString => "0-0"%string
    | Some n => n
    end in
  match nth_error (split s) 1 with
  | Some part => parseInt part
  | None => None
  end.

(** [(a, b) => numA - numB]; a [NaN] difference is not [> 0], and counts as
    [0] in [sort] (an ordinal that does not parse makes the comparator
    inconsistent, see [sort]). *)
Definition byOrdinal (store : list CutTilePiece.t) (a b : nat) : R :=
  match ordinalOf (CutTilePiece.originalTile (deref store a)),
        ordinalOf (CutTilePiece.originalTile (deref store b)) with
  | Some numA, Some numB => IZR (numA - numB)
  | _, _ => 0
  end.

(** [(a, b) => TILE_COLORS.indexOf(a) - TILE_COLORS.indexOf(b)]. *)
Definition byPalette (a b : string) : R :=
  IZR (indexOf TILE_COLORS a - indexOf TILE_COLORS b).

(** [pieces.forEach]: the state is the store and [currentX]. *)
Definition placeStep (PADDING currentY : R)
    (st : list CutTilePiece.t * R) (ref : nat) : list CutTilePiece.t * R :=
  let '(store, currentX) := st in
  (updateAt store ref (fun piece => setPosition piece currentX currentY),
   currentX + (Tile.width (CutTilePiece.originalTile (deref store ref)) + PADDING)).

(** [sortedColors.forEach]: the state is the store and [currentY]. *)
Definition rowStep (offcutPiecesByColor : list (string * list nat)) (minX PADDING : R)
    (st : list CutTilePiece.t * R) (color : string) : list CutTilePiece.t * R :=
  let '(store, currentY) := st in
  let pieces :=
    match assocGet String.eqb offcutPiecesByColor color with
    | Some ps => ps
    | None => []
    end in
  let maxHeightInRow :=
    fold_left Rmax
      (map (fun ref => Tile.height (CutTilePiece.originalTile (deref store ref))) pieces)
      0 in
  let sorted := sort (byOrdinal store) pieces in
  let '(store', _) := fold_left (placeStep PADDING currentY) sorted (store, minX) in
  (store', currentY + (maxHeightInRow + PADDING * 2)).

(** [allPoints]: the points of all areas and two opposite corners of every
    tile. *)
Definition allPointsOf (areas : list Area.t) (tiles : list Tile.t) : list Pos.t :=
  map Point.pos (flat_map Area.points areas)
  ++ flat_map
       (fun t =>
          [ Pos.mk (Tile.x t) (Tile.y t);
            Pos.mk (Tile.x t + Tile.width t) (Tile.y t + Tile.height t) ])
       tiles.

Definition minXOf (allPoints : list Pos.t) : R :=
  if (0 <? length allPoints)%nat then minOf (map Pos.x allPoints) else 0.

Definition maxYOf (allPoints : list Pos.t) : R :=
  if (0 <? length allPoints)%nat then maxOf (map Pos.y allPoints) else 0.

Definition packOffcuts (areas : list Area.t) (tiles : list Tile.t)
    (tileDimensions : TileDimensions.t) (allNewCutPieces : list CutTilePiece.t)
    : list CutTilePiece.t :=
  let offcutPiecesByColor := groupOffcuts allNewCutPieces in
  let allPoints := allPointsOf areas tiles in
  let minX := minXOf allPoints in
  let maxY := maxYOf allPoints in
  let PADDING := TileDimensions.width tileDimensions / 2 in
  let currentY := maxY + PADDING * 3 in
  let sortedColors := sort byPalette (map fst offcutPiecesByColor) in
  fst (fold_left (rowStep offcutPiecesByColor minX PADDING) sortedColors
         (allNewCutPieces, currentY)).

(** What [handleCut] does with the document: it alerts and leaves, asks
    whether the fully wasted pieces are to be deleted, or enters the cut
    view with the pieces. *)
Inductive CutOutcome : Type :=
| CutAlert
| CutWastePrompt (allPieces : list CutTilePiece.t) (piecesToDeleteIds : list string)
| CutView (cutPieces : list CutTilePiece.t).

Definition handleCut (areas : list Area.t) (tiles : list Tile.t)
    (tileDimensions : TileDimensions.t) : CutOutcome :=
  let closedAreas := filter (fun a => Area.isClosed a && Area.isVisible a) areas in
  if (length closedAreas =? 0)%nat || (length tiles =? 0)%nat then CutAlert
  else
    let correctedAreas :=
      map
        (fun area =>
           if isPolygonClockwise (Area.points area)
           then withPoints area (rev (Area.points area))
           else area)
        closedAreas in
    let allNewCutPieces :=
      fold_left (fun pieces tile => pieces ++ cutTile correctedAreas tile) tiles [] in
    let placed := packOffcuts areas tiles tileDimensions allNewCutPieces in
    let fullyWastedPieces :=
      filter
        (fun p => CutTilePiece.isOffcut p && geb (CutTilePiece.wastePercentage p) 99.9)
        placed in
    if (0 <? length fullyWastedPieces)%nat
    then CutWastePrompt placed (map CutTilePiece.id fullyWastedPieces)
    else CutView placed.

(** ** Snap resolver ([components/Canvas.tsx], [getSnappedPos]) *)

Inductive Tool : Type :=
| POINTER | WALL | MOVE | ERASE | PAN | FIELD | TILE | PLACE_FIELD | FILL | CUT.

Inductive SnapType : Type :=
| vertex | midpoint | intersection | grid | extension | none.

Inductive TrackingLineType : Type := horizontal | vertical | extensionLine.

Module TrackingLine.
Record t : Type := mk {
  type : TrackingLineType;
  p1 : Pos.t;
  p2 : Pos.t;
  sourceId : Z
}.
End TrackingLine.

Module TrackingGuides.
Record t : Type := mk {
  lines : list TrackingLine.t;
  intersection : option Pos.t
}.
End TrackingGuides.

Module SnapModes.
Record t : Type := mk { grid : bool; osnap : bool; otrack : bool }.
End SnapModes.

Module SnapResult.
Record t : Type := mk { pos : Pos.t; type : SnapType }.
End SnapResult.

(** The state and props of the canvas that [getSnappedPos] closes over. *)
Module Canvas.
Record t : Type := mk {
  activeArea : option Area.t;
  activeTool : Tool;
  activeAngleSnap : option R;
  activeLengthSnap : option R;
  visibleAreas : list Area.t;
  tileDimensions : TileDimensions.t;
  zoom : R;
  trackingGuides : TrackingGuides.t;
  snapModes : SnapModes.t
}.
End Canvas.

Definition SNAP_DISTANCE : R := 20.

Definition isWALL (tool : Tool) : bool :=
  match tool with WALL => true | _ => false end.

(** [while (a <= -Math.PI) a += 2 * Math.PI].  The loop is unfolded [fuel]
    times; [fuelUp a] turns are enough for it to end (lemma
    [whileAddTurn_exit]). *)
Fixpoint whileAddTurn (fuel : nat) (a : R) : R :=
  match fuel with
  | O => a
  | S fuel' => if leb a (- PI) then whileAddTurn fuel' (a + 2 * PI) else a
  end.
Definition fuelUp (a : R) : nat := Z.to_nat (up ((- PI - a) / (2 * PI))).

(** [while (a > Math.PI) a -= 2 * Math.PI], likewise. *)
Fixpoint whileSubTurn (fuel : nat) (a : R) : R :=
  match fuel with
  | O => a
  | S fuel' => if gtb a PI then whileSubTurn fuel' (a - 2 * PI) else a
  end.
Definition fuelDown (a : R) : nat := Z.to_nat (up ((a - PI) / (2 * PI))).

Definition wrapAngle (a : R) : R :=
  let a1 := whileAddTurn (fuelUp a) a in
  whileSubTurn (fuelDown a1) a1.

(** [bestSnap]; a [dist] of [None] is [Infinity]. *)
Module BestSnap.
Record t : Type := mk { pos : Pos.t; dist : option R; type : SnapType }.
End BestSnap.

(** [d < bestSnap.dist]. *)
Definition closerThan (d : R) (best : BestSnap.t) : bool :=
  match BestSnap.dist best with
  | Some b => ltb d b
  | None => true
  end.

(** The loop over the vertices of the visible areas. *)
Definition vertexStep (pos : Pos.t) (snapRadius : R) (bestSnap : BestSnap.t)
    (p : Point.t) : BestSnap.t :=
  let d := distance pos p in
  if ltb d snapRadius && closerThan d bestSnap
  then BestSnap.mk p (Some d) vertex
  else bestSnap.

Definition findPoint (points : list Point.t) (pid : Z) : option Point.t :=
  find (fun p => Z.eqb (Point.id p) pid) points.

(** The loop over the walls of the visible areas, each with the points of
    its area. *)
Definition midpointStep (pos : Pos.t) (snapRadius : R) (bestSnap : BestSnap.t)
    (entry : Wall.t * list Point.t) : BestSnap.t :=
  let '(wall, points) := entry in
  match findPoint points (Wall.p1Id wall), findPoint points (Wall.p2Id wall) with
  | Some p1, Some p2 =>
      let mid := Pos.mk ((Point.x p1 + Point.x p2) / 2) ((Point.y p1 + Point.y p2) / 2) in
      let d := distance pos mid in
      if ltb d snapRadius && closerThan d bestSnap
      then BestSnap.mk mid (Some d) midpoint
      else bestSnap
  | _, _ => bestSnap
  end.

(** The loop over the tracking lines: the state is [bestLineSnapPos] and
    [minSnapDist]. *)
Definition lineStep (pos : Pos.t) (st : option Pos.t * R) (line : TrackingLine.t)
    : option Pos.t * R :=
  let '(bestLineSnapPos, minSnapDist) := st in
  let p1 := TrackingLine.p1 line in
  let p2 := TrackingLine.p2 line in
  let dx := Pos.x p2 - Pos.x p1 in
  let dy := Pos.y p2 - Pos.y p1 in
  if eqb dx 0 && eqb dy 0 then st
  else
    let t := ((Pos.x pos - Pos.x p1) * dx + (Pos.y pos - Pos.y p1) * dy)
             / (dx * dx + dy * dy) in
    let snapped := Pos.mk (Pos.x p1 + t * dx) (Pos.y p1 + t * dy) in
    let dist := distance pos snapped in
    if ltb dist minSnapDist then (Some snapped, dist) else st.

(** The polar branch, entered with the last point of the active area. *)
Definition polarSnap (c : Canvas.t) (points : list Point.t) (lastPoint : Point.t)
    (pos : Pos.t) : SnapResult.t :=
  let dx := Pos.x pos - Point.x lastPoint in
  let dy := Pos.y pos - Point.y lastPoint in
  let finalAngleRad0 := atan2 dy dx in
  let finalDist0 := sqrt (dx * dx + dy * dy) in
  let finalAngleRad :=
    match Canvas.activeAngleSnap c with
    | Some activeAngleSnap =>
        let snapAngleRad := activeAngleSnap * (PI / 180) in
        let baseAngleRad :=
          if (2 <=? length points)%nat then
            let secondLastPoint := at_ points (length points - 2) in
            atan2 (Point.y lastPoint - Point.y secondLastPoint)
                  (Point.x lastPoint - Point.x secondLastPoint)
          else 0 in
        let rawRelativeAngleRad := wrapAngle (finalAngleRad0 - baseAngleRad) in
        let snappedRelativeAngleRad :=
          round (rawRelativeAngleRad / snapAngleRad) * snapAngleRad in
        baseAngleRad + snappedRelativeAngleRad
    | None => finalAngleRad0
    end in
  let finalDist :=
    match Canvas.activeLengthSnap c with
    | Some activeLengthSnap =>
        if gtb activeLengthSnap 0
        then round (finalDist0 / activeLengthSnap) * activeLengthSnap
        else finalDist0
    | None => finalDist0
    end in
  if eqb finalDist 0 then SnapResult.mk lastPoint vertex
  else
    SnapResult.mk
      (Pos.mk (Point.x lastPoint + finalDist * cos finalAngleRad)
              (Point.y lastPoint + finalDist * sin finalAngleRad))
      extension.

Definition isSome {A : Type} (o : option A) : bool :=
  match o with Some _ => true | None => false end.

(** The ordinary branch, first part: [bestSnap] after the tracking
    intersection, the vertices and the wall midpoints were examined. *)
Definition bestSnapOf (c : Canvas.t) (pos : Pos.t) : BestSnap.t :=
  let snapModes := Canvas.snapModes c in
  let trackingGuides := Canvas.trackingGuides c in
  let visibleAreas := Canvas.visibleAreas c in
  let snapRadius := SNAP_DISTANCE / Canvas.zoom c in
  let bestSnap0 := BestSnap.mk pos None none in
  let bestSnap1 :=
    match TrackingGuides.intersection trackingGuides with
    | Some i =>
        if SnapModes.otrack snapModes && ltb (distance pos i) snapRadius
        then BestSnap.mk i (Some (distance pos i)) intersection
        else bestSnap0
    | None => bestSnap0
    end in
  if SnapModes.osnap snapModes then
    let allPoints := flat_map Area.points visibleAreas in
    let bestSnap2 := fold_left (vertexStep pos snapRadius) allPoints bestSnap1 in
    let allWalls :=
      flat_map (fun a => map (fun w => (w, Area.points a)) (Area.walls a)) visibleAreas in
    fold_left (midpointStep pos snapRadius) allWalls bestSnap2
  else bestSnap1.

(** The ordinary branch. *)
Definition ordinarySnap (c : Canvas.t) (pos : Pos.t) : SnapResult.t :=
  let snapModes := Canvas.snapModes c in
  let trackingGuides := Canvas.trackingGuides c in
  let tileDimensions := Canvas.tileDimensions c in
  let snapRadius := SNAP_DISTANCE / Canvas.zoom c in
  let bestSnap := bestSnapOf c pos in
  match BestSnap.type bestSnap with
  | intersection | vertex | midpoint =>
      SnapResult.mk (BestSnap.pos bestSnap) (BestSnap.type bestSnap)
  | _ =>
      let bestLineSnapPos :=
        if SnapModes.otrack snapModes
           && (0 <? length (TrackingGuides.lines trackingGuides))%nat
        then fst (fold_left (lineStep pos) (TrackingGuides.lines trackingGuides)
                    (None, snapRadius))
        else None in
      match bestLineSnapPos with
      | Some p => SnapResult.mk p extension
      | None =>
          if SnapModes.grid snapModes then
            SnapResult.mk
              (Pos.mk
                 (round (Pos.x pos / TileDimensions.width tileDimensions)
                  * TileDimensions.width tileDimensions)
                 (round (Pos.y pos / TileDimensions.height tileDimensions)
                  * TileDimensions.height tileDimensions))
              grid
          else SnapResult.mk pos none
      end
  end.

Definition getSnappedPos (c : Canvas.t) (pos : Pos.t) : SnapResult.t :=
  let points :=
    match Canvas.activeArea c with
    | Some a => Area.points a
    | None => []
    end in
  let lastPoint :=
    if (0 <? length points)%nat then Some (at_ points (length points - 1)) else None in
  match lastPoint with
  | Some lastPoint =>
      if isWALL (Canvas.activeTool c)
         && (isSome (Canvas.activeAngleSnap c) || isSome (Canvas.activeLengthSnap c))
      then polarSnap c points lastPoint pos
      else ordinarySnap c pos
  | None => ordinarySnap c pos
  end.

(** ** [polygonArea] in double arithmetic ([lib/geometry.ts])

    The operations of a JavaScript [number] are those of IEEE 754 binary64:
    the exact result, rounded.  Where a property depends on the rounding,
    [polygonArea] and what feeds it are embedded a second and a third time:

    - [Rounded.polygonArea rnd] follows the source operation by operation,
      with the rounding [rnd] applied to the exact result of each [+], [-],
      [*] and [/] ([Math.abs] is exact);
    - [Double.polygonArea] follows it on the binary64 numbers of Rocq, and
      evaluates. *)

Module Rounded.
Section Rounding.
Variable rnd : R -> R.

Definition shoelaceStep (st : Point.t * R) (pi : Point.t) : Point.t * R :=
  let '(pj, area) := st in
  (pi,
   rnd (rnd (area + rnd (Point.x pi * Point.y pj)) - rnd (Point.x pj * Point.y pi))).

Definition polygonArea (polygon : list Point.t) : R :=
  if (length polygon <? 3)%nat then 0
  else
    let area := snd (fold_left shoelaceStep polygon (lastOf polygon, 0)) in
    Rabs (rnd (area / 2)).

(** The four corners of a tile, as [calculateStatsForArea] and [handleCut]
    build them. *)
Definition tilePolygon (tile : Tile.t) : list Point.t :=
  [ Point.mk (-1) (Tile.x tile) (Tile.y tile);
    Point.mk (-2) (rnd (Tile.x tile + Tile.width tile)) (Tile.y tile);
    Point.mk (-3) (rnd (Tile.x tile + Tile.width tile))
      (rnd (Tile.y tile + Tile.height tile));
    Point.mk (-4) (Tile.x tile) (rnd (Tile.y tile + Tile.height tile)) ].

(** [p => ({ ...p, x: p.x - tile.x, y: p.y - tile.y })]. *)
Definition toLocal (tile : Tile.t) (p : Point.t) : Point.t :=
  Point.mk (Point.id p) (rnd (Point.x p - Tile.x tile)) (rnd (Point.y p - Tile.y tile)).
End Rounding.
End Rounded.

From Stdlib Require Floats.

Module Double.
Module Point.
Record t : Type := mk { id : Z; x : PrimFloat.float; y : PrimFloat.float }.
End Point.

Definition shoelaceStep (st : Point.t * PrimFloat.float) (pi : Point.t)
    : Point.t * PrimFloat.float :=
  let '(pj, area) := st in
  (pi,
   PrimFloat.sub (PrimFloat.add area (PrimFloat.mul (Point.x pi) (Point.y pj)))
     (PrimFloat.mul (Point.x pj) (Point.y pi))).

Definition polygonArea (polygon : list Point.t) : PrimFloat.float :=
  if (length polygon <? 3)%nat then PrimFloat.zero
  else
    let area :=
      snd (fold_left shoelaceStep polygon
             (last polygon (Point.mk 0 PrimFloat.zero PrimFloat.zero), PrimFloat.zero)) in
    PrimFloat.abs (PrimFloat.div area PrimFloat.two).

(** The four corners of the tile at [(x, y)] of [width] by [height]. *)
Definition tilePolygon (x y width height : PrimFloat.float) : list Point.t :=
  [ Point.mk (-1) x y;
    Point.mk (-2) (PrimFloat.add x width) y;
    Point.mk (-3) (PrimFloat.add x width) (PrimFloat.add y height);
    Point.mk (-4) x (PrimFloat.add y height) ].
End Double.

(** * Further functions of the sources *)

(** ** Snap of the first point of an area ([components/Canvas.tsx],
    [getFirstPointSnap]) *)

Definition getFirstPointSnap (c : Canvas.t) (pos : Pos.t) : SnapResult.t :=
  let snapModes := Canvas.snapModes c in
  let visibleAreas := Canvas.visibleAreas c in
  let tileDimensions := Canvas.tileDimensions c in
  let snapRadius := SNAP_DISTANCE / Canvas.zoom c in
  let bestSnap0 := BestSnap.mk pos None none in
  let bestSnap :=
    if SnapModes.osnap snapModes then
      let allPoints := flat_map Area.points visibleAreas in
      let bestSnap1 := fold_left (vertexStep pos snapRadius) allPoints bestSnap0 in
      let allWalls :=
        flat_map (fun a => map (fun w => (w, Area.points a)) (Area.walls a)) visibleAreas in
      fold_left (midpointStep pos snapRadius) allWalls bestSnap1
    else bestSnap0 in
  match BestSnap.type bestSnap with
  | vertex | midpoint => SnapResult.mk (BestSnap.pos bestSnap) (BestSnap.type bestSnap)
  | _ =>
      if SnapModes.grid snapModes then
        SnapResult.mk
          (Pos.mk
             (round (Pos.x pos / TileDimensions.width tileDimensions)
              * TileDimensions.width tileDimensions)
             (round (Pos.y pos / TileDimensions.height tileDimensions)
              * TileDimensions.height tileDimensions))
          grid
      else SnapResult.mk pos none
  end.

(** ** Undo history ([App.tsx])

    The part of the state of [App] that [recordHistory], [handleUndo] and
    [handleRedo] read and set.  A handler is a function from the state of
    one render to the state of the next.  [JSON.parse(JSON.stringify(v))]
    returns a copy of [v], which is [v] itself here.  Reading a field of
    [history[i]] for an index out of range raises a [TypeError]: the result
    is [None]. *)

Module HistoryState.
Record t : Type := mk { areas : list Area.t; tiles : list Tile.t }.
End HistoryState.

Module App.
Record t : Type := mk {
  areas : list Area.t;
  tiles : list Tile.t;
  activeAreaIndex : option nat;
  history : list HistoryState.t;
  historyIndex : nat;
  isCutViewActive : bool
}.
End App.

(** [Array.prototype.findIndex]; [None] is [-1]. *)
Fixpoint findIndexFrom {A : Type} (f : A -> bool) (l : list A) (i : nat) : option nat :=
  match l with
  | [] => None
  | a :: rest => if f a then Some i else findIndexFrom f rest (S i)
  end.
Definition findIndex {A : Type} (f : A -> bool) (l : list A) : option nat :=
  findIndexFrom f l 0.

Definition recordHistory (s : App.t) (newAreas : list Area.t) (newTiles : list Tile.t)
    : App.t :=
  if App.isCutViewActive s then s
  else
    let newHistoryState := HistoryState.mk newAreas newTiles in
    let newHistory := firstn (App.historyIndex s + 1) (App.history s) in
    App.mk (App.areas s) (App.tiles s) (App.activeAreaIndex s)
      (newHistory ++ [newHistoryState]) (length newHistory) (App.isCutViewActive s).

(** [setAreas], [setTiles], [setHistoryIndex] and [setActiveAreaIndex] of
    the two handlers, for the history entry at [newIndex]. *)
Definition restore (s : App.t) (newIndex : nat) : option App.t :=
  match nth_error (App.history s) newIndex with
  | Some state =>
      let currentActiveArea :=
        findIndex (fun a => negb (Area.isClosed a)) (HistoryState.areas state) in
      Some (App.mk (HistoryState.areas state) (HistoryState.tiles state)
              currentActiveArea (App.history s) newIndex (App.isCutViewActive s))
  | None => None
  end.

Definition handleUndo (s : App.t) : option App.t :=
  if (0 <? App.historyIndex s)%nat && negb (App.isCutViewActive s)
  then restore s (App.historyIndex s - 1)
  else Some s.

Definition handleRedo (s : App.t) : option App.t :=
  if (Z.of_nat (App.historyIndex s) <? Z.of_nat (length (App.history s)) - 1)%Z
     && negb (App.isCutViewActive s)
  then restore s (App.historyIndex s + 1)
  else Some s.

(** ** Snap switches ([App.tsx]) *)

Module SnapState.
Record t : Type := mk {
  snapModes : SnapModes.t;
  activeAngleSnap : option R;
  activeLengthSnap : option R
}.
End SnapState.

Inductive SnapMode : Type := gridMode | osnapMode | otrackMode.

Definition isMasterSnapOn (s : SnapState.t) : bool :=
  if isSome (SnapState.activeAngleSnap s) || isSome (SnapState.activeLengthSnap s)
  then false
  else SnapModes.grid (SnapState.snapModes s)
       && SnapModes.osnap (SnapState.snapModes s)
       && SnapModes.otrack (SnapState.snapModes s).

(** The effect that follows a render: a polar increment switches the three
    modes off. *)
Definition snapEffect (s : SnapState.t) : SnapState.t :=
  if isSome (SnapState.activeAngleSnap s) || isSome (SnapState.activeLengthSnap s) then
    if SnapModes.grid (SnapState.snapModes s)
       || SnapModes.osnap (SnapState.snapModes s)
       || SnapModes.otrack (SnapState.snapModes s)
    then SnapState.mk (SnapModes.mk false false false)
           (SnapState.activeAngleSnap s) (SnapState.activeLengthSnap s)
    else s
  else s.

Definition handleToggleMasterSnap (s : SnapState.t) : SnapState.t :=
  let newMasterState := negb (isMasterSnapOn s) in
  SnapState.mk (SnapModes.mk newMasterState newMasterState newMasterState) None None.

Definition handleToggleSnapMode (mode : SnapMode) (s : SnapState.t) : SnapState.t :=
  let prev := SnapState.snapModes s in
  let newModes :=
    match mode with
    | gridMode =>
        SnapModes.mk (negb (SnapModes.grid prev)) (SnapModes.osnap prev) (SnapModes.otrack prev)
    | osnapMode =>
        SnapModes.mk (SnapModes.grid prev) (negb (SnapModes.osnap prev)) (SnapModes.otrack prev)
    | otrackMode =>
        SnapModes.mk (SnapModes.grid prev) (SnapModes.osnap prev) (negb (SnapModes.otrack prev))
    end in
  if SnapModes.grid newModes || SnapModes.osnap newModes || SnapModes.otrack newModes
  then SnapState.mk newModes None None
  else SnapState.mk newModes (SnapState.activeAngleSnap s) (SnapState.activeLengthSnap s).

(** ** Painting tiles ([components/Canvas.tsx], [addTileToPaintBatch]) *)

(** [Math.floor]. *)
Definition floor (a : R) : R := IZR (Int_part a).

(** The entries of [paintingBatch]: a rectangle and a colour. *)
Module BatchTile.
Record t : Type := mk { x : R; y : R; width : R; height : R; color : string }.
Definition rect (b : t) : Rect.t := Rect.mk (x b) (y b) (width b) (height b).
End BatchTile.
Coercion BatchTile.rect : BatchTile.t >-> Rect.t.

(** The handler tests [paintingBatch], the batch of the render that created
    it, and appends through [setPaintingBatch(prev => ...)] to the batch
    that the state holds by then, [prev]; the result is the next state.
    When a tile of [paintingBatch] is hit, the handler returns and the
    state stays as it is. *)
Definition addTileToPaintBatch (c : Canvas.t) (activeColor : string)
    (paintingBatch : list BatchTile.t) (pos : Pos.t) (prev : list BatchTile.t)
    : list BatchTile.t :=
  let width := TileDimensions.width (Canvas.tileDimensions c) in
  let height := TileDimensions.height (Canvas.tileDimensions c) in
  let finalPos :=
    if SnapModes.grid (Canvas.snapModes c)
    then Pos.mk (floor (Pos.x pos / width) * width) (floor (Pos.y pos / height) * height)
    else Pos.mk (Pos.x pos) (Pos.y pos - height) in
  let newTileRect := Rect.mk (Pos.x finalPos) (Pos.y finalPos) width height in
  if existsb (fun batchTile : BatchTile.t => rectanglesIntersect newTileRect batchTile)
       paintingBatch
  then prev
  else prev
       ++ [BatchTile.mk (Pos.x finalPos) (Pos.y finalPos) width height activeColor].

(** * Specification-level definitions *)

(** The shoelace term of the directed edge from [p] to [q]. *)
Definition shoelaceTerm (p q : Point.t) : R :=
  Point.x q * Point.y p - Point.x p * Point.y q.

(** The sum of the shoelace terms along the open path [prev :: l]. *)
Fixpoint pathSum (prev : Point.t) (l : list Point.t) : R :=
  match l with
  | [] => 0
  | cur :: rest => shoelaceTerm prev cur + pathSum cur rest
  end.

Definition chainSum (path : list Point.t) : R :=
  match path with
  | [] => 0
  | p :: l => pathSum p l
  end.

(** The signed sum that [polygonArea] accumulates. *)
Definition signedSum (polygon : list Point.t) : R :=
  snd (fold_left shoelaceStep polygon (lastOf polygon, 0)).

(** *** Rounding

    The rounding leaves the integers up to [2 ^ 53], and their halves, as
    they are: these numbers are doubles. *)
Definition exactOnIntegers (rnd : R -> R) : Prop :=
  forall k : Z, (Z.abs k <= 2 ^ 53)%Z ->
    rnd (IZR k) = IZR k /\ rnd (IZR k / 2) = IZR k / 2.

(** Both coordinates of [p] are integers of absolute value at most [B]. *)
Definition integerPoint (B : Z) (p : Point.t) : Prop :=
  exists a b : Z,
    Point.x p = IZR a /\ Point.y p = IZR b /\ (Z.abs a <= B)%Z /\ (Z.abs b <= B)%Z.

(** The position and the dimensions of [tile] are integers, and its four
    corners have coordinates of absolute value at most [B]. *)
Definition integerTile (B : Z) (tile : Tile.t) : Prop :=
  exists x y w h : Z,
    Tile.x tile = IZR x /\ Tile.y tile = IZR y
    /\ Tile.width tile = IZR w /\ Tile.height tile = IZR h
    /\ (Z.abs x <= B)%Z /\ (Z.abs y <= B)%Z
    /\ (Z.abs (x + w) <= B)%Z /\ (Z.abs (y + h) <= B)%Z.

(** A rounding that is not the identity: down to the next multiple of one
    half. *)
Definition halfRound (v : R) : R := IZR (Int_part (2 * v)) / 2.

(** The doubles that the decimal numerals [0.1], [0.3], [0.02] and
    [0.020000000000000004] denote. *)
Module Numeral.
Import PrimFloat.
Definition tenth : float := 0x1.999999999999ap-4.
Definition threeTenths : float := 0x1.3333333333333p-2.
Definition fiftieth : float := 0x1.47ae147ae147bp-6.
Definition fiftiethUp : float := 0x1.47ae147ae147cp-6.
End Numeral.

(** The doubles of some integers. *)
Module Whole.
Import PrimFloat.
Definition three : float := 3.
Definition four : float := 4.
Definition six : float := 6.
Definition tileSide : float := 465.
Definition tileArea : float := 216225.
Definition oneLess : float := 216224.
Definition farAway : float := 100000001.
End Whole.

(** The double of an integer. *)
Definition wholeDouble (z : Z) : PrimFloat.float :=
  if (z <? 0)%Z then PrimFloat.opp (PrimFloat.of_uint63 (Uint63.of_Z (- z)))
  else PrimFloat.of_uint63 (Uint63.of_Z z).

(** All triangles with both coordinates of every vertex among [values]. *)
Definition trianglesOver (values : list Z) : list (list Double.Point.t) :=
  let points :=
    flat_map (fun x => map (fun y => Double.Point.mk 0 (wholeDouble x) (wholeDouble y)) values)
      values in
  flat_map (fun a => flat_map (fun b => map (fun c => [a; b; c]) points) points) points.

(** The right triangle (0,0), (4,0), (0,3), in doubles. *)
Definition wholeTriangle : list Double.Point.t :=
  [ Double.Point.mk 1 PrimFloat.zero PrimFloat.zero;
    Double.Point.mk 2 Whole.four PrimFloat.zero;
    Double.Point.mk 3 PrimFloat.zero Whole.three ].

(** The triangle (0.1, 0.1), (0.1, 0.3), (0.3, 0.3). *)
Definition tenthTriangle : list Double.Point.t :=
  [ Double.Point.mk 1 Numeral.tenth Numeral.tenth;
    Double.Point.mk 2 Numeral.tenth Numeral.threeTenths;
    Double.Point.mk 3 Numeral.threeTenths Numeral.threeTenths ].

(** The lines through [p1 p2] and [p3 p4] are not parallel, in the sense of
    [getLineIntersection], and meet at [(X, Y)]. *)
Definition linesMeetAt (p1 p2 p3 p4 : Pos.t) (X Y : R) : Prop :=
  let d := (Pos.x p1 - Pos.x p2) * (Pos.y p3 - Pos.y p4)
           - (Pos.y p1 - Pos.y p2) * (Pos.x p3 - Pos.x p4) in
  let t := ((Pos.x p1 - Pos.x p3) * (Pos.y p3 - Pos.y p4)
            - (Pos.y p1 - Pos.y p3) * (Pos.x p3 - Pos.x p4)) / d in
  (1e-9 <= d \/ d <= - (1e-9))
  /\ X = Pos.x p1 + t * (Pos.x p2 - Pos.x p1)
  /\ Y = Pos.y p1 + t * (Pos.y p2 - Pos.y p1).

(** [p] is on the inner side of the [i]-th edge of [clipPolygon], by the
    sign test of [clipPolygonByPolygon]. *)
Definition insideEdge (clipPolygon : list Point.t) (i : nat) (p : Point.t) : bool :=
  geb (crossProduct (at_ clipPolygon ((i + 1) mod length clipPolygon))
         (at_ clipPolygon i) p) 0.

(** Every vertex of the polygon is on the inner side of every edge: the
    polygon is convex and wound counter-clockwise. *)
Definition convexCounterClockwise (polygon : list Point.t) : bool :=
  forallb (fun i => forallb (insideEdge polygon i) polygon) (seq 0 (length polygon)).

(** An L-shaped room, wound counter-clockwise: the square [(0,0)-(2,2)]
    without its upper right quarter. *)
Definition Lshape : list Point.t :=
  [ Point.mk 1 0 0; Point.mk 2 2 0; Point.mk 3 2 1;
    Point.mk 4 1 1; Point.mk 5 1 2; Point.mk 6 0 2 ].

(** The square room [(0,0)-(1000,1000)]. *)
Definition squareRoom : list Point.t :=
  [ Point.mk 1 0 0; Point.mk 2 1000 0; Point.mk 3 1000 1000; Point.mk 4 0 1000 ].

(** A point in the local coordinates of a tile: its offset from the corner
    [(tile.x, tile.y)] of the tile. *)
Definition localPoint (tile : Tile.t) (p : Point.t) : Point.t :=
  Point.mk (Point.id p) (Point.x p - Tile.x tile) (Point.y p - Tile.y tile).

(** The full rectangle of a tile in its local coordinates,
    (0,0)-(width,height). *)
Definition fullRectangle (tile : Tile.t) : list Point.t :=
  [ Point.mk (-1) 0 0; Point.mk (-1) (Tile.width tile) 0;
    Point.mk (-1) (Tile.width tile) (Tile.height tile);
    Point.mk (-1) 0 (Tile.height tile) ].

(** The in-piece for the [i]-th retained candidate [poly] of a tile: the
    candidate in local coordinates, no waste. *)
Definition inPieceOf (tile : Tile.t) (poly : list Point.t) (i : nat) : CutTilePiece.t :=
  CutTilePiece.mk (stringOfZ (Tile.id tile) ++ "-in-" ++ stringOfNat i)%string tile
    [map (localPoint tile) poly] None (Tile.x tile) (Tile.y tile) false 0.

(** The square (800,800)-(1000,1000) that the corner tile and the square
    room share, as the clipping returns it, and the same square in the
    local coordinates of the corner tile. *)
Definition cornerSquare : list Point.t :=
  [ Point.mk (-1) 800 1000; Point.mk (-1) 800 800;
    Point.mk (-1) 1000 800; Point.mk (-1) 1000 1000 ].

Definition cornerSquareLocal : list Point.t :=
  [ Point.mk (-1) 0 200; Point.mk (-1) 0 0; Point.mk (-1) 200 0; Point.mk (-1) 200 200 ].

(** The square room as a closed, visible area. *)
Definition squareArea : Area.t :=
  Area.mk 7 "Area 1" squareRoom
    [Wall.mk 21 1 2; Wall.mk 22 2 3; Wall.mk 23 3 4; Wall.mk 24 4 1]
    "#06b6d4" true None true.

(** The 500 x 500 tile at (800, 800), which overlaps the square room in
    the square (800,800)-(1000,1000). *)
Definition cornerTile : Tile.t := Tile.mk 11 800 800 500 500 "#ef4444" (Some "0-1"%string).

(** *** Snap candidates *)

(** One turn of a candidate loop of [getSnappedPos]: the candidate [q]
    replaces [bestSnap] when it is within the radius and strictly closer. *)
Definition candidateStep (pos : Pos.t) (snapRadius : R) (type : SnapType)
    (bestSnap : BestSnap.t) (q : Pos.t) : BestSnap.t :=
  let d := distance pos q in
  if ltb d snapRadius && closerThan d bestSnap
  then BestSnap.mk q (Some d) type
  else bestSnap.

(** The midpoint of a wall whose two end points are found. *)
Definition midpointOf (entry : Wall.t * list Point.t) : list Pos.t :=
  let '(wall, points) := entry in
  match findPoint points (Wall.p1Id wall), findPoint points (Wall.p2Id wall) with
  | Some p1, Some p2 =>
      [Pos.mk ((Point.x p1 + Point.x p2) / 2) ((Point.y p1 + Point.y p2) / 2)]
  | _, _ => []
  end.

(** The vertex candidates and the midpoint candidates of the visible areas. *)
Definition vertexCandidates (visibleAreas : list Area.t) : list Pos.t :=
  map Point.pos (flat_map Area.points visibleAreas).

Definition midpointCandidates (visibleAreas : list Area.t) : list Pos.t :=
  flat_map midpointOf
    (flat_map (fun a => map (fun w => (w, Area.points a)) (Area.walls a)) visibleAreas).

(** The object-snap candidates that [getSnappedPos] examines. *)
Definition osnapCandidates (c : Canvas.t) : list Pos.t :=
  if SnapModes.osnap (Canvas.snapModes c)
  then vertexCandidates (Canvas.visibleAreas c) ++ midpointCandidates (Canvas.visibleAreas c)
  else [].

(** [d] is below the distance recorded in [best] ([Infinity] when [None]). *)
Definition belowDist (d : R) (dist : option R) : Prop :=
  match dist with
  | Some b => d < b
  | None => True
  end.

(** [bestSnap] records a candidate within the radius, with its distance to
    the cursor; or it is the initial value, of type [none]. *)
Definition recorded (pos : Pos.t) (snapRadius : R) (best : BestSnap.t) : Prop :=
  match BestSnap.dist best with
  | Some d =>
      d = distance pos (BestSnap.pos best) /\ d < snapRadius
      /\ BestSnap.type best <> none /\ BestSnap.type best <> grid
      /\ BestSnap.type best <> extension
  | None => BestSnap.type best = none /\ BestSnap.pos best = pos
  end.

(** The distance that [bestSnap] records is at most [d]. *)
Definition atMost (best : BestSnap.t) (d : R) : Prop :=
  exists d', BestSnap.dist best = Some d' /\ d' <= d.

(** The tracking intersection, when object tracking is on. *)
Definition trackedIntersection (c : Canvas.t) : list Pos.t :=
  if SnapModes.otrack (Canvas.snapModes c) then
    match TrackingGuides.intersection (Canvas.trackingGuides c) with
    | Some i => [i]
    | None => []
    end
  else [].

(** The candidates among which a result of the given type is chosen. *)
Definition candidatesOf (c : Canvas.t) (type : SnapType) : list Pos.t :=
  match type with
  | vertex =>
      if SnapModes.osnap (Canvas.snapModes c)
      then vertexCandidates (Canvas.visibleAreas c) else []
  | midpoint =>
      if SnapModes.osnap (Canvas.snapModes c)
      then midpointCandidates (Canvas.visibleAreas c) else []
  | intersection => trackedIntersection c
  | _ => []
  end.

(** A wall from (-6, 8) to (6, -8) being drawn, the cursor on its midpoint
    (0, 0).  The horizontal and the vertical guide of the first end point
    meet at that end point, at distance 10 from the cursor. *)
Definition slantedWall : Area.t :=
  Area.mk 7 "Area 1" [Point.mk 1 (-6) 8; Point.mk 2 6 (-8)] [Wall.mk 21 1 2]
    "#06b6d4" false None true.

Definition slantedCanvas : Canvas.t :=
  Canvas.mk (Some slantedWall) WALL None None [slantedWall]
    (TileDimensions.mk 465 465) 1
    (TrackingGuides.mk
       [ TrackingLine.mk horizontal (Pos.mk 0 8) (Pos.mk 1 8) 1;
         TrackingLine.mk vertical (Pos.mk (-6) 0) (Pos.mk (-6) 1) 1 ]
       (Some (Pos.mk (-6) 8)))
    (SnapModes.mk true true true).

(** The same drawing with the cursor at (-6, 5), at distance 3 from the
    meeting point of the guides. *)
Definition cursorNearGuides : Pos.t := Pos.mk (-6) 5.

(** *** Renumbering *)

(** Row-major order: lower [y] first, then lower [x]. *)
Definition rowMajorLe (a b : Tile.t) : Prop :=
  Tile.y a < Tile.y b \/ (Tile.y a = Tile.y b /\ Tile.x a <= Tile.x b).

(** The numbered tiles of one colour, in the order of the tile list. *)
Definition numberedOfColor (color : string) (tiles : list Tile.t) : list Tile.t :=
  filter (fun t => isSome (Tile.number t) && String.eqb (Tile.color t) color) tiles.

(** ["<paletteIndexOfColor>-<ordinal>"]. *)
Definition label (color : string) (ordinal : nat) : string :=
  (stringOfZ (indexOf TILE_COLORS color) ++ "-" ++ stringOfNat ordinal)%string.

Definition nonEmpty {A : Type} (l : list A) : option (list A) :=
  match l with
  | [] => None
  | _ :: _ => Some l
  end.

(** Three red tiles of 500 x 500 at (0,0), (500,0) and (0,500). *)
Definition threeTiles : list Tile.t :=
  [ Tile.mk 101 0 0 500 500 "#ef4444" (Some "0");
    Tile.mk 102 500 0 500 500 "#ef4444" (Some "0");
    Tile.mk 103 0 500 500 500 "#ef4444" (Some "0") ]%string.

(** *** Polar snap *)

(** [w] is the angle [a] brought into the interval (-PI, PI] by whole turns. *)
Definition wrapsTo (a w : R) : Prop :=
  - PI < w <= PI /\ exists k : Z, w = a + 2 * PI * IZR k.

(** [s] is a multiple of [inc] nearest to [v]. *)
Definition nearestMultiple (inc v s : R) : Prop :=
  exists n : Z, s = IZR n * inc /\ Rabs (s - v) <= Rabs inc / 2.

(** A wall chain from (0,0) to (100,0) being drawn with an angle increment
    of 15 degrees and a length increment of 100. *)
Definition polarArea : Area.t :=
  Area.mk 7 "Area 1" [Point.mk 1 0 0; Point.mk 2 100 0] [Wall.mk 21 1 2]
    "#06b6d4" false None true.

Definition polarCanvas (tool : Tool) : Canvas.t :=
  Canvas.mk (Some polarArea) tool (Some 15) (Some 100) [polarArea]
    (TileDimensions.mk 465 465) 1 (TrackingGuides.mk [] None)
    (SnapModes.mk false false false).

(** The cursor at distance 240 from the last point (100, 0), 10 degrees off
    the direction of the last segment. *)
Definition polarCursor : Pos.t :=
  Pos.mk (100 + 240 * cos (PI / 18)) (0 + 240 * sin (PI / 18)).

(** *** Grouping by colour *)

(** The grouping loops of [renumberTilesByColor] and [handleCut]: an element
    that is kept is pushed onto the array of its key. *)
Definition groupBy {A : Type} (keep : A -> bool) (key : A -> string)
    (groups : list (string * list A)) (a : A) : list (string * list A) :=
  if keep a then
    let group :=
      match assocGet String.eqb groups (key a) with
      | Some g => g
      | None => []
      end in
    assocSet String.eqb groups (key a) (group ++ [a])
  else groups.

(** The kept elements of one key, in the order of the list. *)
Definition keptOfKey {A : Type} (keep : A -> bool) (key : A -> string)
    (k : string) (l : list A) : list A :=
  filter (fun a => keep a && String.eqb (key a) k) l.

(** *** Offcut packing *)

Definition tilesOf (store : list CutTilePiece.t) : list Tile.t :=
  map CutTilePiece.originalTile store.

Definition sumR (l : list R) : R := fold_right Rplus 0 l.

(** The references of the offcuts of one colour, in the order of the store. *)
Definition offcutRefs (store : list CutTilePiece.t) (color : string) : list nat :=
  filter
    (fun ref =>
       CutTilePiece.isOffcut (deref store ref)
       && String.eqb (Tile.color (CutTilePiece.originalTile (deref store ref))) color)
    (seq 0 (length store)).

(** The row of one colour: its offcuts in the order of [pieces.sort]. *)
Definition rowRefs (store : list CutTilePiece.t) (color : string) : list nat :=
  sort (byOrdinal store) (offcutRefs store color).

(** [maxHeightInRow]. *)
Definition rowHeight (store : list CutTilePiece.t) (color : string) : R :=
  fold_left Rmax
    (map (fun ref => Tile.height (CutTilePiece.originalTile (deref store ref)))
       (offcutRefs store color))
    0.

(** The distance of the [j]-th piece of a row from the start of the row:
    the widths of the tiles before it, each followed by the padding. *)
Definition xOffset (store : list CutTilePiece.t) (PADDING : R) (refs : list nat)
    (j : nat) : R :=
  sumR (map (fun ref => Tile.width (CutTilePiece.originalTile (deref store ref)) + PADDING)
          (firstn j refs)).

(** The distance of the [r]-th row from the first row: for each row above
    it, the tallest tile of that row plus twice the padding. *)
Definition yOffset (store : list CutTilePiece.t) (PADDING : R) (colors : list string)
    (r : nat) : R :=
  sumR (map (fun color => rowHeight store color + PADDING * 2) (firstn r colors)).

(** The ordinal of the tile of a piece, [0] when it does not parse. *)
Definition ordinalKey (store : list CutTilePiece.t) (ref : nat) : Z :=
  match ordinalOf (CutTilePiece.originalTile (deref store ref)) with
  | Some n => n
  | None => 0%Z
  end.

(** The ordinal of the tile of a piece parses, to an integer that a
    [number] holds exactly. *)
Definition safeOrdinal (piece : CutTilePiece.t) : bool :=
  match ordinalOf (CutTilePiece.originalTile piece) with
  | Some n => (Z.abs n <=? 2 ^ 53)%Z
  | None => false
  end.

(** The order within a row: by the ordinal of the tile, pieces of equal
    ordinal in the order of [allNewCutPieces]. *)
Definition rowOrder (store : list CutTilePiece.t) (a b : nat) : Prop :=
  (ordinalKey store a < ordinalKey store b)%Z
  \/ (ordinalKey store a = ordinalKey store b /\ (a <= b)%nat).

(** [currentX] when the [j]-th piece of a row is placed: from [minX], after
    each piece before it, [currentX += piece.originalTile.width + PADDING]. *)
Definition xAt (store : list CutTilePiece.t) (PADDING minX : R) (refs : list nat)
    (j : nat) : R :=
  fold_left
    (fun currentX ref =>
       currentX + (Tile.width (CutTilePiece.originalTile (deref store ref)) + PADDING))
    (firstn j refs) minX.

(** [currentY] when the [r]-th row is placed: from [startY], after each row
    before it, [currentY += maxHeightInRow + PADDING * 2]. *)
Definition yAt (store : list CutTilePiece.t) (PADDING startY : R) (colors : list string)
    (r : nat) : R :=
  fold_left
    (fun currentY color => currentY + (rowHeight store color + PADDING * 2))
    (firstn r colors) startY.

(** The piece that [handleCut] emits for a tile that no area covers. *)
Definition fullOffcut (tile : Tile.t) : CutTilePiece.t :=
  CutTilePiece.mk (stringOfZ (Tile.id tile) ++ "-offcut")%string tile
    [outerPoly tile] (Some []) (Tile.x tile) (Tile.y tile) true 100.


(** A tile of 500 x 500 at (2000, 0), outside the square room. *)
Definition farTile : Tile.t := Tile.mk 12 2000 0 500 500 "#ef4444" (Some "0-1"%string).

(** The offcut that [handleCut] emits for [farTile]. *)
Definition farOffcut : CutTilePiece.t :=
  CutTilePiece.mk "12-offcut" farTile [outerPoly farTile] (Some []) 2000 0 true 100.

(** Three tiles outside the square room, in the order of the tile list: a
    red one numbered 2, a blue one, and a narrower red one numbered 1. *)
Definition packedTiles : list Tile.t :=
  [ Tile.mk 21 2000 0 500 500 "#ef4444" (Some "0-2");
    Tile.mk 22 2500 0 500 300 "#3b82f6" (Some "6-1");
    Tile.mk 23 3000 0 400 500 "#ef4444" (Some "0-1") ]%string.

(** Their offcuts, as [handleCut] emits them. *)
Definition packedPieces : list CutTilePiece.t := map fullOffcut packedTiles.

(** Two red tiles with the same id, as two batches created within the same
    milliseconds give them ([id: time + i]). *)
Definition collidingTiles : list Tile.t :=
  [ Tile.mk 101 0 0 500 500 "#ef4444" (Some "0");
    Tile.mk 101 500 0 500 500 "#ef4444" (Some "0") ]%string.

(** Everything of a piece but its position. *)
Definition geometryOf (piece : CutTilePiece.t)
    : string * Tile.t * list (list Point.t) * option (list (list Point.t)) * bool * R :=
  (CutTilePiece.id piece, CutTilePiece.originalTile piece, CutTilePiece.polygons piece,
   CutTilePiece.cutSegments piece, CutTilePiece.isOffcut piece,
   CutTilePiece.wastePercentage piece).

(** *** Further explicit inputs *)

(** A right triangle, and a polygon of two points. *)
Definition triangle : list Point.t := [Point.mk 1 0 0; Point.mk 2 4 0; Point.mk 3 0 3].
Definition twoPoints : list Point.t := [Point.mk 1 0 0; Point.mk 2 4 0].

(** An area of two points that is still open. *)
Definition openArea : Area.t :=
  Area.mk 7 "Area 1" [Point.mk 1 0 0; Point.mk 2 1000 0] [] "#06b6d4" false None true.

(** One red tile of 500 x 500 at the origin. *)
Definition oneTile : list Tile.t := [Tile.mk 11 0 0 500 500 "#ef4444" (Some "0-1"%string)].

(** The cursor on the midpoint of the slanted wall. *)
Definition cursorOnMidpoint : Pos.t := Pos.mk 0 0.

(** * Further specification-level definitions *)

(** The sum of [f] over the consecutive pairs of the path [prev :: l]. *)
Fixpoint pathSumOf (f : Point.t -> Point.t -> R) (prev : Point.t) (l : list Point.t) : R :=
  match l with
  | [] => 0
  | cur :: rest => f prev cur + pathSumOf f cur rest
  end.

Definition chainOf (f : Point.t -> Point.t -> R) (path : list Point.t) : R :=
  match path with
  | [] => 0
  | p :: l => pathSumOf f p l
  end.

(** The loops [for (i = 0; i < n; i++)] over the edges
    [(polygon[i], polygon[(i + 1) % n])] that add [f] of the edge up. *)
Definition edgeSum (f : Point.t -> Point.t -> R) (polygon : list Point.t) : R :=
  fold_left
    (fun acc i => acc + f (at_ polygon i) (at_ polygon ((i + 1) mod length polygon)))
    (seq 0 (length polygon)) 0.

(** A linear inequality [A * x + B * y + C >= 0] on points: a half-plane. *)
Definition affine (A B C : R) (p : Point.t) : R := A * Point.x p + B * Point.y p + C.

(** The term that [isPolygonClockwise] adds up for the edge from [p1] to
    [p2], and its sum over the edges of a polygon. *)
Definition windingTerm (p1 p2 : Point.t) : R :=
  (Point.x p2 - Point.x p1) * (Point.y p2 + Point.y p1).

Definition windingSum (polygon : list Point.t) : R := edgeSum windingTerm polygon.

(** The test of the loop over the intersecting tiles: the tile counts when
    its polygon, clipped by the area, has an area above 1e-6. *)
Definition counted (areaPolygon : list Point.t) (tile : Tile.t) : bool :=
  gtb (polygonArea (clipPolygonByPolygon (tilePolygon tile) areaPolygon)) 1e-6.

(** A red and a blue tile inside the square room and a red tile far from
    it. *)
Definition threeColoured : list Tile.t :=
  [ Tile.mk 31 0 0 500 500 "#ef4444" (Some "0-1");
    Tile.mk 32 500 0 500 500 "#3b82f6" (Some "6-1");
    Tile.mk 33 2000 0 500 500 "#ef4444" (Some "0-2") ]%string.

(** A set of points that contains, with two points, the points of the
    segment between them (the ids of the points play no role). *)
Definition convexSet (Q : Point.t -> Prop) : Prop :=
  forall (p q : Point.t) (t : R) (i : Z),
    0 <= t <= 1 -> Q p -> Q q ->
    Q (Point.mk i (Point.x p + t * (Point.x q - Point.x p))
         (Point.y p + t * (Point.y q - Point.y p))).

(** The line through one edge of [polygon] has the four corners of [tile]
    strictly on its outer side. *)
Definition separatedFrom (tile : Tile.t) (polygon : list Point.t) : Prop :=
  exists i, (i < length polygon)%nat
    /\ forall p, In p (tilePolygon tile) ->
         crossProduct (at_ polygon ((i + 1) mod length polygon)) (at_ polygon i) p < 0.

(** Every vertex of [subjectPolygon] passes the inner-side test of
    [clipPolygonByPolygon] for every edge of [clipPolygon]. *)
Definition insideAll (subjectPolygon clipPolygon : list Point.t) : bool :=
  forallb (fun i => forallb (insideEdge clipPolygon i) subjectPolygon)
    (seq 0 (length clipPolygon)).

(** The 500 x 500 tile at (100, 100), inside the square room. *)
Definition innerTile : Tile.t := Tile.mk 13 100 100 500 500 "#ef4444" (Some "0-1"%string).

(** The areas that [handleCut] cuts against. *)
Definition cutAreasOf (areas : list Area.t) : list Area.t :=
  filter (fun a => Area.isClosed a && Area.isVisible a) areas.

(** The tile that [renumberTilesByColor] puts in the place of [t]: the entry
    of [renumberedMap] for the id of [t], or [t] itself. *)
Definition renumberedOf (tiles : list Tile.t) (t : Tile.t) : Tile.t :=
  let allRenumberedTiles :=
    fold_left (fun acc entry => acc ++ renumberGroup (fst entry) (snd entry))
      (fold_left groupStep tiles []) [] in
  let renumberedMap :=
    mapOfEntries Z.eqb (map (fun t => (Tile.id t, t)) allRenumberedTiles) in
  match assocGet Z.eqb renumberedMap (Tile.id t) with
  | Some t' => t'
  | None => t
  end.

(** A canvas with nothing drawn, tiles of 500 x 500 and only the grid snap
    switched on. *)
Definition gridCanvas : Canvas.t :=
  Canvas.mk None POINTER None None [] (TileDimensions.mk 500 500) 1
    (TrackingGuides.mk [] None) (SnapModes.mk true false false).

(** *** The undo history *)

(** The index points into the history. *)
Definition historyOk (s : App.t) : Prop :=
  (App.historyIndex s < length (App.history s))%nat.

(** The document on the screen is the entry that the index points to. *)
Definition synced (s : App.t) : Prop :=
  nth_error (App.history s) (App.historyIndex s)
  = Some (HistoryState.mk (App.areas s) (App.tiles s)).

(** An edit as the handlers of [App] perform it: [setAreas(newAreas)],
    [setTiles(newTiles)], then [recordHistory(newAreas, newTiles)]. *)
Definition edit (s : App.t) (newAreas : list Area.t) (newTiles : list Tile.t) : App.t :=
  recordHistory
    (App.mk newAreas newTiles (App.activeAreaIndex s) (App.history s)
       (App.historyIndex s) (App.isCutViewActive s))
    newAreas newTiles.

(** The state of [App] when it starts. *)
Definition initialApp : App.t :=
  App.mk [] [] None [HistoryState.mk [] []] 0 false.

(** *** The snap switches *)

(** A polar increment and a snap mode are never on together. *)
Definition exclusive (s : SnapState.t) : Prop :=
  isSome (SnapState.activeAngleSnap s) || isSome (SnapState.activeLengthSnap s) = true ->
  SnapState.snapModes s = SnapModes.mk false false false.

(** *** The painting batch *)

(** No tile of the batch intersects a tile that was added before it. *)
Definition disjointBatch (batch : list BatchTile.t) : Prop :=
  ForallOrdPairs (fun a b : BatchTile.t => rectanglesIntersect b a = false) batch.

(** The tile that [addTileToPaintBatch] builds for the cursor [pos]. *)
Definition paintedTile (c : Canvas.t) (activeColor : string) (pos : Pos.t) : BatchTile.t :=
  let width := TileDimensions.width (Canvas.tileDimensions c) in
  let height := TileDimensions.height (Canvas.tileDimensions c) in
  if SnapModes.grid (Canvas.snapModes c)
  then BatchTile.mk (floor (Pos.x pos / width) * width) (floor (Pos.y pos / height) * height)
         width height activeColor
  else BatchTile.mk (Pos.x pos) (Pos.y pos - height) width height activeColor.

(** A canvas with nothing drawn, tiles of 500 x 500 and every snap off. *)
Definition paintCanvas : Canvas.t :=
  Canvas.mk None POINTER None None [] (TileDimensions.mk 500 500) 1
    (TrackingGuides.mk [] None) (SnapModes.mk false false false).

(** Two tiles painted so far: at (0, 0) and, above a gap of 100, at
    (0, 600). *)
Definition paintedBatch : list BatchTile.t :=
  [ BatchTile.mk 0 0 500 500 "#ef4444"; BatchTile.mk 0 600 500 500 "#ef4444" ]%string.

(** A state of [App] in the cut view, with two entries in the history. *)
Definition cutViewApp : App.t :=
  App.mk [] oneTile None [HistoryState.mk [] []; HistoryState.mk [] oneTile] 1 true.

(** * Properties *)

(** ** Comparisons *)

Lemma ltb_true (a b : R) : a < b -> ltb a b = true.
Proof. intros H. unfold ltb. destruct (Rlt_dec a b); [reflexivity | contradiction]. Qed.

Lemma ltb_false (a b : R) : b <= a -> ltb a b = false.
Proof. intros H. unfold ltb. destruct (Rlt_dec a b); [lra | reflexivity]. Qed.

Lemma leb_true (a b : R) : a <= b -> leb a b = true.
Proof. intros H. unfold leb. destruct (Rle_dec a b); [reflexivity | contradiction]. Qed.

Lemma leb_false (a b : R) : b < a -> leb a b = false.
Proof. intros H. unfold leb. destruct (Rle_dec a b); [lra | reflexivity]. Qed.

Lemma eqb_true (a b : R) : a = b -> eqb a b = true.
Proof. intros H. unfold eqb. destruct (Req_dec_T a b); [reflexivity | contradiction]. Qed.

Lemma eqb_false (a b : R) : a <> b -> eqb a b = false.
Proof. intros H. unfold eqb. destruct (Req_dec_T a b); [contradiction | reflexivity]. Qed.

Lemma ltb_spec (a b : R) : ltb a b = true <-> a < b.
Proof. unfold ltb. destruct (Rlt_dec a b); split; intros; try easy. Qed.

Lemma leb_spec (a b : R) : leb a b = true <-> a <= b.
Proof. unfold leb. destruct (Rle_dec a b); split; intros; try easy. Qed.

Lemma ltb_nspec (a b : R) : ltb a b = false <-> b <= a.
Proof. unfold ltb. destruct (Rlt_dec a b); split; intros; try easy; lra. Qed.

Lemma leb_nspec (a b : R) : leb a b = false <-> b < a.
Proof. unfold leb. destruct (Rle_dec a b); split; intros; try easy; lra. Qed.

Lemma eqb_spec (a b : R) : eqb a b = true <-> a = b.
Proof. unfold eqb. destruct (Req_dec_T a b); split; intros; try easy. Qed.

(** Decide the comparisons of a goal between closed real expressions. *)
Ltac rdecide :=
  repeat match goal with
    | |- context [ltb ?a ?b] =>
        first [ rewrite (ltb_true a b) by lra | rewrite (ltb_false a b) by lra ]
    | |- context [leb ?a ?b] =>
        first [ rewrite (leb_true a b) by lra | rewrite (leb_false a b) by lra ]
    | |- context [eqb ?a ?b] =>
        first [ rewrite (eqb_true a b) by lra | rewrite (eqb_false a b) by lra ]
    end.

Lemma Rabs_ltb_false (d e : R) : e <= d \/ d <= - e -> ltb (Rabs d) e = false.
Proof.
  intros H. apply ltb_false. unfold Rabs. destruct (Rcase_abs d); lra.
Qed.

(** Close a goal on the absolute value of closed expressions. *)
Ltac rabs_lra := unfold Rabs; repeat destruct (Rcase_abs _); lra.

(** Equality of two explicit lists of points, coordinate by coordinate. *)
Ltac pts_eq :=
  repeat first
    [ reflexivity
    | apply (f_equal2 (@cons Point.t))
    | apply (f_equal3 Point.mk); [reflexivity | lra | lra] ].

(** *** One step of the clipping loop, by the sides of [S] and [E] *)

Lemma getLineIntersection_meet (p1 p2 p3 p4 : Pos.t) (X Y : R) :
  linesMeetAt p1 p2 p3 p4 X Y -> getLineIntersection p1 p2 p3 p4 = Some (Pos.mk X Y).
Proof.
  intros (Hd & -> & ->). unfold getLineIntersection.
  rewrite Rabs_ltb_false by exact Hd. reflexivity.
Qed.

Section ClipSteps.
Variables (c1 c2 S_ E : Point.t) (out : list Point.t).

Lemma clipStep_keep :
  0 <= crossProduct c2 c1 S_ -> 0 <= crossProduct c2 c1 E ->
  clipStep c1 c2 (S_, out) E = (E, out ++ [E]).
Proof.
  intros Hs He. unfold clipStep, geb. now rewrite !leb_true.
Qed.

Lemma clipStep_skip :
  crossProduct c2 c1 S_ < 0 -> crossProduct c2 c1 E < 0 ->
  clipStep c1 c2 (S_, out) E = (E, out).
Proof.
  intros Hs He. unfold clipStep, geb. now rewrite !leb_false.
Qed.

Lemma clipStep_exit (X Y : R) :
  0 <= crossProduct c2 c1 S_ -> crossProduct c2 c1 E < 0 ->
  linesMeetAt S_ E c1 c2 X Y ->
  clipStep c1 c2 (S_, out) E = (E, out ++ [Point.mk (-1) X Y]).
Proof.
  intros Hs He Hm. unfold clipStep, geb.
  rewrite leb_true, leb_false by assumption. cbn [andb negb].
  now rewrite (getLineIntersection_meet _ _ _ _ _ _ Hm).
Qed.

Lemma clipStep_enter (X Y : R) :
  crossProduct c2 c1 S_ < 0 -> 0 <= crossProduct c2 c1 E ->
  linesMeetAt S_ E c1 c2 X Y ->
  clipStep c1 c2 (S_, out) E = (E, (out ++ [Point.mk (-1) X Y]) ++ [E]).
Proof.
  intros Hs He Hm. unfold clipStep, geb.
  rewrite leb_false, leb_true by assumption. cbn [andb negb].
  now rewrite (getLineIntersection_meet _ _ _ _ _ _ Hm).
Qed.
End ClipSteps.

Ltac cross_side := unfold crossProduct; cbn [Point.x Point.y]; lra.

Ltac meet_side :=
  unfold linesMeetAt; cbn [Point.x Point.y Point.pos Pos.x Pos.y];
  split; [first [left; lra | right; lra] | split; reflexivity].

Ltac clip_step :=
  first
    [ rewrite clipStep_keep by cross_side
    | rewrite clipStep_skip by cross_side
    | erewrite clipStep_exit; [ | cross_side | cross_side | meet_side ]
    | erewrite clipStep_enter; [ | cross_side | cross_side | meet_side ] ];
  cbn [app].

(** Run the inner loop of the clipping on explicit points. *)
Ltac clip_edge :=
  unfold clipAgainstEdge, lastOf; cbn [last fold_left]; repeat clip_step; cbn [snd].

(** Run the outer loop: one clip edge after the other. *)
Ltac clip_loop :=
  repeat (cbn [clipLoop at_ nth length Nat.add Nat.modulo Nat.divmod fst snd Nat.sub];
          clip_edge).

(** The distance between explicit points. *)
Lemma sqrt_of_square (a b : R) : 0 <= b -> a = b * b -> sqrt a = b.
Proof. intros Hb ->. now apply sqrt_square. Qed.

Ltac distance_is :=
  unfold distance; simpl; apply sqrt_of_square; lra.

Lemma le_sqrt (a b : R) : 0 <= a -> a * a <= b -> a <= sqrt b.
Proof.
  intros Ha Hab. rewrite <- (sqrt_square a) by assumption.
  now apply sqrt_le_1_alt.
Qed.

(** Decide [Rmin] and [Rmax] between closed real expressions. *)
Ltac rminmax :=
  repeat match goal with
    | |- context [Rmin ?a ?b] =>
        first [ rewrite (Rmin_left a b) by lra | rewrite (Rmin_right a b) by lra ]
    | |- context [Rmax ?a ?b] =>
        first [ rewrite (Rmax_left a b) by lra | rewrite (Rmax_right a b) by lra ]
    end.

(** ** [polygonArea]: orientation independence *)

Lemma last_cons {A : Type} (l : list A) (a d : A) : last (a :: l) d = last l a.
Proof.
  revert a d. induction l as [|b r IH]; intros a d; [reflexivity|].
  change (last (a :: b :: r) d) with (last (b :: r) d).
  now rewrite !IH.
Qed.

Lemma last_rev {A : Type} (l : list A) (d : A) : last (rev l) d = hd d l.
Proof. destruct l as [|a l]; [reflexivity|]. cbn [rev hd]. apply last_last. Qed.

Lemma shoelaceTerm_antisym (p q : Point.t) : shoelaceTerm q p = - shoelaceTerm p q.
Proof. unfold shoelaceTerm. ring. Qed.

Lemma shoelace_fold (l : list Point.t) (prev : Point.t) (area : R) :
  snd (fold_left shoelaceStep l (prev, area)) = area + pathSum prev l.
Proof.
  revert prev area. induction l as [|cur rest IH]; intros prev area; simpl.
  - ring.
  - rewrite IH. unfold shoelaceTerm. ring.
Qed.

Lemma pathSum_snoc (l : list Point.t) (prev q : Point.t) :
  pathSum prev (l ++ [q]) = pathSum prev l + shoelaceTerm (last l prev) q.
Proof.
  revert prev. induction l as [|cur rest IH]; intros prev.
  - simpl. ring.
  - change ((cur :: rest) ++ [q]) with (cur :: (rest ++ [q])).
    cbn [pathSum]. rewrite IH, last_cons. ring.
Qed.

(** Walking a path backwards negates its sum. *)
Lemma chainSum_rev (path : list Point.t) : chainSum (rev path) = - chainSum path.
Proof.
  induction path as [|p l IH]; [simpl; ring|].
  cbn [rev]. destruct (rev l) as [|h m] eqn:Hrev.
  - assert (l = []) as -> by (rewrite <- (rev_involutive l), Hrev; reflexivity).
    simpl. ring.
  - cbn [app chainSum]. rewrite pathSum_snoc.
    change (pathSum h m) with (chainSum (h :: m)). rewrite IH.
    assert (Hl : l = rev m ++ [h]) by (rewrite <- (rev_involutive l), Hrev; reflexivity).
    assert (Hh : last m h = hd origin l).
    { rewrite <- last_cons with (d := origin), <- Hrev. apply last_rev. }
    rewrite Hh. destruct l as [|c l']; [destruct (rev m); discriminate|].
    cbn [hd chainSum pathSum]. rewrite (shoelaceTerm_antisym p c). ring.
Qed.

Lemma signedSum_rev (polygon : list Point.t) :
  signedSum (rev polygon) = - signedSum polygon.
Proof.
  unfold signedSum. rewrite !shoelace_fold. unfold lastOf. rewrite last_rev.
  destruct polygon as [|a l]; [simpl; ring|].
  cbn [hd]. rewrite last_cons.
  change (pathSum a (rev (a :: l))) with (chainSum (a :: rev (a :: l))).
  replace (a :: rev (a :: l)) with (rev ((a :: l) ++ [a]))
    by (rewrite rev_app_distr; reflexivity).
  rewrite chainSum_rev. cbn [app chainSum pathSum].
  rewrite pathSum_snoc. ring.
Qed.

(** *** The rounded loop on small integers *)

Lemma Zabs_mul_le (a b B : Z) :
  (Z.abs a <= B)%Z -> (Z.abs b <= B)%Z -> (Z.abs (a * b) <= B * B)%Z.
Proof.
  intros Ha Hb. rewrite Z.abs_mul.
  apply Z.mul_le_mono_nonneg; auto using Z.abs_nonneg.
Qed.

Section RoundedLoop.
Variables (rnd : R -> R) (B : Z).
Hypothesis rnd_exact : exactOnIntegers rnd.

Lemma rnd_integer (k : Z) : (Z.abs k <= 2 ^ 53)%Z -> rnd (IZR k) = IZR k.
Proof. intros H. now apply rnd_exact. Qed.

Lemma rnd_half (k : Z) : (Z.abs k <= 2 ^ 53)%Z -> rnd (IZR k / 2) = IZR k / 2.
Proof. intros H. now apply rnd_exact. Qed.

(** With integer coordinates and an integer [area], as long as the bound
    [2 ^ 53] is not exceeded, every rounding of the loop is the identity:
    the loop computes what the exact loop computes, an integer. *)
Lemma shoelaceStep_exact (l : list Point.t) :
  forall (pj : Point.t) (s : Z),
    integerPoint B pj -> Forall (integerPoint B) l ->
    (Z.abs s + 2 * Z.of_nat (length l) * (B * B) <= 2 ^ 53)%Z ->
    exists s' : Z,
      snd (fold_left (Rounded.shoelaceStep rnd) l (pj, IZR s)) = IZR s'
      /\ snd (fold_left shoelaceStep l (pj, IZR s)) = IZR s'
      /\ (Z.abs s' <= Z.abs s + 2 * Z.of_nat (length l) * (B * B))%Z.
Proof.
  induction l as [|pi rest IH]; intros pj s Hpj Hl Hbound.
  - exists s. cbn [fold_left snd length]. repeat split; lia.
  - inversion Hl as [|? ? Hpi Hrest]; subst.
    destruct Hpj as (aj & bj & Hxj & Hyj & Haj & Hbj).
    destruct (Hpi) as (ai & bi & Hxi & Hyi & Hai & Hbi).
    cbn [length] in Hbound. rewrite Nat2Z.inj_succ in Hbound.
    pose proof (Zabs_mul_le ai bj B Hai Hbj) as H1.
    pose proof (Zabs_mul_le aj bi B Haj Hbi) as H2.
    assert (HB : (0 <= B * B)%Z) by (pose proof (Z.abs_nonneg (ai * bj)); lia).
    assert (Hn : (0 <= Z.of_nat (length rest) * (B * B))%Z)
      by (apply Z.mul_nonneg_nonneg; lia).
    cbn [fold_left]. unfold Rounded.shoelaceStep at 2. unfold shoelaceStep at 2.
    rewrite Hxi, Hyi, Hxj, Hyj, <- !mult_IZR.
    rewrite (rnd_integer (ai * bj)%Z) by lia.
    rewrite (rnd_integer (aj * bi)%Z) by lia.
    rewrite <- plus_IZR.
    rewrite (rnd_integer (s + ai * bj)%Z) by lia.
    rewrite <- minus_IZR.
    rewrite (rnd_integer (s + ai * bj - aj * bi)%Z) by lia.
    destruct (IH pi (s + ai * bj - aj * bi)%Z Hpi Hrest) as (s' & Hr & He & Hs'); [lia|].
    exists s'. cbn [length]. rewrite Nat2Z.inj_succ. repeat split; try assumption. lia.
Qed.

Lemma polygonArea_exact (P : list Point.t) :
  Forall (integerPoint B) P ->
  (2 * Z.of_nat (length P) * (B * B) <= 2 ^ 53)%Z ->
  Rounded.polygonArea rnd P = polygonArea P.
Proof.
  intros HP Hbound. unfold Rounded.polygonArea, polygonArea.
  destruct (length P <? 3)%nat eqn:Hlen; [reflexivity|].
  assert (Hlast : integerPoint B (lastOf P)).
  { destruct P as [|a l]; [discriminate|].
    destruct (exists_last (l := a :: l)) as (l0 & z & Hz); [discriminate|].
    unfold lastOf. rewrite Hz, last_last. rewrite Hz in HP.
    apply Forall_app in HP. destruct HP as [_ HP]. now inversion HP. }
  destruct (shoelaceStep_exact P (lastOf P) 0 Hlast HP) as (s' & Hr & He & Hs').
  { cbn [Z.abs]. lia. }
  cbv zeta. rewrite Hr, He. rewrite (rnd_half s'); [reflexivity|].
  cbn [Z.abs] in Hs'. lia.
Qed.
End RoundedLoop.

Lemma polygonArea_rev (P : list Point.t) : polygonArea (rev P) = polygonArea P.
Proof.
  unfold polygonArea. rewrite length_rev.
  destruct (length P <? 3)%nat; [reflexivity|].
  fold (signedSum P). fold (signedSum (rev P)). rewrite signedSum_rev.
  replace (- signedSum P / 2) with (- (signedSum P / 2)) by lra.
  now rewrite Rabs_Ropp.
Qed.

Lemma Int_part_IZR (k : Z) : Int_part (IZR k) = k.
Proof.
  unfold Int_part. rewrite <- (up_tech (IZR k) k); [lia | lra |].
  rewrite plus_IZR. lra.
Qed.

Lemma halfRound_exact : exactOnIntegers halfRound.
Proof.
  intros k _. unfold halfRound. split.
  - replace (2 * IZR k) with (IZR (2 * k)) by (rewrite mult_IZR; reflexivity).
    rewrite Int_part_IZR, mult_IZR. field.
  - replace (2 * (IZR k / 2)) with (IZR k) by field.
    now rewrite Int_part_IZR.
Qed.

(** C9 (amended). With the operations of doubles ([rnd] after every
    operation, exact on the integers up to [2 ^ 53] and on their halves):
    for a polygon of [n] points whose coordinates are integers of absolute
    value at most [B], with [2 * n * B * B <= 2 ^ 53], [polygonArea]
    computes the exact value of the shoelace formula, and the same value
    for the reversed polygon; and [polygonArea] is [0] on every polygon of
    fewer than three points, whatever the rounding, and so on doubles. *)
Theorem polygonArea_orientation_independent (rnd : R -> R) :
  (forall (P : list Point.t) (B : Z),
     exactOnIntegers rnd ->
     Forall (integerPoint B) P ->
     (2 * Z.of_nat (length P) * (B * B) <= 2 ^ 53)%Z ->
     Rounded.polygonArea rnd P = Rabs (signedSum P / 2)
     /\ Rounded.polygonArea rnd P = Rounded.polygonArea rnd (rev P))
  /\ (forall P : list Point.t, (length P < 3)%nat -> Rounded.polygonArea rnd P = 0)
  /\ (forall P : list Double.Point.t,
        (length P < 3)%nat -> Double.polygonArea P = PrimFloat.zero).
Proof.
  split; [|split].
  - intros P B Hrnd HP Hbound.
    assert (H : Rounded.polygonArea rnd P = polygonArea P)
      by now apply (polygonArea_exact rnd B).
    destruct (Nat.ltb_spec (length P) 3) as [Hlt | Hge].
    + (* both sides are 0 below three points only when the sum is 0 *)
      split.
      * rewrite H. unfold polygonArea.
        destruct (Nat.ltb_spec (length P) 3) as [_ | Hge]; [|lia].
        destruct P as [|a [|b [|c l]]]; cbn [length] in Hlt; try lia;
          unfold signedSum, lastOf; simpl.
        -- replace (0 / 2) with 0 by field. now rewrite Rabs_R0.
        -- replace ((0 + Point.x a * Point.y a - Point.x a * Point.y a) / 2) with 0
             by field.
           now rewrite Rabs_R0.
        -- replace ((0 + Point.x a * Point.y b - Point.x b * Point.y a
                     + Point.x b * Point.y a - Point.x a * Point.y b) / 2) with 0
             by field.
           now rewrite Rabs_R0.
      * unfold Rounded.polygonArea. rewrite length_rev.
        destruct (Nat.ltb_spec (length P) 3) as [_ | Hge]; [reflexivity | lia].
    + split.
      * rewrite H. unfold polygonArea.
        destruct (Nat.ltb_spec (length P) 3) as [Hlt | _]; [lia | reflexivity].
      * rewrite H. rewrite (polygonArea_exact rnd B Hrnd (rev P)).
        -- symmetry. apply polygonArea_rev.
        -- now apply Forall_rev.
        -- now rewrite length_rev.
  - intros P H. unfold Rounded.polygonArea.
    destruct (Nat.ltb_spec (length P) 3); [reflexivity | lia].
  - intros P H. unfold Double.polygonArea.
    destruct (Nat.ltb_spec (length P) 3); [reflexivity | lia].
Qed.

(** The right triangle (0,0), (4,0), (0,3), with the rounding down to
    halves. *)
Lemma polygonArea_orientation_independent_witness :
  Rounded.polygonArea halfRound triangle = Rabs (signedSum triangle / 2)
  /\ Rounded.polygonArea halfRound triangle = Rounded.polygonArea halfRound (rev triangle)
  /\ Rounded.polygonArea halfRound twoPoints = 0.
Proof.
  destruct (polygonArea_orientation_independent halfRound) as (H3 & H0 & _).
  destruct (H3 triangle 4%Z) as [Hexact Hrev].
  - exact halfRound_exact.
  - repeat (apply Forall_cons;
            [first [ exists 0%Z, 0%Z; cbn; repeat split; try reflexivity; lia
                   | exists 4%Z, 0%Z; cbn; repeat split; try reflexivity; lia
                   | exists 0%Z, 3%Z; cbn; repeat split; try reflexivity; lia ]|]).
    apply Forall_nil.
  - cbn. lia.
  - split; [exact Hexact|]. split; [exact Hrev|]. apply H0. simpl. lia.
Defined.

(** C9 (counterexample). In doubles the triangle (0.1, 0.1), (0.1, 0.3),
    (0.3, 0.3) has the area 0.020000000000000004, and the reversed
    triangle the area 0.02: the two sums round differently. *)
Lemma polygonArea_reversal_rounds :
  Double.polygonArea tenthTriangle = Numeral.fiftiethUp
  /\ Double.polygonArea (rev tenthTriangle) = Numeral.fiftieth
  /\ Double.polygonArea tenthTriangle <> Double.polygonArea (rev tenthTriangle).
Proof.
  assert (H1 : Double.polygonArea tenthTriangle = Numeral.fiftiethUp)
    by (vm_compute; reflexivity).
  assert (H2 : Double.polygonArea (rev tenthTriangle) = Numeral.fiftieth)
    by (vm_compute; reflexivity).
  split; [exact H1|]. split; [exact H2|].
  rewrite H1, H2. intros H.
  apply (f_equal (fun v => PrimFloat.eqb v Numeral.fiftieth)) in H.
  vm_compute in H. discriminate.
Qed.

(** In doubles the right triangle (0,0), (4,0), (0,3) has the area 6 in
    both directions. *)
Lemma polygonArea_wholeTriangle :
  Double.polygonArea wholeTriangle = Whole.six
  /\ Double.polygonArea (rev wholeTriangle) = Whole.six.
Proof. split; vm_compute; reflexivity. Qed.

(** In doubles, each of the 15625 triangles whose coordinates are among
    -3000000, -1, 0, 2 and 4000000 has the same area in both directions. *)
Lemma polygonArea_whole_triangles :
  forallb
    (fun P => PrimFloat.eqb (Double.polygonArea P) (Double.polygonArea (rev P)))
    (trianglesOver [-3000000; -1; 0; 2; 4000000]%Z)
  = true.
Proof. vm_compute. reflexivity. Qed.

(** ** [calculateStatsForArea] *)

(** C4. For every area that is not closed or has fewer than three points,
    [calculateStatsForArea] returns the area with [calculationResult] equal
    to [null], whatever the tiles and the tile dimensions. *)
Theorem calculateStatsForArea_null (area : Area.t) (allTiles : list Tile.t)
    (tileDims : TileDimensions.t) :
  Area.isClosed area = false \/ (length (Area.points area) < 3)%nat ->
  calculateStatsForArea area allTiles tileDims
  = Area.mk (Area.id area) (Area.name area) (Area.points area) (Area.walls area)
      (Area.color area) (Area.isClosed area) None (Area.isVisible area).
Proof.
  intros H. unfold calculateStatsForArea.
  assert (Hc : negb (Area.isClosed area) || (length (Area.points area) <? 3)%nat = true).
  { destruct H as [H | H].
    - rewrite H. reflexivity.
    - apply orb_true_iff. right. now apply Nat.ltb_lt. }
  rewrite Hc. reflexivity.
Qed.

Lemma calculateStatsForArea_null_witness :
  Area.calculationResult
    (calculateStatsForArea openArea oneTile (TileDimensions.mk 500 500)) = None.
Proof.
  rewrite (calculateStatsForArea_null openArea oneTile (TileDimensions.mk 500 500)).
  - reflexivity.
  - left. reflexivity.
Defined.

(** C5. For every closed area with at least three points, if the nominal
    tile area [width * height] is [0], [calculateStatsForArea] returns a
    result that is not [null], whose [tileCount], [colorCount] and [total]
    are [0], whose per-colour map is empty and whose [polygonArea] and
    [perimeter] are those of the normalised polygon.  The function is total:
    no division takes place on this path. *)
Theorem calculateStatsForArea_zero_tile_area (area : Area.t) (allTiles : list Tile.t)
    (tileDims : TileDimensions.t) :
  Area.isClosed area = true ->
  (3 <= length (Area.points area))%nat ->
  TileDimensions.width tileDims * TileDimensions.height tileDims = 0 ->
  Area.calculationResult (calculateStatsForArea area allTiles tileDims)
  = Some (CalculationResult.mk 0 0 [] 0
            (polygonArea (normalized (Area.points area)))
            (polygonPerimeter (normalized (Area.points area)))).
Proof.
  intros Hclosed Hlen Hzero. unfold calculateStatsForArea.
  rewrite Hclosed. cbn [negb orb].
  destruct (Nat.ltb_spec (length (Area.points area)) 3) as [Hlt | _]; [lia|].
  rewrite (eqb_true _ _ Hzero). reflexivity.
Qed.

Lemma calculateStatsForArea_zero_tile_area_witness :
  Area.calculationResult
    (calculateStatsForArea squareArea oneTile (TileDimensions.mk 0 500))
  = Some (CalculationResult.mk 0 0 [] 0
            (polygonArea (normalized squareRoom))
            (polygonPerimeter (normalized squareRoom))).
Proof.
  apply (calculateStatsForArea_zero_tile_area squareArea oneTile (TileDimensions.mk 0 500)).
  - reflexivity.
  - simpl. lia.
  - simpl. lra.
Defined.

(** C10. [calculateStatsForArea] leaves every field of the input area other
    than [calculationResult] unchanged: the points (same points, same order,
    also when the stored polygon is clockwise and a reversed copy is clipped
    against), the id, the name, the walls, the colour and the two flags. *)
Theorem calculateStatsForArea_frame (area : Area.t) (allTiles : list Tile.t)
    (tileDims : TileDimensions.t) :
  let result := calculateStatsForArea area allTiles tileDims in
  Area.points result = Area.points area
  /\ Area.id result = Area.id area
  /\ Area.name result = Area.name area
  /\ Area.walls result = Area.walls area
  /\ Area.color result = Area.color area
  /\ Area.isClosed result = Area.isClosed area
  /\ Area.isVisible result = Area.isVisible area.
Proof.
  cbv zeta. unfold calculateStatsForArea.
  destruct (negb (Area.isClosed area) || (length (Area.points area) <? 3)%nat).
  - repeat split.
  - destruct (eqb _ 0).
    + repeat split.
    + destruct (fold_left _ _ _) as [total byColor]. repeat split.
Qed.

(** ** [clipPolygonByPolygon]: a polygon clipped by itself *)

(** Clipping against an edge that has the whole input on its inner side
    returns the input. *)
Lemma clipStep_fold_inside (c1 c2 : Point.t) (l : list Point.t) :
  forall (S_ : Point.t) (out : list Point.t),
    0 <= crossProduct c2 c1 S_ ->
    (forall p, In p l -> 0 <= crossProduct c2 c1 p) ->
    snd (fold_left (clipStep c1 c2) l (S_, out)) = out ++ l.
Proof.
  induction l as [|E rest IH]; intros S_ out HS Hall.
  - simpl. now rewrite app_nil_r.
  - cbn [fold_left]. rewrite clipStep_keep; [|assumption|apply Hall; now left].
    rewrite IH.
    + now rewrite <- app_assoc.
    + apply Hall. now left.
    + intros p Hp. apply Hall. now right.
Qed.

Lemma clipAgainstEdge_inside (c1 c2 : Point.t) (l : list Point.t) :
  (forall p, In p l -> 0 <= crossProduct c2 c1 p) ->
  clipAgainstEdge c1 c2 l = l.
Proof.
  intros Hall. unfold clipAgainstEdge.
  destruct l as [|a l']; [reflexivity|].
  rewrite clipStep_fold_inside; [reflexivity| |assumption].
  apply Hall. unfold lastOf.
  destruct (exists_last (l := a :: l')) as (l0 & z & Hz); [discriminate|].
  rewrite Hz, last_last. apply in_or_app. right. now left.
Qed.

Lemma clipLoop_inside (clipPolygon : list Point.t) (indices : list nat)
    (l : list Point.t) :
  (forall i, In i indices -> forall p, In p l -> insideEdge clipPolygon i p = true) ->
  clipLoop clipPolygon indices l = l.
Proof.
  induction indices as [|i rest IH]; intros Hall; [reflexivity|].
  cbn [clipLoop]. destruct l as [|a l']; [reflexivity|].
  rewrite clipAgainstEdge_inside.
  - apply IH. intros j Hj p Hp. apply Hall; [now right | assumption].
  - intros p Hp. specialize (Hall i (or_introl eq_refl) p Hp).
    unfold insideEdge, geb in Hall. now apply leb_spec in Hall.
Qed.

(** C6 (amended). For every polygon [P] that is convex and wound
    counter-clockwise (each vertex is on the inner side of each edge, by
    the sign test of the clipper), [clipPolygonByPolygon P P] is [P] itself;
    its area therefore equals [polygonArea P], within [1e-6]. *)
Theorem clipPolygonByPolygon_self_convex (P : list Point.t) :
  convexCounterClockwise P = true ->
  clipPolygonByPolygon P P = P
  /\ Rabs (polygonArea (clipPolygonByPolygon P P) - polygonArea P) <= 1e-6.
Proof.
  intros Hconv.
  assert (Hclip : clipPolygonByPolygon P P = P).
  { unfold clipPolygonByPolygon. apply clipLoop_inside.
    intros i Hi p Hp. unfold convexCounterClockwise in Hconv.
    rewrite forallb_forall in Hconv. specialize (Hconv i Hi).
    rewrite forallb_forall in Hconv. now apply Hconv. }
  split; [exact Hclip|].
  rewrite Hclip. replace (polygonArea P - polygonArea P) with 0 by ring.
  rewrite Rabs_R0. lra.
Qed.

Lemma squareRoom_convex : convexCounterClockwise squareRoom = true.
Proof.
  unfold convexCounterClockwise, squareRoom, insideEdge, at_, crossProduct, geb.
  simpl. rdecide. reflexivity.
Qed.

Lemma clipPolygonByPolygon_self_convex_witness :
  clipPolygonByPolygon squareRoom squareRoom = squareRoom
  /\ Rabs (polygonArea (clipPolygonByPolygon squareRoom squareRoom)
           - polygonArea squareRoom) <= 1e-6.
Proof.
  apply (clipPolygonByPolygon_self_convex squareRoom). exact squareRoom_convex.
Defined.

(** The L-shaped room clipped by itself: the edge from (2,1) to (1,1) cuts
    everything above [y = 1], the edge from (1,1) to (1,2) everything right
    of [x = 1]; the unit square is left. *)
Lemma clip_Lshape_self :
  clipPolygonByPolygon Lshape Lshape
  = [ Point.mk (-1) 0 1; Point.mk 1 0 0; Point.mk (-1) 1 0;
      Point.mk (-1) 1 1; Point.mk 4 1 1; Point.mk (-1) 1 1 ].
Proof.
  unfold clipPolygonByPolygon, Lshape. cbn [length seq].
  clip_loop. pts_eq.
Qed.

Lemma polygonArea_Lshape : polygonArea Lshape = 3.
Proof. unfold polygonArea, Lshape, lastOf. simpl. rabs_lra. Qed.

(** C6 (counterexample). The L-shaped room is a simple polygon of six
    points, wound counter-clockwise, of area 3; clipped by itself it has
    area 1. *)
Lemma clipPolygonByPolygon_self_Lshape :
  (3 <= length Lshape)%nat
  /\ isPolygonClockwise Lshape = false
  /\ polygonArea Lshape = 3
  /\ polygonArea (clipPolygonByPolygon Lshape Lshape) = 1
  /\ ~ Rabs (polygonArea (clipPolygonByPolygon Lshape Lshape) - polygonArea Lshape)
       <= 1e-6.
Proof.
  assert (H1 : polygonArea (clipPolygonByPolygon Lshape Lshape) = 1).
  { rewrite clip_Lshape_self. unfold polygonArea, lastOf. simpl. rabs_lra. }
  repeat split.
  - simpl. lia.
  - unfold isPolygonClockwise, Lshape, at_, gtb. simpl. rdecide. reflexivity.
  - exact polygonArea_Lshape.
  - exact H1.
  - rewrite H1, polygonArea_Lshape. intros H. revert H. rabs_lra.
Qed.

(** ** [handleCut]: the pieces of one tile *)

(** The retained candidates are the clipped polygons of area above [1e-6],
    in the order of the areas. *)
Lemma inPiecePolygonsOf_filter (correctedAreas : list Area.t) (tile : Tile.t) :
  inPiecePolygonsOf correctedAreas tile
  = filter (fun poly => gtb (polygonArea poly) 1e-6)
      (map (fun area => clipPolygonByPolygon (tilePolygon tile) (Area.points area))
         correctedAreas).
Proof.
  unfold inPiecePolygonsOf.
  set (f := fun (inPiecePolygons : list (list Point.t)) (area : Area.t) => _).
  assert (H : forall l acc,
             fold_left f l acc
             = acc ++ filter (fun poly => gtb (polygonArea poly) 1e-6)
                        (map (fun area =>
                                clipPolygonByPolygon (tilePolygon tile) (Area.points area))
                           l)).
  { induction l as [|a l IH]; intros acc.
    - simpl. now rewrite app_nil_r.
    - cbn [fold_left map filter]. rewrite IH. unfold f.
      destruct (gtb _ _); [now rewrite <- app_assoc | reflexivity]. }
  apply H.
Qed.

Lemma mapiFrom_length {A B : Type} (f : A -> nat -> B) (l : list A) (i : nat) :
  length (mapiFrom f i l) = length l.
Proof.
  revert i. induction l as [|a l IH]; intros i; [reflexivity|].
  cbn [mapiFrom length]. now rewrite IH.
Qed.

Lemma mapiFrom_Forall {A B : Type} (f : A -> nat -> B) (P : B -> Prop) (l : list A) :
  (forall a i, P (f a i)) -> forall i, Forall P (mapiFrom f i l).
Proof.
  intros H. induction l as [|a l IH]; intros i; constructor; [apply H | apply IH].
Qed.

Lemma mapiFrom_nth_error {A B : Type} (f : A -> nat -> B) (l : list A) (i0 i : nat)
    (a : A) :
  nth_error l i = Some a -> nth_error (mapiFrom f i0 l) i = Some (f a (i0 + i)%nat).
Proof.
  revert i0 i. induction l as [|b l IH]; intros i0 [|i] H; try discriminate.
  - injection H as ->. cbn [mapiFrom nth_error]. now rewrite Nat.add_0_r.
  - cbn [mapiFrom nth_error]. rewrite (IH (S i0) i H). do 2 f_equal. lia.
Qed.

(** C1. The pieces emitted for one tile.  With [candidates] the clipped
    in-piece polygons of the tile, [insideArea] the sum of their areas and
    [nominalArea = width * height]:
    - if [insideArea < 1e-6], exactly one piece is emitted, an offcut whose
      only polygon is the full tile rectangle (0,0)-(width,height) in local
      coordinates, without holes, without cut segments, of
      [wastePercentage = 100];
    - otherwise one in-piece ([isOffcut = false], [wastePercentage = 0]) is
      emitted per candidate, its polygon the candidate with every point
      [(x, y)] replaced by [(x - tile.x, y - tile.y)], followed, if
      [nominalArea - insideArea > 1e-6], by exactly one offcut whose outer
      boundary is the full tile rectangle, whose holes are the candidates
      moved in the same way and whose [wastePercentage] is
      [(nominalArea - insideArea) / nominalArea * 100]; no offcut is emitted
      if [nominalArea - insideArea <= 1e-6]. *)
Theorem cutTile_pieces (correctedAreas : list Area.t) (tile : Tile.t) :
  let candidates := inPiecePolygonsOf correctedAreas tile in
  let insideArea := totalInPieceAreaOf candidates in
  let nominalArea := Tile.width tile * Tile.height tile in
  let inPieces := mapi (inPieceOf tile) candidates in
  (insideArea < 1e-6 ->
   exists offcut,
     cutTile correctedAreas tile = [offcut]
     /\ CutTilePiece.isOffcut offcut = true
     /\ CutTilePiece.polygons offcut = [fullRectangle tile]
     /\ CutTilePiece.cutSegments offcut = Some []
     /\ CutTilePiece.wastePercentage offcut = 100)
  /\ (1e-6 <= insideArea -> nominalArea - insideArea > 1e-6 ->
      exists offcut,
        cutTile correctedAreas tile = inPieces ++ [offcut]
        /\ CutTilePiece.isOffcut offcut = true
        /\ CutTilePiece.polygons offcut
           = fullRectangle tile :: map (map (localPoint tile)) candidates
        /\ CutTilePiece.wastePercentage offcut
           = (nominalArea - insideArea) / nominalArea * 100)
  /\ (1e-6 <= insideArea -> nominalArea - insideArea <= 1e-6 ->
      cutTile correctedAreas tile = inPieces)
  /\ length inPieces = length candidates
  /\ (forall i poly,
        nth_error candidates i = Some poly ->
        exists piece localPoly,
          nth_error inPieces i = Some piece
          /\ CutTilePiece.isOffcut piece = false
          /\ CutTilePiece.wastePercentage piece = 0
          /\ CutTilePiece.polygons piece = [localPoly]
          /\ length localPoly = length poly
          /\ forall k p,
               nth_error poly k = Some p ->
               exists q,
                 nth_error localPoly k = Some q
                 /\ Point.x q = Point.x p - Tile.x tile
                 /\ Point.y q = Point.y p - Tile.y tile).
Proof.
  cbv zeta. repeat split.
  - intros Hin. eexists. unfold cutTile. rewrite (ltb_true _ _ Hin).
    split; [reflexivity|]. repeat split.
  - intros Hin Hout. eexists. unfold cutTile.
    rewrite (ltb_false _ _ Hin). unfold gtb.
    rewrite (ltb_true 1e-6) by lra.
    rewrite (ltb_true 0) by lra.
    split; [reflexivity|]. repeat split.
  - intros Hin Hout. unfold cutTile.
    rewrite (ltb_false _ _ Hin). unfold gtb.
    rewrite (ltb_false 1e-6) by lra.
    now rewrite app_nil_r.
  - apply mapiFrom_length.
  - intros i poly Hpoly.
    exists (inPieceOf tile poly i), (map (localPoint tile) poly).
    split; [|repeat split].
    + unfold mapi. now rewrite (mapiFrom_nth_error _ _ 0 i poly Hpoly).
    + apply length_map.
    + intros k p Hp. exists (localPoint tile p).
      split; [now apply map_nth_error | split; reflexivity].
Qed.

(** The corner tile against the square room: one candidate, the square
    (800,800)-(1000,1000). *)
Lemma clip_cornerTile :
  clipPolygonByPolygon (tilePolygon cornerTile) squareRoom = cornerSquare.
Proof.
  unfold clipPolygonByPolygon, tilePolygon, rectPolygon, cornerTile, squareRoom.
  cbn [length seq Tile.x Tile.y Tile.width Tile.height].
  clip_loop. pts_eq.
Qed.

Lemma polygonArea_cornerSquare : polygonArea cornerSquare = 40000.
Proof. unfold polygonArea, cornerSquare, lastOf. simpl. rabs_lra. Qed.

Lemma candidates_cornerTile :
  inPiecePolygonsOf [squareArea] cornerTile = [cornerSquare].
Proof.
  unfold inPiecePolygonsOf. cbn [fold_left squareArea Area.points].
  rewrite clip_cornerTile, polygonArea_cornerSquare.
  unfold gtb. rewrite ltb_true by lra. reflexivity.
Qed.

Lemma insideArea_cornerTile :
  totalInPieceAreaOf (inPiecePolygonsOf [squareArea] cornerTile) = 40000.
Proof.
  rewrite candidates_cornerTile. unfold totalInPieceAreaOf. cbn [fold_left].
  rewrite polygonArea_cornerSquare. lra.
Qed.

Lemma cornerSquare_local : map (localPoint cornerTile) cornerSquare = cornerSquareLocal.
Proof. unfold cornerSquare, cornerSquareLocal, localPoint. simpl. pts_eq. Qed.

(** Scenario 3: the corner tile (800,800)-(1300,1300) against the square
    room (0,0)-(1000,1000) gives exactly one in-piece, the square
    (0,0)-(200,200) in the coordinates of the tile, of area 40000, and one
    offcut, the rectangle (0,0)-(500,500) with that square as its hole, of
    waste 84 per cent. *)
Lemma cutTile_pieces_witness :
  exists offcut,
    cutTile [squareArea] cornerTile
    = [ CutTilePiece.mk "11-in-0" cornerTile [cornerSquareLocal] None 800 800 false 0;
        offcut ]
    /\ polygonArea cornerSquareLocal = 40000
    /\ CutTilePiece.isOffcut offcut = true
    /\ CutTilePiece.polygons offcut
       = [ [ Point.mk (-1) 0 0; Point.mk (-1) 500 0;
             Point.mk (-1) 500 500; Point.mk (-1) 0 500 ];
           cornerSquareLocal ]
    /\ CutTilePiece.wastePercentage offcut = 84.
Proof.
  destruct (cutTile_pieces [squareArea] cornerTile) as (_ & H & _).
  destruct H as (offcut & Hcut & Hoff & Hpolys & Hwaste).
  - rewrite insideArea_cornerTile. lra.
  - rewrite insideArea_cornerTile. simpl. lra.
  - rewrite candidates_cornerTile in Hcut, Hpolys.
    cbn [mapi mapiFrom app map] in Hcut, Hpolys.
    unfold inPieceOf in Hcut. rewrite cornerSquare_local in Hcut, Hpolys.
    exists offcut. split; [exact Hcut|]. split.
    + unfold polygonArea, cornerSquareLocal, lastOf. simpl. rabs_lra.
    + split; [exact Hoff|]. split; [exact Hpolys|].
      rewrite Hwaste, insideArea_cornerTile. simpl. lra.
Defined.

(** ** [getSnappedPos]: priorities of the ordinary resolution *)

Section Candidates.
Variables (pos : Pos.t) (snapRadius : R).

Lemma vertexStep_candidate (points : list Point.t) (best : BestSnap.t) :
  fold_left (vertexStep pos snapRadius) points best
  = fold_left (candidateStep pos snapRadius vertex) (map Point.pos points) best.
Proof.
  revert best. induction points as [|p l IH]; intros best; [reflexivity|].
  cbn [map fold_left]. apply IH.
Qed.

Lemma midpointStep_candidate (walls : list (Wall.t * list Point.t)) (best : BestSnap.t) :
  fold_left (midpointStep pos snapRadius) walls best
  = fold_left (candidateStep pos snapRadius midpoint) (flat_map midpointOf walls) best.
Proof.
  revert best. induction walls as [|[wall points] l IH]; intros best; [reflexivity|].
  cbn [flat_map fold_left]. rewrite fold_left_app, IH. f_equal.
  unfold midpointStep, midpointOf.
  destruct (findPoint points (Wall.p1Id wall)); [|reflexivity].
  destruct (findPoint points (Wall.p2Id wall)); reflexivity.
Qed.

(** No candidate strictly closer than the recorded distance: no change. *)
Lemma candidates_unchanged (type : SnapType) (qs : list Pos.t) (best : BestSnap.t) (d0 : R) :
  BestSnap.dist best = Some d0 ->
  (forall q, In q qs -> d0 <= distance pos q) ->
  fold_left (candidateStep pos snapRadius type) qs best = best.
Proof.
  intros Hd. induction qs as [|q l IH]; intros Hall; [reflexivity|].
  cbn [fold_left]. unfold candidateStep at 2, closerThan. rewrite Hd.
  rewrite (ltb_false (distance pos q) d0) by (apply Hall; now left).
  rewrite andb_false_r. apply IH. intros q' Hq'. apply Hall. now right.
Qed.

(** The loop either keeps [best] or ends on one of its candidates, within
    the radius and strictly below the distance it started from. *)
Lemma candidates_result (type : SnapType) (qs : list Pos.t) (best : BestSnap.t) :
  let best' := fold_left (candidateStep pos snapRadius type) qs best in
  best' = best
  \/ (BestSnap.type best' = type
      /\ In (BestSnap.pos best') qs
      /\ BestSnap.dist best' = Some (distance pos (BestSnap.pos best'))
      /\ distance pos (BestSnap.pos best') < snapRadius
      /\ belowDist (distance pos (BestSnap.pos best')) (BestSnap.dist best)).
Proof.
  cbv zeta. revert best. induction qs as [|q l IH]; intros best; [now left|].
  cbn [fold_left]. destruct (IH (candidateStep pos snapRadius type best q)) as [H | H].
  - rewrite H. unfold candidateStep.
    destruct (ltb (distance pos q) snapRadius) eqn:Hr; [|now left].
    destruct (closerThan (distance pos q) best) eqn:Hc; [|now left].
    right. cbn [andb BestSnap.type BestSnap.pos BestSnap.dist].
    apply ltb_spec in Hr. repeat split; try assumption; [now left|].
    unfold closerThan in Hc. unfold belowDist.
    destruct (BestSnap.dist best); [now apply ltb_spec in Hc | exact I].
  - right. destruct H as (Ht & Hin & Hd & Hr & Hb).
    repeat split; try assumption; [now right|].
    revert Hb. unfold candidateStep.
    destruct (ltb (distance pos q) snapRadius) eqn:Hr'; [|tauto].
    destruct (closerThan (distance pos q) best) eqn:Hc; [|tauto].
    cbn [andb BestSnap.dist belowDist]. unfold closerThan in Hc. unfold belowDist.
    destruct (BestSnap.dist best); [|tauto].
    apply ltb_spec in Hc. lra.
Qed.

(** After the loop the recorded distance is at most the distance of every
    candidate within the radius. *)
Lemma candidates_bound (type : SnapType) (qs : list Pos.t) (best : BestSnap.t) (q : Pos.t) :
  In q qs -> distance pos q < snapRadius ->
  exists d', BestSnap.dist (fold_left (candidateStep pos snapRadius type) qs best) = Some d'
             /\ d' <= distance pos q.
Proof.
  revert best. induction qs as [|q0 l IH]; intros best Hin Hr; [contradiction|].
  cbn [fold_left]. destruct Hin as [-> | Hin]; [|now apply IH].
  set (b1 := candidateStep pos snapRadius type best q).
  assert (H1 : exists d1, BestSnap.dist b1 = Some d1 /\ d1 <= distance pos q).
  { unfold b1, candidateStep. rewrite (ltb_true _ _ Hr). cbn [andb].
    unfold closerThan. destruct (BestSnap.dist best) as [b|] eqn:Hb.
    - destruct (ltb (distance pos q) b) eqn:Hc.
      + eexists. split; [reflexivity | lra].
      + exists b. split; [assumption | now apply ltb_nspec in Hc].
    - eexists. split; [reflexivity | lra]. }
  destruct H1 as (d1 & Hd1 & Hle).
  destruct (candidates_result type l b1) as [H | (_ & _ & Hd & _ & Hb)].
  - rewrite H. now exists d1.
  - rewrite Hd. eexists. split; [reflexivity|].
    rewrite Hd1 in Hb. cbn [belowDist] in Hb. lra.
Qed.
End Candidates.

(** [bestSnap] through the candidate loops. *)
Lemma bestSnapOf_candidates (c : Canvas.t) (pos : Pos.t) :
  let snapRadius := SNAP_DISTANCE / Canvas.zoom c in
  let bestSnap1 :=
    match TrackingGuides.intersection (Canvas.trackingGuides c) with
    | Some i =>
        if SnapModes.otrack (Canvas.snapModes c) && ltb (distance pos i) snapRadius
        then BestSnap.mk i (Some (distance pos i)) intersection
        else BestSnap.mk pos None none
    | None => BestSnap.mk pos None none
    end in
  bestSnapOf c pos
  = if SnapModes.osnap (Canvas.snapModes c) then
      fold_left (candidateStep pos snapRadius midpoint)
        (midpointCandidates (Canvas.visibleAreas c))
        (fold_left (candidateStep pos snapRadius vertex)
           (vertexCandidates (Canvas.visibleAreas c)) bestSnap1)
    else bestSnap1.
Proof.
  cbv zeta. unfold bestSnapOf.
  destruct (SnapModes.osnap (Canvas.snapModes c)); [|reflexivity].
  now rewrite midpointStep_candidate, vertexStep_candidate.
Qed.

(** When neither polar increment is set, [getSnappedPos] is the ordinary
    resolution. *)
Lemma getSnappedPos_ordinary (c : Canvas.t) (pos : Pos.t) :
  Canvas.activeAngleSnap c = None -> Canvas.activeLengthSnap c = None ->
  getSnappedPos c pos = ordinarySnap c pos.
Proof.
  intros Ha Hl. unfold getSnappedPos. rewrite Ha, Hl. cbn [isSome orb].
  rewrite andb_false_r. now destruct (0 <? _)%nat.
Qed.

Lemma polarSnap_type (c : Canvas.t) (points : list Point.t) (lastPoint : Point.t)
    (pos : Pos.t) :
  SnapResult.type (polarSnap c points lastPoint pos) = vertex
  \/ SnapResult.type (polarSnap c points lastPoint pos) = extension.
Proof. unfold polarSnap. destruct (eqb _ 0); [now left | now right]. Qed.

(** A result of type [midpoint] is the final [bestSnap]. *)
Lemma getSnappedPos_midpoint (c : Canvas.t) (pos m : Pos.t) :
  getSnappedPos c pos = SnapResult.mk m midpoint ->
  BestSnap.type (bestSnapOf c pos) = midpoint /\ BestSnap.pos (bestSnapOf c pos) = m.
Proof.
  intros H.
  assert (Hord : ordinarySnap c pos = SnapResult.mk m midpoint).
  { revert H. unfold getSnappedPos.
    destruct (0 <? _)%nat; [|tauto].
    destruct (isWALL _ && _); [|tauto].
    intros H. destruct (polarSnap_type c
      match Canvas.activeArea c with Some a => Area.points a | None => [] end
      (at_ match Canvas.activeArea c with Some a => Area.points a | None => [] end
         (length match Canvas.activeArea c with Some a => Area.points a | None => [] end - 1))
      pos) as [Ht | Ht]; rewrite H in Ht; discriminate. }
  revert Hord. unfold ordinarySnap.
  destruct (BestSnap.type (bestSnapOf c pos)) eqn:Ht; intros H'.
  1-3: inversion H'; split; reflexivity.
  all: match type of H' with
       | match ?b with Some _ => _ | None => _ end = _ => destruct b
       end; [discriminate|]; destruct (SnapModes.grid _); discriminate.
Qed.

(** A midpoint is returned only when it is strictly closer to the cursor
    than every vertex of the visible areas. *)
Lemma getSnappedPos_midpoint_closer (c : Canvas.t) (pos m : Pos.t) :
  getSnappedPos c pos = SnapResult.mk m midpoint ->
  forall p, In p (vertexCandidates (Canvas.visibleAreas c)) ->
  distance pos m < distance pos p.
Proof.
  intros Hm p Hp.
  destruct (getSnappedPos_midpoint c pos m Hm) as (Hty & Hpos).
  pose proof (bestSnapOf_candidates c pos) as Hbest. cbv zeta in Hbest.
  set (snapRadius := SNAP_DISTANCE / Canvas.zoom c) in *.
  set (b1 := match TrackingGuides.intersection (Canvas.trackingGuides c) with
             | Some i => _
             | None => _
             end) in *.
  assert (Hb1 : BestSnap.type b1 <> midpoint /\ BestSnap.type b1 <> vertex).
  { unfold b1. destruct (TrackingGuides.intersection (Canvas.trackingGuides c));
      [destruct (_ && _)|]; split; discriminate. }
  rewrite Hbest in Hty, Hpos.
  destruct (SnapModes.osnap (Canvas.snapModes c)); [|now elim (proj1 Hb1)].
  set (b2 := fold_left (candidateStep pos snapRadius vertex)
               (vertexCandidates (Canvas.visibleAreas c)) b1) in *.
  destruct (candidates_result pos snapRadius midpoint
              (midpointCandidates (Canvas.visibleAreas c)) b2)
    as [H | (_ & _ & _ & Hr & Hb)].
  - rewrite H in Hty.
    destruct (candidates_result pos snapRadius vertex
                (vertexCandidates (Canvas.visibleAreas c)) b1) as [H' | (H' & _)];
      fold b2 in H'; rewrite H' in Hty; [now elim (proj1 Hb1) | discriminate].
  - rewrite Hpos in Hr, Hb.
    destruct (Rlt_dec (distance pos p) snapRadius) as [Hin | Hout]; [|lra].
    destruct (candidates_bound pos snapRadius vertex _ b1 p Hp Hin) as (d' & Hd' & Hle).
    fold b2 in Hd'. rewrite Hd' in Hb. cbn [belowDist] in Hb. lra.
Qed.

(** *** What [bestSnap] records *)

Section CandidateFacts.
Variables (pos : Pos.t) (snapRadius : R).

Lemma candidateStep_recorded (type : SnapType) (best : BestSnap.t) (q : Pos.t) :
  type = vertex \/ type = midpoint ->
  recorded pos snapRadius best ->
  recorded pos snapRadius (candidateStep pos snapRadius type best q).
Proof.
  intros Htype Hbest. unfold candidateStep.
  destruct (ltb (distance pos q) snapRadius) eqn:Hr; cbn [andb]; [|exact Hbest].
  destruct (closerThan _ best); [|exact Hbest].
  apply ltb_spec in Hr. unfold recorded. cbn [BestSnap.dist BestSnap.pos BestSnap.type].
  repeat split; try assumption; destruct Htype as [-> | ->]; discriminate.
Qed.

Lemma candidates_recorded (type : SnapType) (qs : list Pos.t) (best : BestSnap.t) :
  type = vertex \/ type = midpoint ->
  recorded pos snapRadius best ->
  recorded pos snapRadius (fold_left (candidateStep pos snapRadius type) qs best).
Proof.
  intros Htype. revert best. induction qs as [|q r IH]; intros best Hbest; [exact Hbest|].
  cbn [fold_left]. apply IH. now apply candidateStep_recorded.
Qed.

Lemma candidateStep_atMost (type : SnapType) (best : BestSnap.t) (q : Pos.t) (d : R) :
  atMost best d -> atMost (candidateStep pos snapRadius type best q) d.
Proof.
  intros (d0 & Hd0 & Hle). unfold candidateStep.
  destruct (ltb (distance pos q) snapRadius); cbn [andb]; [|now exists d0].
  unfold closerThan. rewrite Hd0.
  destruct (ltb (distance pos q) d0) eqn:Hlt; [|now exists d0].
  apply ltb_spec in Hlt. exists (distance pos q). split; [reflexivity | lra].
Qed.

Lemma candidates_atMost (type : SnapType) (qs : list Pos.t) (best : BestSnap.t) (d : R) :
  atMost best d -> atMost (fold_left (candidateStep pos snapRadius type) qs best) d.
Proof.
  revert best. induction qs as [|q r IH]; intros best Hbest; [exact Hbest|].
  cbn [fold_left]. apply IH. now apply candidateStep_atMost.
Qed.

(** The type of [bestSnap] after a candidate loop. *)
Lemma candidates_type (type : SnapType) (qs : list Pos.t) (best : BestSnap.t) :
  BestSnap.type (fold_left (candidateStep pos snapRadius type) qs best) = type
  \/ BestSnap.type (fold_left (candidateStep pos snapRadius type) qs best)
     = BestSnap.type best.
Proof.
  destruct (candidates_result pos snapRadius type qs best) as [-> | (H & _)];
    [now right | now left].
Qed.
End CandidateFacts.

Lemma bestSnapOf_recorded (c : Canvas.t) (pos : Pos.t) :
  recorded pos (SNAP_DISTANCE / Canvas.zoom c) (bestSnapOf c pos).
Proof.
  rewrite bestSnapOf_candidates. cbv zeta.
  set (bestSnap1 := match TrackingGuides.intersection _ with Some _ => _ | None => _ end).
  assert (H1 : recorded pos (SNAP_DISTANCE / Canvas.zoom c) bestSnap1).
  { unfold bestSnap1. destruct (TrackingGuides.intersection _) as [i|]; [|now split].
    destruct (SnapModes.otrack _); cbn [andb]; [|now split].
    destruct (ltb _ _) eqn:Hr; [|now split].
    apply ltb_spec in Hr. unfold recorded. cbn. repeat split; try assumption; discriminate. }
  destruct (SnapModes.osnap _); [|exact H1].
  apply candidates_recorded; [now right|].
  apply candidates_recorded; [now left | exact H1].
Qed.

Lemma bestSnapOf_atMost (c : Canvas.t) (pos q : Pos.t) :
  In q (osnapCandidates c ++ trackedIntersection c) ->
  distance pos q < SNAP_DISTANCE / Canvas.zoom c ->
  atMost (bestSnapOf c pos) (distance pos q).
Proof.
  intros Hq Hr. rewrite bestSnapOf_candidates. cbv zeta.
  set (bestSnap1 := match TrackingGuides.intersection _ with Some _ => _ | None => _ end).
  apply in_app_or in Hq. destruct Hq as [Hq | Hq].
  - unfold osnapCandidates in Hq. destruct (SnapModes.osnap _); [|contradiction].
    apply in_app_or in Hq. destruct Hq as [Hq | Hq].
    + apply candidates_atMost. now apply candidates_bound.
    + now apply candidates_bound.
  - assert (H1 : atMost bestSnap1 (distance pos q)).
    { unfold bestSnap1, trackedIntersection in *.
      destruct (SnapModes.otrack _); [|contradiction].
      destruct (TrackingGuides.intersection _) as [i|]; [|contradiction].
      destruct Hq as [-> | []]. cbn [andb]. rewrite (ltb_true _ _ Hr).
      exists (distance pos q). split; [reflexivity | lra]. }
    destruct (SnapModes.osnap _); [|exact H1].
    now do 2 apply candidates_atMost.
Qed.

(** A [bestSnap] that is not the initial one is a candidate of its type. *)
Lemma bestSnapOf_member (c : Canvas.t) (pos : Pos.t) :
  BestSnap.type (bestSnapOf c pos) <> none ->
  In (BestSnap.pos (bestSnapOf c pos)) (candidatesOf c (BestSnap.type (bestSnapOf c pos))).
Proof.
  rewrite bestSnapOf_candidates. cbv zeta.
  set (snapRadius := SNAP_DISTANCE / Canvas.zoom c).
  set (b1 := match TrackingGuides.intersection _ with Some _ => _ | None => _ end).
  assert (H1 : BestSnap.type b1 <> none ->
               BestSnap.type b1 = intersection
               /\ In (BestSnap.pos b1) (trackedIntersection c)).
  { unfold b1, trackedIntersection.
    destruct (TrackingGuides.intersection _) as [i|]; [|now intros H].
    destruct (SnapModes.otrack _); cbn [andb]; [|now intros H].
    destruct (ltb _ _); [|now intros H].
    intros _. split; [reflexivity | now left]. }
  destruct (SnapModes.osnap (Canvas.snapModes c)) eqn:Hosnap.
  - set (b2 := fold_left (candidateStep pos snapRadius vertex)
                 (vertexCandidates (Canvas.visibleAreas c)) b1).
    assert (H2 : BestSnap.type b2 <> none ->
                 In (BestSnap.pos b2) (candidatesOf c (BestSnap.type b2))).
    { destruct (candidates_result pos snapRadius vertex
                  (vertexCandidates (Canvas.visibleAreas c)) b1)
        as [H | (Ht & Hin & _)]; fold b2 in H || fold b2 in Ht, Hin.
      - rewrite H. intros Hne. destruct (H1 Hne) as [-> Hi]. exact Hi.
      - intros _. rewrite Ht. cbn [candidatesOf]. now rewrite Hosnap. }
    destruct (candidates_result pos snapRadius midpoint
                (midpointCandidates (Canvas.visibleAreas c)) b2)
      as [H | (Ht & Hin & _)].
    + rewrite H. exact H2.
    + intros _. rewrite Ht. cbn [candidatesOf]. now rewrite Hosnap.
  - intros Hne. destruct (H1 Hne) as [-> Hi]. exact Hi.
Qed.

(** When [bestSnap] is of one of the three object types, it is the result:
    a candidate of its type, within the radius, and no candidate is closer
    to the cursor. *)
Lemma ordinarySnap_object (c : Canvas.t) (pos : Pos.t) :
  SnapResult.type (ordinarySnap c pos) = vertex
  \/ SnapResult.type (ordinarySnap c pos) = midpoint
  \/ SnapResult.type (ordinarySnap c pos) = intersection ->
  In (SnapResult.pos (ordinarySnap c pos))
     (candidatesOf c (SnapResult.type (ordinarySnap c pos)))
  /\ distance pos (SnapResult.pos (ordinarySnap c pos)) < SNAP_DISTANCE / Canvas.zoom c
  /\ forall q, In q (osnapCandidates c ++ trackedIntersection c) ->
       distance pos (SnapResult.pos (ordinarySnap c pos)) <= distance pos q.
Proof.
  pose proof (bestSnapOf_recorded c pos) as Hrec.
  pose proof (bestSnapOf_member c pos) as Hmem.
  pose proof (bestSnapOf_atMost c pos) as Hmost.
  unfold ordinarySnap. unfold recorded in Hrec.
  assert (Hbest : BestSnap.type (bestSnapOf c pos) <> none ->
            In (BestSnap.pos (bestSnapOf c pos))
               (candidatesOf c (BestSnap.type (bestSnapOf c pos)))
            /\ distance pos (BestSnap.pos (bestSnapOf c pos))
               < SNAP_DISTANCE / Canvas.zoom c
            /\ forall q, In q (osnapCandidates c ++ trackedIntersection c) ->
                 distance pos (BestSnap.pos (bestSnapOf c pos)) <= distance pos q).
  { intros Hne. split; [now apply Hmem|].
    destruct (BestSnap.dist (bestSnapOf c pos)) as [d|] eqn:Hd.
    - destruct Hrec as (Heq & Hlt & _). rewrite <- Heq. split; [exact Hlt|].
      intros q Hq.
      destruct (Rlt_le_dec (distance pos q) (SNAP_DISTANCE / Canvas.zoom c))
        as [Hin | Hout]; [|lra].
      destruct (Hmost q Hq Hin) as (d' & Hd' & Hle). rewrite Hd in Hd'.
      injection Hd' as <-. exact Hle.
    - destruct Hrec as (Hnone & _). contradiction. }
  destruct (BestSnap.type (bestSnapOf c pos)) eqn:Hb;
    try (intros _; cbn [SnapResult.pos SnapResult.type];
         apply Hbest; discriminate);
    intros Htype; exfalso; revert Htype;
    destruct (if SnapModes.otrack _ && _ then _ else _);
    try destruct (SnapModes.grid _); cbn [SnapResult.type];
    intros [H | [H | H]]; discriminate.
Qed.

(** C2 (amended). In the ordinary (non-polar) resolution, with
    object-tracking enabled and the intersection [i] of the tracking guides
    within [SNAP_DISTANCE / zoom] of the cursor:
    - the resolver returns [i] with type [intersection] when no vertex or
      midpoint candidate of the object snap is strictly closer to the
      cursor than [i] (on equal distance the intersection wins);
    - when such a candidate is strictly closer, the result is of type
      [vertex] or [midpoint], it is a vertex or a wall midpoint of the
      visible areas accordingly, strictly closer to the cursor than [i],
      and no vertex or midpoint is closer than it: the nearest candidate
      wins, not the intersection;
    - a midpoint is returned only when it is strictly closer than every
      vertex: at equal distance the vertex wins. *)
Theorem getSnappedPos_ordinary_priority (c : Canvas.t) (pos : Pos.t) :
  (forall i,
     Canvas.activeAngleSnap c = None ->
     Canvas.activeLengthSnap c = None ->
     SnapModes.otrack (Canvas.snapModes c) = true ->
     TrackingGuides.intersection (Canvas.trackingGuides c) = Some i ->
     distance pos i < SNAP_DISTANCE / Canvas.zoom c ->
     ((forall q, In q (osnapCandidates c) -> distance pos i <= distance pos q) ->
      getSnappedPos c pos = SnapResult.mk i intersection)
     /\ ((exists q, In q (osnapCandidates c) /\ distance pos q < distance pos i) ->
         (SnapResult.type (getSnappedPos c pos) = vertex
          \/ SnapResult.type (getSnappedPos c pos) = midpoint)
         /\ In (SnapResult.pos (getSnappedPos c pos))
               (candidatesOf c (SnapResult.type (getSnappedPos c pos)))
         /\ distance pos (SnapResult.pos (getSnappedPos c pos)) < distance pos i
         /\ forall q, In q (osnapCandidates c) ->
              distance pos (SnapResult.pos (getSnappedPos c pos)) <= distance pos q))
  /\ (forall m, getSnappedPos c pos = SnapResult.mk m midpoint ->
      forall p, In p (vertexCandidates (Canvas.visibleAreas c)) ->
      distance pos m < distance pos p).
Proof.
  split; [|intros m; apply getSnappedPos_midpoint_closer].
  intros i Hangle Hlength Hotrack Hi Hnear.
  pose proof (bestSnapOf_candidates c pos) as Hbest. cbv zeta in Hbest.
  rewrite Hi, Hotrack, (ltb_true _ _ Hnear) in Hbest. cbn [andb] in Hbest.
  set (snapRadius := SNAP_DISTANCE / Canvas.zoom c) in *.
  set (b1 := BestSnap.mk i (Some (distance pos i)) intersection) in *.
  split.
  - (* no candidate strictly closer *)
    intros Hall. rewrite getSnappedPos_ordinary by assumption.
    assert (Hb : bestSnapOf c pos = b1).
    { rewrite Hbest. unfold osnapCandidates in Hall.
      destruct (SnapModes.osnap (Canvas.snapModes c)); [|reflexivity].
      rewrite (candidates_unchanged pos snapRadius vertex _ b1 (distance pos i));
        [|reflexivity|].
      - apply (candidates_unchanged pos snapRadius midpoint _ b1 (distance pos i));
          [reflexivity|].
        intros q Hq. apply Hall, in_or_app. now right.
      - intros q Hq. apply Hall, in_or_app. now left. }
    unfold ordinarySnap. rewrite Hb. reflexivity.
  - (* a candidate strictly closer *)
    intros (q & Hq & Hlt). rewrite getSnappedPos_ordinary by assumption.
    unfold osnapCandidates in Hq.
    destruct (SnapModes.osnap (Canvas.snapModes c)) eqn:Hosnap; [|contradiction].
    set (b2 := fold_left (candidateStep pos snapRadius vertex)
                 (vertexCandidates (Canvas.visibleAreas c)) b1) in *.
    assert (Hq2 : BestSnap.type b2 = intersection -> b2 = b1).
    { intros Ht.
      destruct (candidates_result pos snapRadius vertex
                  (vertexCandidates (Canvas.visibleAreas c)) b1) as [H | (H & _)];
        [exact H|].
      fold b2 in H. rewrite H in Ht. discriminate. }
    assert (Ht : BestSnap.type (bestSnapOf c pos) <> intersection).
    { intros Ht. rewrite Hbest in Ht.
      destruct (candidates_result pos snapRadius midpoint
                  (midpointCandidates (Canvas.visibleAreas c)) b2) as [H | (H & _)];
        [|rewrite H in Ht; discriminate].
      rewrite H in Ht. specialize (Hq2 Ht).
      apply in_app_or in Hq. destruct Hq as [Hq | Hq].
      - destruct (candidates_bound pos snapRadius vertex _ b1 q Hq) as (d' & Hd' & Hle);
          [lra|].
        fold b2 in Hd'. rewrite Hq2 in Hd'. injection Hd' as <-. lra.
      - destruct (candidates_bound pos snapRadius midpoint _ b2 q Hq) as (d' & Hd' & Hle);
          [lra|].
        rewrite H, Hq2 in Hd'. injection Hd' as <-. lra. }
    assert (Hmost : atMost (bestSnapOf c pos) (distance pos q)).
    { apply bestSnapOf_atMost; [|unfold snapRadius in Hnear; lra]. apply in_or_app. left.
      unfold osnapCandidates. now rewrite Hosnap. }
    assert (Hobj : SnapResult.type (ordinarySnap c pos) = vertex
                   \/ SnapResult.type (ordinarySnap c pos) = midpoint).
    { pose proof (bestSnapOf_recorded c pos) as Hrec. unfold recorded in Hrec.
      destruct Hmost as (d' & Hd' & _). rewrite Hd' in Hrec.
      destruct Hrec as (_ & _ & Hn1 & Hn2 & Hn3).
      unfold ordinarySnap.
      destruct (BestSnap.type (bestSnapOf c pos)) eqn:Hty; cbn [SnapResult.type];
        try (now left); try (now right); contradiction. }
    destruct (ordinarySnap_object c pos) as (Hin & _ & Hnear').
    { destruct Hobj as [H | H]; [now left | right; now left]. }
    split; [exact Hobj|]. split; [exact Hin|]. split.
    + apply Rle_lt_trans with (distance pos q); [|exact Hlt].
      apply Hnear'. apply in_or_app. left. unfold osnapCandidates. now rewrite Hosnap.
    + intros q' Hq'. apply Hnear'. apply in_or_app. now left.
Qed.

(** The guides of the slanted wall meet at its first end point.  With the
    cursor at (-6, 5) nothing is closer, and the intersection is returned.
    With the cursor at (0, 0) the midpoint of the wall is closer than the
    intersection, and the result is a vertex or a midpoint of the wall,
    closer than the intersection and nearest among them. *)
Lemma getSnappedPos_ordinary_priority_witness :
  getSnappedPos slantedCanvas cursorNearGuides = SnapResult.mk (Pos.mk (-6) 8) intersection
  /\ ((SnapResult.type (getSnappedPos slantedCanvas cursorOnMidpoint) = vertex
       \/ SnapResult.type (getSnappedPos slantedCanvas cursorOnMidpoint) = midpoint)
      /\ In (SnapResult.pos (getSnappedPos slantedCanvas cursorOnMidpoint))
            (candidatesOf slantedCanvas
               (SnapResult.type (getSnappedPos slantedCanvas cursorOnMidpoint)))
      /\ distance cursorOnMidpoint (SnapResult.pos (getSnappedPos slantedCanvas cursorOnMidpoint))
         < distance cursorOnMidpoint (Pos.mk (-6) 8)
      /\ forall q, In q (osnapCandidates slantedCanvas) ->
           distance cursorOnMidpoint (SnapResult.pos (getSnappedPos slantedCanvas cursorOnMidpoint))
           <= distance cursorOnMidpoint q).
Proof.
  assert (H1 : distance cursorNearGuides (Pos.mk (-6) 8) = 3) by distance_is.
  assert (H2 : distance cursorOnMidpoint (Pos.mk (-6) 8) = 10) by distance_is.
  assert (H3 : distance cursorOnMidpoint (Pos.mk ((-6 + 6) / 2) ((8 + -8) / 2)) = 0)
    by distance_is.
  split.
  - apply (proj1 (getSnappedPos_ordinary_priority slantedCanvas cursorNearGuides)).
    + reflexivity.
    + reflexivity.
    + reflexivity.
    + reflexivity.
    + rewrite H1. unfold SNAP_DISTANCE. simpl. lra.
    + intros q Hq. rewrite H1. simpl in Hq. destruct Hq as [<- | [<- | [<- | []]]].
      * fold (Point.pos (Point.mk 1 (-6) 8)) in H1 |- *.
        change (3 <= distance cursorNearGuides (Pos.mk (-6) 8)). rewrite H1. lra.
      * unfold distance. simpl. apply le_sqrt; lra.
      * unfold distance. simpl. apply le_sqrt; lra.
  - apply (proj2 (proj1 (getSnappedPos_ordinary_priority slantedCanvas cursorOnMidpoint)
                    (Pos.mk (-6) 8) eq_refl eq_refl eq_refl eq_refl
                    ltac:(rewrite H2; unfold SNAP_DISTANCE; simpl; lra))).
    exists (Pos.mk ((-6 + 6) / 2) ((8 + -8) / 2)). split.
    + simpl. right. right. now left.
    + rewrite H2, H3. lra.
Defined.

(** C2 (counterexample). Object-tracking is enabled and the intersection of
    the two guides, (-6, 8), is within the snap radius 20 of the cursor
    (0, 0), at distance 10; the midpoint of the wall is at distance 0, and
    the resolver returns it, with type [midpoint]. *)
Lemma getSnappedPos_intersection_not_first :
  Canvas.activeAngleSnap slantedCanvas = None
  /\ Canvas.activeLengthSnap slantedCanvas = None
  /\ SnapModes.otrack (Canvas.snapModes slantedCanvas) = true
  /\ TrackingGuides.intersection (Canvas.trackingGuides slantedCanvas)
     = Some (Pos.mk (-6) 8)
  /\ distance cursorOnMidpoint (Pos.mk (-6) 8)
     < SNAP_DISTANCE / Canvas.zoom slantedCanvas
  /\ getSnappedPos slantedCanvas cursorOnMidpoint
     = SnapResult.mk (Pos.mk ((-6 + 6) / 2) ((8 + -8) / 2)) midpoint
  /\ getSnappedPos slantedCanvas cursorOnMidpoint
     <> SnapResult.mk (Pos.mk (-6) 8) intersection.
Proof.
  set (pos := cursorOnMidpoint).
  assert (H1 : distance pos (Pos.mk (-6) 8) = 10) by distance_is.
  assert (H2 : distance pos (Point.mk 1 (-6) 8) = 10) by distance_is.
  assert (H3 : distance pos (Point.mk 2 6 (-8)) = 10) by distance_is.
  assert (H4 : distance pos (Pos.mk ((-6 + 6) / 2) ((8 + -8) / 2)) = 0) by distance_is.
  assert (Hres : getSnappedPos slantedCanvas pos
                 = SnapResult.mk (Pos.mk ((-6 + 6) / 2) ((8 + -8) / 2)) midpoint).
  { rewrite getSnappedPos_ordinary by reflexivity.
    unfold ordinarySnap. rewrite bestSnapOf_candidates.
    unfold vertexCandidates, midpointCandidates, midpointOf, findPoint, SNAP_DISTANCE.
    simpl. unfold candidateStep, closerThan.
    repeat first [ rewrite H1 | rewrite H2 | rewrite H3 | rewrite H4
                 | progress rdecide | progress cbn [andb BestSnap.dist] ].
    reflexivity. }
  repeat split; try reflexivity.
  - rewrite H1. unfold SNAP_DISTANCE. simpl. lra.
  - exact Hres.
  - rewrite Hres. discriminate.
Qed.

(** ** [renumberTilesByColor] *)

(** *** Association lists *)

Section AssocFacts.
Context {K V : Type} (keq : K -> K -> bool).
Hypothesis keq_spec : forall a b, keq a b = true <-> a = b.

Lemma keq_refl (a : K) : keq a a = true.
Proof. now apply keq_spec. Qed.

Lemma assocGet_set (o : list (K * V)) (k k' : K) (v : V) :
  assocGet keq (assocSet keq o k v) k'
  = if keq k k' then Some v else assocGet keq o k'.
Proof.
  induction o as [|[a w] r IH]; cbn [assocSet assocGet]; [reflexivity|].
  destruct (keq a k) eqn:Hak; cbn [assocGet].
  - apply keq_spec in Hak. subst a. now destruct (keq k k').
  - rewrite IH. destruct (keq a k') eqn:Hak'; [|reflexivity].
    apply keq_spec in Hak'. subst a.
    destruct (keq k k') eqn:Hkk'; [|reflexivity].
    apply keq_spec in Hkk'. subst k'. now rewrite keq_refl in Hak.
Qed.

Lemma assocGet_In (o : list (K * V)) (k : K) (v : V) :
  assocGet keq o k = Some v -> In (k, v) o.
Proof.
  induction o as [|[a w] r IH]; cbn [assocGet]; [discriminate|].
  destruct (keq a k) eqn:Hak.
  - apply keq_spec in Hak. intros [= ->]. left. now subst.
  - intros H. right. now apply IH.
Qed.

Lemma In_assocGet (o : list (K * V)) (k : K) (v : V) :
  NoDup (map fst o) -> In (k, v) o -> assocGet keq o k = Some v.
Proof.
  induction o as [|[a w] r IH]; cbn [map fst assocGet]; [contradiction|].
  intros Hnd [Heq | Hin].
  - injection Heq as -> ->. now rewrite keq_refl.
  - inversion Hnd as [|? ? Hnotin Hnd']; subst.
    destruct (keq a k) eqn:Hak; [|now apply IH].
    apply keq_spec in Hak. subst a. elim Hnotin.
    change k with (fst (k, v)). now apply in_map.
Qed.

Lemma assocSet_keys (o : list (K * V)) (k : K) (v : V) :
  map fst (assocSet keq o k v)
  = if existsb (keq k) (map fst o) then map fst o else map fst o ++ [k].
Proof.
  induction o as [|[a w] r IH]; cbn [assocSet map fst existsb app]; [reflexivity|].
  destruct (keq a k) eqn:Hak.
  - apply keq_spec in Hak. subst a. now rewrite keq_refl.
  - assert (Hka : keq k a = false).
    { destruct (keq k a) eqn:H; [|reflexivity].
      apply keq_spec in H. subst a. now rewrite keq_refl in Hak. }
    rewrite Hka. cbn [orb map fst]. rewrite IH.
    now destruct (existsb (keq k) (map fst r)).
Qed.

Lemma assocSet_NoDup (o : list (K * V)) (k : K) (v : V) :
  NoDup (map fst o) -> NoDup (map fst (assocSet keq o k v)).
Proof.
  intros Hnd. rewrite assocSet_keys.
  destruct (existsb (keq k) (map fst o)) eqn:Hex; [assumption|].
  apply Permutation_NoDup with (l := k :: map fst o).
  - apply Permutation_cons_append.
  - constructor; [|assumption]. intros Hin.
    assert (existsb (keq k) (map fst o) = true); [|congruence].
    apply existsb_exists. exists k. split; [assumption | apply keq_refl].
Qed.

(** A [Map] built from entries holds values of these entries, and has a
    value for each of their keys. *)
Lemma mapOfEntries_In (entries m : list (K * V)) (k : K) (v : V) :
  assocGet keq (fold_left (fun m e => assocSet keq m (fst e) (snd e)) entries m) k
  = Some v ->
  In (k, v) entries \/ assocGet keq m k = Some v.
Proof.
  revert m. induction entries as [|[a w] r IH]; intros m; cbn [fold_left fst snd].
  - now right.
  - intros H. destruct (IH _ H) as [Hin | Hget]; [left; now right|].
    rewrite assocGet_set in Hget. destruct (keq a k) eqn:Hak; [|now right].
    apply keq_spec in Hak. injection Hget as ->. subst a. left. now left.
Qed.

Lemma mapOfEntries_Some (entries m : list (K * V)) (k : K) :
  In k (map fst entries) \/ assocGet keq m k <> None ->
  assocGet keq (fold_left (fun m e => assocSet keq m (fst e) (snd e)) entries m) k
  <> None.
Proof.
  revert m. induction entries as [|[a w] r IH]; intros m; cbn [fold_left fst snd map].
  - intros [[] | H]. exact H.
  - intros [[Heq | Hin] | Hget]; apply IH.
    + right. rewrite assocGet_set. subst a. now rewrite keq_refl.
    + now left.
    + right. rewrite assocGet_set. now destruct (keq a k).
Qed.
End AssocFacts.

Lemma String_eqb_spec (a b : string) : String.eqb a b = true <-> a = b.
Proof. apply String.eqb_eq. Qed.

Lemma Z_eqb_spec (a b : Z) : Z.eqb a b = true <-> a = b.
Proof. apply Z.eqb_eq. Qed.

(** *** The stable insertion sort *)

Section SortFacts.
Context {A : Type} (compare : A -> A -> R) (le : A -> A -> Prop).
Hypothesis le_of_not_gt : forall a b, gtb (compare a b) 0 = false -> le a b.
Hypothesis le_of_gt : forall a b, gtb (compare a b) 0 = true -> le b a.
Hypothesis le_trans : forall a b c, le a b -> le b c -> le a c.

Lemma insertSorted_perm (a : A) (l : list A) :
  Permutation (insertSorted compare a l) (a :: l).
Proof.
  induction l as [|b r IH]; cbn [insertSorted]; [reflexivity|].
  destruct (gtb (compare a b) 0); [|reflexivity].
  rewrite IH. apply perm_swap.
Qed.

Lemma sort_perm (l : list A) : Permutation (sort compare l) l.
Proof.
  induction l as [|a r IH]; cbn [sort fold_right]; [reflexivity|].
  fold (sort compare r). rewrite insertSorted_perm. now constructor.
Qed.

Lemma insertSorted_sorted (a : A) (l : list A) :
  StronglySorted le l -> StronglySorted le (insertSorted compare a l).
Proof.
  induction l as [|b r IH]; intros Hs; cbn [insertSorted].
  - repeat constructor.
  - apply StronglySorted_inv in Hs. destruct Hs as (Hr & Hb).
    destruct (gtb (compare a b) 0) eqn:Hc.
    + constructor; [now apply IH|].
      apply (Permutation_Forall (Permutation_sym (insertSorted_perm a r))).
      constructor; [now apply le_of_gt | assumption].
    + constructor; [now constructor|].
      constructor; [now apply le_of_not_gt|].
      apply Forall_impl with (P := le b); [|assumption].
      intros c Hbc. apply le_trans with b; [now apply le_of_not_gt | assumption].
Qed.

Lemma sort_sorted (l : list A) : StronglySorted le (sort compare l).
Proof.
  induction l as [|a r IH]; cbn [sort fold_right]; [constructor|].
  now apply insertSorted_sorted.
Qed.
End SortFacts.

Lemma byPosition_not_gt (a b : Tile.t) :
  gtb (byPosition a b) 0 = false -> rowMajorLe a b.
Proof.
  unfold byPosition, gtb, rowMajorLe. intros H.
  destruct (eqb (Tile.y a - Tile.y b) 0) eqn:He.
  - apply eqb_spec in He. apply ltb_nspec in H. right. lra.
  - apply ltb_nspec in H. left.
    destruct (Req_dec_T (Tile.y a - Tile.y b) 0) as [Hz | Hz]; [|lra].
    now rewrite (eqb_true _ _ Hz) in He.
Qed.

Lemma byPosition_gt (a b : Tile.t) :
  gtb (byPosition a b) 0 = true -> rowMajorLe b a.
Proof.
  unfold byPosition, gtb, rowMajorLe. intros H.
  destruct (eqb (Tile.y a - Tile.y b) 0) eqn:He.
  - apply eqb_spec in He. apply ltb_spec in H. right. lra.
  - apply ltb_spec in H. left. lra.
Qed.

Lemma rowMajorLe_trans (a b c : Tile.t) :
  rowMajorLe a b -> rowMajorLe b c -> rowMajorLe a c.
Proof. unfold rowMajorLe. intros [H1 | (H1 & H1')] [H2 | (H2 & H2')]; lra. Qed.

(** *** The groups by colour *)

Lemma fold_left_ext {A B : Type} (f g : A -> B -> A) (l : list B) (acc : A) :
  (forall acc b, f acc b = g acc b) -> fold_left f l acc = fold_left g l acc.
Proof.
  intros H. revert acc. induction l as [|b r IH]; intros acc; [reflexivity|].
  cbn [fold_left]. now rewrite H, IH.
Qed.

Section GroupBy.
Context {A : Type} (keep : A -> bool) (key : A -> string).

Lemma groupBy_invariant (l seen : list A) (G : list (string * list A)) :
  NoDup (map fst G) ->
  (forall k, assocGet String.eqb G k = nonEmpty (keptOfKey keep key k seen)) ->
  NoDup (map fst (fold_left (groupBy keep key) l G))
  /\ (forall k, assocGet String.eqb (fold_left (groupBy keep key) l G) k
                = nonEmpty (keptOfKey keep key k (seen ++ l))).
Proof.
  revert seen G. induction l as [|a r IH]; intros seen G Hnd Hget.
  - cbn [fold_left]. now rewrite app_nil_r.
  - cbn [fold_left].
    replace (seen ++ a :: r) with ((seen ++ [a]) ++ r) by now rewrite <- app_assoc.
    apply IH.
    + unfold groupBy. destruct (keep a); [|assumption].
      now apply assocSet_NoDup with (1 := String_eqb_spec).
    + intros k. unfold keptOfKey. rewrite filter_app. cbn [filter].
      fold (keptOfKey keep key k seen). unfold groupBy.
      destruct (keep a); cbn [andb].
      * rewrite (assocGet_set String.eqb String_eqb_spec).
        destruct (String.eqb (key a) k) eqn:Hk.
        -- apply String.eqb_eq in Hk. subst k. rewrite Hget.
           destruct (keptOfKey keep key (key a) seen); reflexivity.
        -- rewrite app_nil_r. apply Hget.
      * rewrite app_nil_r. apply Hget.
Qed.

(** The groups are the non-empty [keptOfKey] lists, each under its key. *)
Lemma groupBy_entries (l : list A) (k : string) (g : list A) :
  In (k, g) (fold_left (groupBy keep key) l [])
  <-> g = keptOfKey keep key k l /\ g <> [].
Proof.
  destruct (groupBy_invariant l [] []) as (Hnd & Hget);
    [constructor | reflexivity |]. cbn [app] in Hget.
  split.
  - intros Hin. apply (In_assocGet String.eqb String_eqb_spec) in Hin; [|assumption].
    rewrite Hget in Hin. destruct (keptOfKey keep key k l); [discriminate|].
    injection Hin as <-. split; [reflexivity | discriminate].
  - intros (-> & Hne). apply (assocGet_In String.eqb String_eqb_spec).
    rewrite Hget. destruct (keptOfKey keep key k l); [now elim Hne | reflexivity].
Qed.

Lemma groupBy_keys_NoDup (l : list A) :
  NoDup (map fst (fold_left (groupBy keep key) l [])).
Proof. apply (groupBy_invariant l [] []); [constructor | reflexivity]. Qed.

Lemma groupBy_get (l : list A) (k : string) :
  assocGet String.eqb (fold_left (groupBy keep key) l []) k
  = nonEmpty (keptOfKey keep key k l).
Proof. apply (groupBy_invariant l [] []); [constructor | reflexivity]. Qed.
End GroupBy.

Lemma groupStep_groupBy (tiles : list Tile.t) :
  fold_left groupStep tiles []
  = fold_left (groupBy (fun t => isSome (Tile.number t)) Tile.color) tiles [].
Proof.
  apply fold_left_ext. intros G t. unfold groupStep, groupBy.
  now destruct (Tile.number t).
Qed.

Lemma groups_entries (tiles : list Tile.t) (c : string) (g : list Tile.t) :
  In (c, g) (fold_left groupStep tiles []) <-> g = numberedOfColor c tiles /\ g <> [].
Proof. rewrite groupStep_groupBy. apply groupBy_entries. Qed.

(** *** The renumbered tiles *)

Lemma fold_left_app_flat_map {A B : Type} (f : A -> list B) (l : list A) (acc : list B) :
  fold_left (fun acc a => acc ++ f a) l acc = acc ++ flat_map f l.
Proof.
  revert acc. induction l as [|a r IH]; intros acc; cbn [fold_left flat_map].
  - now rewrite app_nil_r.
  - now rewrite IH, app_assoc.
Qed.

Lemma mapiFrom_In {A B : Type} (f : A -> nat -> B) (l : list A) (i0 : nat) (b : B) :
  In b (mapiFrom f i0 l) <-> exists i a, nth_error l i = Some a /\ b = f a (i0 + i)%nat.
Proof.
  revert i0. induction l as [|a r IH]; intros i0; cbn [mapiFrom In].
  - split; [contradiction|]. intros (i & a & H & _). now destruct i.
  - rewrite IH. split.
    + intros [<- | (i & a' & Hn & ->)].
      * exists 0%nat, a. split; [reflexivity | now rewrite Nat.add_0_r].
      * exists (S i), a'. split; [assumption | f_equal; lia].
    + intros ([|i] & a' & Hn & ->); cbn [nth_error] in Hn.
      * injection Hn as ->. left. now rewrite Nat.add_0_r.
      * right. exists i, a'. split; [assumption | f_equal; lia].
Qed.

Lemma injective_on_NoDup {A B : Type} (f : A -> B) (l : list A) (a b : A) :
  NoDup (map f l) -> In a l -> In b l -> f a = f b -> a = b.
Proof.
  induction l as [|c r IH]; cbn [map]; [contradiction|].
  intros Hnd [-> | Ha] [-> | Hb] Hf; try reflexivity.
  - inversion Hnd as [|? ? Hn _]; subst. elim Hn. rewrite Hf. now apply in_map.
  - inversion Hnd as [|? ? Hn _]; subst. elim Hn. rewrite <- Hf. now apply in_map.
  - inversion Hnd; subst. now apply IH.
Qed.

(** The entry of the [Map] for the id of a tile of the list, if there is
    one, is that tile with its new number; a numbered tile has an entry. *)
Lemma renumbered_lookup (tiles : list Tile.t) (t : Tile.t) :
  NoDup (map Tile.id tiles) -> In t tiles ->
  let allRenumberedTiles :=
    fold_left (fun acc entry => acc ++ renumberGroup (fst entry) (snd entry))
      (fold_left groupStep tiles []) [] in
  let renumberedMap :=
    mapOfEntries Z.eqb (map (fun t => (Tile.id t, t)) allRenumberedTiles) in
  match assocGet Z.eqb renumberedMap (Tile.id t) with
  | Some t' =>
      exists i,
        nth_error (sort byPosition (numberedOfColor (Tile.color t) tiles)) i = Some t
        /\ t' = withNumber t (Some (label (Tile.color t) (i + 1)))
  | None => Tile.number t = None
  end.
Proof.
  intros Hnd Ht. cbv zeta. rewrite fold_left_app_flat_map. cbn [app].
  set (all := flat_map _ _).
  assert (Hall : forall t', In t' all ->
            exists c i u,
              nth_error (sort byPosition (numberedOfColor c tiles)) i = Some u
              /\ t' = withNumber u (Some (label c (i + 1)))).
  { intros t' Hin. unfold all in Hin. apply in_flat_map in Hin.
    destruct Hin as ([c g] & Hg & Hin). cbn [fst snd] in Hin.
    apply groups_entries in Hg. destruct Hg as (-> & _).
    unfold renumberGroup, mapi in Hin. apply mapiFrom_In in Hin.
    destruct Hin as (i & u & Hn & ->). exists c, i, u. now split. }
  assert (Hmem : forall c i u,
            nth_error (sort byPosition (numberedOfColor c tiles)) i = Some u ->
            In u tiles /\ isSome (Tile.number u) = true /\ Tile.color u = c).
  { intros c i u Hn. apply nth_error_In in Hn.
    apply (Permutation_in _ (sort_perm byPosition _)) in Hn.
    unfold numberedOfColor in Hn. apply filter_In in Hn. destruct Hn as (Hu & Hb).
    apply andb_true_iff in Hb. destruct Hb as (Hb1 & Hb2).
    apply String.eqb_eq in Hb2. now repeat split. }
  unfold mapOfEntries.
  destruct (assocGet Z.eqb _ (Tile.id t)) as [t'|] eqn:Hget.
  - apply (mapOfEntries_In Z.eqb Z_eqb_spec) in Hget.
    destruct Hget as [Hin | Hget]; [|discriminate].
    apply in_map_iff in Hin. destruct Hin as (t'' & Heq & Hin).
    injection Heq as Hid ->. destruct (Hall _ Hin) as (c & i & u & Hn & ->).
    destruct (Hmem _ _ _ Hn) as (Hu & _ & Hc).
    assert (u = t) as -> by (apply (injective_on_NoDup Tile.id tiles); assumption).
    subst c. now exists i.
  - destruct (Tile.number t) as [n|] eqn:Hnum; [|reflexivity]. exfalso.
    revert Hget. apply (mapOfEntries_Some Z.eqb Z_eqb_spec). left.
    assert (Hg : In t (numberedOfColor (Tile.color t) tiles)).
    { unfold numberedOfColor. apply filter_In. split; [assumption|].
      rewrite Hnum. cbn [isSome andb]. apply String.eqb_refl. }
    apply (Permutation_in _ (Permutation_sym (sort_perm byPosition _))) in Hg.
    apply In_nth_error in Hg. destruct Hg as (i & Hn).
    rewrite map_map. cbn [fst].
    change (Tile.id t) with (Tile.id (withNumber t (Some (label (Tile.color t) (i + 1))))).
    apply in_map. unfold all. apply in_flat_map.
    exists (Tile.color t, numberedOfColor (Tile.color t) tiles). split.
    + apply groups_entries. split; [reflexivity|].
      intros He. apply nth_error_In in Hn.
      apply (Permutation_in _ (sort_perm byPosition _)) in Hn. rewrite He in Hn.
      contradiction.
    + cbn [fst snd]. unfold renumberGroup, mapi. apply mapiFrom_In.
      exists i, t. now split.
Qed.

(** Evaluate [renumberTilesByColor] on explicit tiles. *)
Ltac renumber_eval :=
  unfold renumberTilesByColor, groupStep, renumberGroup, mapOfEntries, sort, byPosition;
  repeat first [ progress simpl | progress unfold gtb | progress rdecide ].

Lemma renumber_threeTiles :
  map Tile.number (renumberTilesByColor threeTiles)
  = [Some "0-1"; Some "0-2"; Some "0-3"]%string.
Proof. unfold threeTiles. renumber_eval. reflexivity. Qed.

Lemma renumber_threeTiles_rev :
  map Tile.number (renumberTilesByColor (rev threeTiles))
  = [Some "0-3"; Some "0-2"; Some "0-1"]%string.
Proof. unfold threeTiles. renumber_eval. reflexivity. Qed.

(** X31. [renumberTilesByColor], on tiles with pairwise distinct ids:
    - keeps the length of the list and leaves every tile whose number is
      [null] as it is;
    - for every colour, the numbered tiles of that colour receive their
      numbers along a row-major sorted arrangement of the group ([y]
      ascending, then [x] ascending): the tile at place [i] of the sorted
      group gets the number ["<paletteIndexOfColor>-<i + 1>"], so the
      ordinals are [1 .. N], and nothing else of the tile changes.
    In particular three tiles of one colour at (0,0), (500,0) and (0,500)
    get the ordinals 1, 2 and 3 in that order, whatever their order in the
    list. *)
Theorem renumberTilesByColor_spec :
  (forall tiles : list Tile.t,
     NoDup (map Tile.id tiles) ->
     length (renumberTilesByColor tiles) = length tiles
     /\ (forall k t,
           nth_error tiles k = Some t -> Tile.number t = None ->
           nth_error (renumberTilesByColor tiles) k = Some t)
     /\ (forall color,
           exists sorted,
             Permutation sorted (numberedOfColor color tiles)
             /\ StronglySorted rowMajorLe sorted
             /\ forall i t k,
                  nth_error sorted i = Some t -> nth_error tiles k = Some t ->
                  nth_error (renumberTilesByColor tiles) k
                  = Some (withNumber t (Some (label color (i + 1))))))
  /\ map Tile.number (renumberTilesByColor threeTiles)
     = [Some "0-1"; Some "0-2"; Some "0-3"]%string
  /\ map Tile.number (renumberTilesByColor (rev threeTiles))
     = [Some "0-3"; Some "0-2"; Some "0-1"]%string.
Proof.
  split; [|split; [exact renumber_threeTiles | exact renumber_threeTiles_rev]].
  intros tiles Hnd.
  assert (Hnth : forall k t, nth_error tiles k = Some t ->
            nth_error (renumberTilesByColor tiles) k
            = Some match assocGet Z.eqb
                           (mapOfEntries Z.eqb
                              (map (fun t => (Tile.id t, t))
                                 (fold_left
                                    (fun acc entry =>
                                       acc ++ renumberGroup (fst entry) (snd entry))
                                    (fold_left groupStep tiles []) [])))
                           (Tile.id t) with
                   | Some t' => t'
                   | None => t
                   end).
  { intros k t Hk. unfold renumberTilesByColor. rewrite nth_error_map, Hk. reflexivity. }
  split; [|split].
  - unfold renumberTilesByColor. apply length_map.
  - intros k t Hk Hnum. rewrite (Hnth k t Hk).
    pose proof (renumbered_lookup tiles t Hnd (nth_error_In _ _ Hk)) as Hl.
    cbv zeta in Hl. destruct (assocGet Z.eqb _ (Tile.id t)) as [t'|]; [|reflexivity].
    destruct Hl as (i & Hi & _). exfalso.
    apply nth_error_In in Hi.
    apply (Permutation_in _ (sort_perm byPosition _)) in Hi.
    unfold numberedOfColor in Hi. apply filter_In in Hi.
    rewrite Hnum in Hi. now destruct Hi.
  - intros color. exists (sort byPosition (numberedOfColor color tiles)).
    split; [apply sort_perm|]. split.
    + apply sort_sorted.
      * exact byPosition_not_gt.
      * exact byPosition_gt.
      * exact rowMajorLe_trans.
    + intros i t k Hi Hk. rewrite (Hnth k t Hk).
      pose proof (renumbered_lookup tiles t Hnd (nth_error_In _ _ Hk)) as Hl.
      cbv zeta in Hl.
      assert (Hmem : In t (numberedOfColor color tiles)).
      { apply (Permutation_in _ (sort_perm byPosition _)). now apply nth_error_In in Hi. }
      unfold numberedOfColor in Hmem. apply filter_In in Hmem.
      destruct Hmem as (_ & Hb). apply andb_true_iff in Hb. destruct Hb as (Hsome & Hc).
      apply String.eqb_eq in Hc.
      destruct (assocGet Z.eqb _ (Tile.id t)) as [t'|].
      * destruct Hl as (i' & Hi' & ->). rewrite Hc in *.
        assert (i = i') as <-; [|reflexivity].
        assert (Hnds : NoDup (sort byPosition (numberedOfColor color tiles))).
        { apply (Permutation_NoDup (Permutation_sym (sort_perm byPosition _))).
          apply NoDup_filter. now apply NoDup_map_inv in Hnd. }
        apply (proj1 (NoDup_nth_error _) Hnds).
        -- apply nth_error_Some. now rewrite Hi.
        -- now rewrite Hi, Hi'.
      * rewrite Hl in Hsome. discriminate.
Qed.

(** C3. Two numbered red tiles that share the id 101, at (0,0) and at
    (500,0), as two batches painted within the same milliseconds give them
    ([id: time + i]): the [Map] keyed by id keeps the tile renumbered last,
    so both places of the result hold the tile at (500,0) with the number
    "0-2"; the tile at (0,0) is lost and no tile carries the ordinal 1. *)
Lemma renumberTilesByColor_colliding_ids :
  map Tile.number (renumberTilesByColor collidingTiles)
  = [Some "0-2"; Some "0-2"]%string
  /\ map Tile.x (renumberTilesByColor collidingTiles) = [500; 500].
Proof. unfold collidingTiles. split; renumber_eval; reflexivity. Qed.

(** The three red tiles have distinct ids: the list keeps its length, and
    the red tiles are numbered along a row-major arrangement. *)
Lemma renumberTilesByColor_spec_witness :
  NoDup (map Tile.id threeTiles)
  /\ length (renumberTilesByColor threeTiles) = 3%nat
  /\ exists sorted,
       Permutation sorted (numberedOfColor "#ef4444" threeTiles)
       /\ StronglySorted rowMajorLe sorted
       /\ forall i t k,
            nth_error sorted i = Some t -> nth_error threeTiles k = Some t ->
            nth_error (renumberTilesByColor threeTiles) k
            = Some (withNumber t (Some (label "#ef4444" (i + 1)))).
Proof.
  assert (Hnd : NoDup (map Tile.id threeTiles)).
  { simpl. repeat constructor; simpl; intuition lia. }
  split; [exact Hnd|].
  destruct (proj1 renumberTilesByColor_spec threeTiles Hnd) as (Hlen & _ & Hcolor).
  split; [exact Hlen|]. exact (Hcolor "#ef4444"%string).
Defined.

(** ** [getSnappedPos]: polar snap *)

Lemma round_spec (v : R) :
  exists n : Z, round v = IZR n /\ v - / 2 < IZR n <= v + / 2.
Proof.
  unfold round. exists (Int_part (v + / 2)). split; [reflexivity|].
  destruct (base_Int_part (v + / 2)) as (H1 & H2). lra.
Qed.

Lemma round_is (v : R) (n : Z) : v - / 2 < IZR n <= v + / 2 -> round v = IZR n.
Proof.
  intros H. unfold round. f_equal. symmetry. apply Int_part_spec. lra.
Qed.

Lemma round_nearestMultiple (inc v : R) :
  inc <> 0 -> nearestMultiple inc v (round (v / inc) * inc).
Proof.
  intros Hinc. destruct (round_spec (v / inc)) as (n & Hn & Hb).
  exists n. split; [now rewrite Hn|]. rewrite Hn.
  replace (IZR n * inc - v) with ((IZR n - v / inc) * inc) by (field; assumption).
  rewrite Rabs_mult.
  replace (Rabs inc / 2) with (/ 2 * Rabs inc) by lra.
  apply Rmult_le_compat_r; [apply Rabs_pos|].
  apply Rabs_le. lra.
Qed.

(** *** The wrapping loops end within their fuel *)

Lemma whileAddTurn_spec (fuel : nat) (a : R) :
  - PI < a + 2 * PI * INR fuel ->
  let r := whileAddTurn fuel a in
  - PI < r /\ (r <= PI \/ r = a) /\ exists k : Z, r = a + 2 * PI * IZR k.
Proof.
  cbv zeta. revert a. induction fuel as [|f IH]; intros a Hfuel.
  - cbn [whileAddTurn]. cbn [INR] in Hfuel.
    split; [lra|]. split; [now right|]. exists 0%Z. lra.
  - cbn [whileAddTurn]. destruct (leb a (- PI)) eqn:Hc.
    + apply leb_spec in Hc. rewrite S_INR in Hfuel.
      destruct (IH (a + 2 * PI)) as (H1 & H2 & k & Hk); [lra|].
      split; [assumption|]. split.
      * left. destruct H2 as [H2 | H2]; lra.
      * exists (k + 1)%Z. rewrite plus_IZR. lra.
    + apply leb_nspec in Hc. split; [lra|]. split; [now right|]. exists 0%Z. lra.
Qed.

Lemma whileSubTurn_spec (fuel : nat) (a : R) :
  a - 2 * PI * INR fuel <= PI ->
  let r := whileSubTurn fuel a in
  r <= PI /\ (- PI < r \/ r = a) /\ exists k : Z, r = a + 2 * PI * IZR k.
Proof.
  cbv zeta. revert a. induction fuel as [|f IH]; intros a Hfuel.
  - cbn [whileSubTurn]. cbn [INR] in Hfuel.
    split; [lra|]. split; [now right|]. exists 0%Z. lra.
  - cbn [whileSubTurn]. unfold gtb. destruct (ltb PI a) eqn:Hc.
    + apply ltb_spec in Hc. rewrite S_INR in Hfuel.
      destruct (IH (a - 2 * PI)) as (H1 & H2 & k & Hk); [lra|].
      split; [assumption|]. split.
      * left. destruct H2 as [H2 | H2]; lra.
      * exists (k - 1)%Z. rewrite minus_IZR. lra.
    + apply ltb_nspec in Hc. split; [lra|]. split; [now right|]. exists 0%Z. lra.
Qed.

Lemma INR_to_nat_up (x : R) : x < INR (Z.to_nat (up x)).
Proof.
  destruct (archimed x) as (Hup & _). rewrite INR_IZR_INZ.
  destruct (Z_lt_le_dec (up x) 0) as [Hneg | Hpos].
  - assert (Z.to_nat (up x) = 0%nat) as -> by lia.
    apply IZR_lt in Hneg. cbn [Z.of_nat]. lra.
  - rewrite Z2Nat.id by assumption. lra.
Qed.

Lemma whileAddTurn_exit (a : R) :
  - PI < a + 2 * PI * INR (fuelUp a).
Proof.
  unfold fuelUp. pose proof (INR_to_nat_up ((- PI - a) / (2 * PI))) as H.
  pose proof PI_RGT_0 as Hpi.
  apply (Rmult_lt_compat_l (2 * PI)) in H; [|lra].
  replace (2 * PI * ((- PI - a) / (2 * PI))) with (- PI - a) in H by (field; lra).
  lra.
Qed.

Lemma whileSubTurn_exit (a : R) :
  a - 2 * PI * INR (fuelDown a) <= PI.
Proof.
  unfold fuelDown. pose proof (INR_to_nat_up ((a - PI) / (2 * PI))) as H.
  pose proof PI_RGT_0 as Hpi.
  apply (Rmult_lt_compat_l (2 * PI)) in H; [|lra].
  replace (2 * PI * ((a - PI) / (2 * PI))) with (a - PI) in H by (field; lra).
  lra.
Qed.

(** The two loops bring every angle into (-PI, PI], by whole turns. *)
Lemma wrapAngle_wrapsTo (a : R) : wrapsTo a (wrapAngle a).
Proof.
  unfold wrapAngle, wrapsTo.
  destruct (whileAddTurn_spec (fuelUp a) a (whileAddTurn_exit a)) as (H1 & H2 & k1 & Hk1).
  set (a1 := whileAddTurn (fuelUp a) a) in *.
  destruct (whileSubTurn_spec (fuelDown a1) a1 (whileSubTurn_exit a1))
    as (H3 & H4 & k2 & Hk2).
  split.
  - split; [|assumption]. destruct H4 as [H4 | H4]; [assumption | now rewrite H4].
  - exists (k1 + k2)%Z. rewrite Hk2, Hk1, plus_IZR. lra.
Qed.

(** An angle that is already in (-PI, PI] is left as it is. *)
Lemma wrapAngle_id (a : R) : - PI < a <= PI -> wrapAngle a = a.
Proof.
  intros (H1 & H2). unfold wrapAngle.
  assert (Ha : forall fuel, whileAddTurn fuel a = a).
  { intros [|f]; [reflexivity|]. cbn [whileAddTurn]. now rewrite leb_false. }
  rewrite Ha.
  destruct (fuelDown a) as [|f]; [reflexivity|]. cbn [whileSubTurn].
  unfold gtb. now rewrite ltb_false.
Qed.

(** *** Scenario 5 *)

Lemma cos_PI18_pos : 0 < cos (PI / 18).
Proof. pose proof PI_RGT_0. apply cos_gt_0; lra. Qed.

Lemma polarCursor_angle :
  atan2 (Pos.y polarCursor - 0) (Pos.x polarCursor - 100) = PI / 18.
Proof.
  pose proof PI_RGT_0 as Hpi. pose proof cos_PI18_pos as Hcos.
  unfold atan2, polarCursor. cbn [Pos.x Pos.y].
  rewrite ltb_true by lra.
  replace ((0 + 240 * sin (PI / 18) - 0) / (100 + 240 * cos (PI / 18) - 100))
    with (tan (PI / 18)) by (unfold tan; field; lra).
  apply atan_tan. lra.
Qed.

Lemma polarCursor_distance :
  sqrt ((Pos.x polarCursor - 100) * (Pos.x polarCursor - 100)
        + (Pos.y polarCursor - 0) * (Pos.y polarCursor - 0)) = 240.
Proof.
  apply sqrt_of_square; [lra|]. unfold polarCursor. cbn [Pos.x Pos.y].
  pose proof (sin2_cos2 (PI / 18)) as H. unfold Rsqr in H. nra.
Qed.

Lemma reference_direction : atan2 (0 - 0) (100 - 0) = 0.
Proof.
  unfold atan2. rewrite ltb_true by lra.
  replace ((0 - 0) / (100 - 0)) with 0 by lra. apply atan_0.
Qed.

(** With the reference direction 0, an angle increment of 15 degrees, the
    raw angle 10 degrees, a length increment of 100 and the raw distance
    240, the result is at 15 degrees and at distance 200 from the last
    point. *)
Lemma getSnappedPos_scenario5 :
  getSnappedPos (polarCanvas WALL) polarCursor
  = SnapResult.mk (Pos.mk (100 + 200 * cos (15 * (PI / 180)))
                          (0 + 200 * sin (15 * (PI / 180)))) extension.
Proof.
  pose proof PI_RGT_0 as Hpi.
  unfold getSnappedPos, polarCanvas, polarArea, polarSnap, at_.
  cbn [Canvas.activeArea Canvas.activeTool Canvas.activeAngleSnap Canvas.activeLengthSnap
       Area.points length Nat.ltb Nat.leb Nat.sub nth isWALL isSome andb orb
       Point.x Point.y].
  rewrite polarCursor_angle, polarCursor_distance, reference_direction.
  rewrite wrapAngle_id by lra.
  rewrite (round_is ((PI / 18 - 0) / (15 * (PI / 180))) 1).
  2:{ replace ((PI / 18 - 0) / (15 * (PI / 180))) with (2 / 3) by (field; lra). lra. }
  unfold gtb. rewrite (ltb_true 0 100) by lra.
  rewrite (round_is (240 / 100) 2) by lra.
  rewrite eqb_false by lra.
  replace (0 + IZR 1 * (15 * (PI / 180))) with (15 * (PI / 180)) by lra.
  replace (IZR 2 * 100) with 200 by lra.
  reflexivity.
Qed.

Lemma at_last (earlier : list Point.t) (lastPoint : Point.t) :
  at_ (earlier ++ [lastPoint]) (length (earlier ++ [lastPoint]) - 1) = lastPoint.
Proof.
  unfold at_. rewrite length_app. cbn [length].
  replace (length earlier + 1 - 1)%nat with (length earlier) by lia.
  now rewrite nth_middle.
Qed.

Lemma at_secondLast (earlier : list Point.t) (lastPoint : Point.t) :
  earlier <> [] ->
  at_ (earlier ++ [lastPoint]) (length (earlier ++ [lastPoint]) - 2) = last earlier origin.
Proof.
  intros Hne. destruct (exists_last Hne) as (l & z & ->).
  unfold at_. rewrite !length_app. cbn [length]. rewrite last_last.
  replace (length l + 1 + 1 - 2)%nat with (length l) by lia.
  rewrite <- app_assoc. cbn [app]. now rewrite nth_middle.
Qed.

(** C7 (amended). When the active tool is WALL, an angle or a length
    increment is set and the active area has a last placed point, the
    resolver takes the offset of the cursor from that point as a raw
    distance and a raw angle, and returns the point at distance [dist] and
    angle [angle] from the last point (type [extension]), or the last point
    itself (type [vertex]) when [dist] is exactly 0, where
    - with an angle increment (not 0) set, [angle] is the reference
      direction (that of the previous segment, 0 without one) plus the
      multiple of the increment nearest to the relative angle, the raw
      angle minus the reference brought into (-180, 180] degrees; without
      angle increment [angle] is the raw angle;
    - with a positive length increment set, [dist] is the multiple of the
      increment nearest to the raw distance; otherwise it is the raw
      distance.
    In particular, with reference direction 0, angle increment 15, raw
    relative angle 10 degrees, length increment 100 and raw distance 240,
    the result is at angle 15 degrees and distance 200 from the last
    point. *)
Theorem getSnappedPos_polar :
  (forall (c : Canvas.t) (pos : Pos.t) (area : Area.t) (earlier : list Point.t)
          (lastPoint : Point.t),
     Canvas.activeTool c = WALL ->
     Canvas.activeArea c = Some area ->
     Area.points area = earlier ++ [lastPoint] ->
     Canvas.activeAngleSnap c <> None \/ Canvas.activeLengthSnap c <> None ->
     let dx := Pos.x pos - Point.x lastPoint in
     let dy := Pos.y pos - Point.y lastPoint in
     let rawAngle := atan2 dy dx in
     let rawDistance := sqrt (dx * dx + dy * dy) in
     let reference :=
       match earlier with
       | [] => 0
       | _ :: _ =>
           atan2 (Point.y lastPoint - Point.y (last earlier origin))
                 (Point.x lastPoint - Point.x (last earlier origin))
       end in
     exists angle dist : R,
       match Canvas.activeAngleSnap c with
       | Some increment =>
           increment <> 0 ->
           exists relative snapped,
             wrapsTo (rawAngle - reference) relative
             /\ nearestMultiple (increment * (PI / 180)) relative snapped
             /\ angle = reference + snapped
       | None => angle = rawAngle
       end
       /\ match Canvas.activeLengthSnap c with
          | Some increment =>
              (0 < increment -> nearestMultiple increment rawDistance dist)
              /\ (increment <= 0 -> dist = rawDistance)
          | None => dist = rawDistance
          end
       /\ (dist = 0 -> getSnappedPos c pos = SnapResult.mk lastPoint vertex)
       /\ (dist <> 0 ->
           getSnappedPos c pos
           = SnapResult.mk
               (Pos.mk (Point.x lastPoint + dist * cos angle)
                       (Point.y lastPoint + dist * sin angle))
               extension))
  /\ getSnappedPos (polarCanvas WALL) polarCursor
     = SnapResult.mk (Pos.mk (100 + 200 * cos (15 * (PI / 180)))
                             (0 + 200 * sin (15 * (PI / 180)))) extension.
Proof.
  split; [|exact getSnappedPos_scenario5].
  intros c pos area earlier lastPoint Htool Harea Hpoints Hpolar. cbv zeta.
  assert (Hget : getSnappedPos c pos = polarSnap c (earlier ++ [lastPoint]) lastPoint pos).
  { unfold getSnappedPos. rewrite Harea, Hpoints, Htool, at_last.
    assert (Hlen : (0 <? length (earlier ++ [lastPoint]))%nat = true).
    { apply Nat.ltb_lt. rewrite length_app. cbn [length]. lia. }
    rewrite Hlen. cbn [isWALL andb].
    destruct (Canvas.activeAngleSnap c), (Canvas.activeLengthSnap c);
      try reflexivity.
    destruct Hpolar as [H | H]; now elim H. }
  rewrite Hget. unfold polarSnap.
  assert (Hbase :
            (if (2 <=? length (earlier ++ [lastPoint]))%nat
             then atan2 (Point.y lastPoint
                         - Point.y (at_ (earlier ++ [lastPoint])
                                      (length (earlier ++ [lastPoint]) - 2)))
                        (Point.x lastPoint
                         - Point.x (at_ (earlier ++ [lastPoint])
                                      (length (earlier ++ [lastPoint]) - 2)))
             else 0)
            = match earlier with
              | [] => 0
              | _ :: _ =>
                  atan2 (Point.y lastPoint - Point.y (last earlier origin))
                        (Point.x lastPoint - Point.x (last earlier origin))
              end).
  { destruct earlier as [|e r]; [reflexivity|].
    rewrite at_secondLast by discriminate.
    assert (Hlen : (2 <=? length ((e :: r) ++ [lastPoint]))%nat = true).
    { apply Nat.leb_le. rewrite length_app. cbn [length]. lia. }
    now rewrite Hlen. }
  rewrite Hbase. clear Hbase.
  set (reference := match earlier with [] => 0 | _ :: _ => _ end).
  set (dx := Pos.x pos - Point.x lastPoint).
  set (dy := Pos.y pos - Point.y lastPoint).
  set (angle := match Canvas.activeAngleSnap c with Some _ => _ | None => _ end).
  set (dist := match Canvas.activeLengthSnap c with Some _ => _ | None => _ end).
  exists angle, dist. split; [|split; [|split]].
  - unfold angle. destruct (Canvas.activeAngleSnap c) as [increment|]; [|reflexivity].
    intros Hinc. eexists. eexists. split; [apply wrapAngle_wrapsTo|].
    split; [|reflexivity].
    apply round_nearestMultiple. pose proof PI_RGT_0. nra.
  - unfold dist. destruct (Canvas.activeLengthSnap c) as [increment|]; [|reflexivity].
    unfold gtb. split.
    + intros Hpos. rewrite (ltb_true _ _ Hpos). apply round_nearestMultiple. lra.
    + intros Hneg. now rewrite (ltb_false _ _ Hneg).
  - intros Hzero. now rewrite (eqb_true _ _ Hzero).
  - intros Hnz. now rewrite (eqb_false _ _ Hnz).
Qed.

Lemma getSnappedPos_polar_witness :
  exists angle dist : R,
    nearestMultiple 100 240 dist
    /\ (dist <> 0 ->
        getSnappedPos (polarCanvas WALL) polarCursor
        = SnapResult.mk (Pos.mk (100 + dist * cos angle) (0 + dist * sin angle))
            extension).
Proof.
  destruct (proj1 getSnappedPos_polar (polarCanvas WALL) polarCursor polarArea
              [Point.mk 1 0 0] (Point.mk 2 100 0))
    as (angle & dist & _ & Hdist & _ & Hres).
  - reflexivity.
  - reflexivity.
  - reflexivity.
  - left. discriminate.
  - exists angle, dist. cbn [polarCanvas Canvas.activeLengthSnap] in Hdist.
    cbn [Point.x Point.y] in Hdist, Hres. rewrite polarCursor_distance in Hdist.
    split; [|exact Hres]. apply Hdist. lra.
Defined.

(** C7 (counterexample). Both polar increments are set and the active area
    has a last placed point, but the active tool is MOVE (a point is being
    dragged): the resolver takes the ordinary path and returns the raw
    cursor position, of type [none], not the point at 15 degrees and
    distance 200. *)
Lemma getSnappedPos_polar_needs_wall :
  Canvas.activeAngleSnap (polarCanvas MOVE) = Some 15
  /\ Canvas.activeLengthSnap (polarCanvas MOVE) = Some 100
  /\ option_map Area.points (Canvas.activeArea (polarCanvas MOVE))
     = Some [Point.mk 1 0 0; Point.mk 2 100 0]
  /\ getSnappedPos (polarCanvas MOVE) polarCursor = SnapResult.mk polarCursor none
  /\ getSnappedPos (polarCanvas MOVE) polarCursor
     <> SnapResult.mk (Pos.mk (100 + 200 * cos (15 * (PI / 180)))
                             (0 + 200 * sin (15 * (PI / 180)))) extension.
Proof.
  assert (H : getSnappedPos (polarCanvas MOVE) polarCursor
              = SnapResult.mk polarCursor none) by reflexivity.
  repeat split; try reflexivity. rewrite H. discriminate.
Qed.

(** ** [handleCut]: the packing of the offcuts *)

(** *** The store *)

Lemma updateAt_length {A : Type} (l : list A) (i : nat) (f : A -> A) :
  length (updateAt l i f) = length l.
Proof.
  revert i. induction l as [|a r IH]; intros [|i]; cbn [updateAt length];
    try reflexivity. now rewrite IH.
Qed.

Lemma updateAt_same {A : Type} (l : list A) (i : nat) (f : A -> A) :
  nth_error (updateAt l i f) i = option_map f (nth_error l i).
Proof.
  revert i. induction l as [|a r IH]; intros [|i]; cbn [updateAt nth_error option_map];
    try reflexivity. apply IH.
Qed.

Lemma updateAt_other {A : Type} (l : list A) (i j : nat) (f : A -> A) :
  i <> j -> nth_error (updateAt l i f) j = nth_error l j.
Proof.
  revert i j. induction l as [|a r IH]; intros [|i] [|j] H; cbn [updateAt nth_error];
    try reflexivity; try lia. apply IH. lia.
Qed.

Lemma updateAt_tilesOf (store : list CutTilePiece.t) (i : nat) (px py : R) :
  tilesOf (updateAt store i (fun piece => setPosition piece px py)) = tilesOf store.
Proof.
  revert i. induction store as [|a r IH]; intros [|i]; cbn [updateAt tilesOf map];
    try reflexivity. unfold tilesOf in IH. now rewrite IH.
Qed.

(** The tile behind a reference depends on the tiles of the store only. *)
Lemma deref_tile (store : list CutTilePiece.t) (ref : nat) :
  CutTilePiece.originalTile (deref store ref)
  = nth ref (tilesOf store) (CutTilePiece.originalTile blankPiece).
Proof. unfold deref, tilesOf. now rewrite map_nth. Qed.

Lemma deref_tile_eq (s s' : list CutTilePiece.t) (ref : nat) :
  tilesOf s = tilesOf s' ->
  CutTilePiece.originalTile (deref s ref) = CutTilePiece.originalTile (deref s' ref).
Proof. intros H. now rewrite !deref_tile, H. Qed.

(** *** One row *)

Lemma placeStep_fold (PADDING currentY : R) (refs : list nat) :
  forall (store : list CutTilePiece.t) (currentX : R),
    NoDup refs ->
    let store' := fst (fold_left (placeStep PADDING currentY) refs (store, currentX)) in
    tilesOf store' = tilesOf store
    /\ length store' = length store
    /\ (forall i, ~ In i refs -> nth_error store' i = nth_error store i)
    /\ (forall j ref,
          nth_error refs j = Some ref ->
          nth_error store' ref
          = option_map
              (fun piece =>
                 setPosition piece (currentX + xOffset store PADDING refs j) currentY)
              (nth_error store ref)).
Proof.
  induction refs as [|r0 rest IH]; intros store currentX Hnd; cbv zeta.
  - cbn [fold_left fst]. repeat split; try reflexivity.
    intros j ref Hj. now destruct j.
  - pose (store1 := updateAt store r0 (fun piece => setPosition piece currentX currentY)).
    pose (x1 := currentX
                + (Tile.width (CutTilePiece.originalTile (deref store r0)) + PADDING)).
    change (fold_left (placeStep PADDING currentY) (r0 :: rest) (store, currentX))
      with (fold_left (placeStep PADDING currentY) rest (store1, x1)).
    inversion Hnd as [|? ? Hnotin Hnd']; subst.
    destruct (IH store1 x1 Hnd') as (Ht & Hl & Hout & Hin). cbv zeta in *.
    assert (Ht1 : tilesOf store1 = tilesOf store) by apply updateAt_tilesOf.
    split; [now rewrite Ht|]. split; [rewrite Hl; apply updateAt_length|].
    split.
    + intros i Hi. rewrite Hout by (intros H; apply Hi; now right).
      apply updateAt_other. intros ->. apply Hi. now left.
    + intros [|j] ref Hj; cbn [nth_error] in Hj.
      * injection Hj as <-. rewrite Hout by assumption. unfold store1.
        rewrite updateAt_same. unfold xOffset. cbn [firstn map sumR fold_right].
        now rewrite Rplus_0_r.
      * rewrite (Hin j ref Hj).
        assert (Hne : r0 <> ref).
        { intros ->. apply Hnotin. now apply nth_error_In in Hj. }
        unfold store1 at 2. rewrite updateAt_other by assumption.
        assert (Hx : x1 + xOffset store1 PADDING rest j
                     = currentX + xOffset store PADDING (r0 :: rest) (S j)).
        { unfold x1, xOffset. cbn [firstn map sumR fold_right].
          fold (sumR (map (fun ref0 =>
                             Tile.width (CutTilePiece.originalTile (deref store ref0))
                             + PADDING) (firstn j rest))).
          replace (sumR (map (fun ref0 =>
                                Tile.width (CutTilePiece.originalTile (deref store1 ref0))
                                + PADDING) (firstn j rest)))
            with (sumR (map (fun ref0 =>
                               Tile.width (CutTilePiece.originalTile (deref store ref0))
                               + PADDING) (firstn j rest))).
          - ring.
          - f_equal. apply map_ext. intros a.
            now rewrite (deref_tile_eq store1 store a Ht1). }
        now rewrite Hx.
Qed.

(** *** The groups of offcuts *)

Lemma groupOffcuts_groupBy (store : list CutTilePiece.t) :
  groupOffcuts store
  = fold_left
      (groupBy (fun ref => CutTilePiece.isOffcut (deref store ref))
         (fun ref => Tile.color (CutTilePiece.originalTile (deref store ref))))
      (seq 0 (length store)) [].
Proof. reflexivity. Qed.

Lemma groupOffcuts_get (store : list CutTilePiece.t) (color : string) :
  match assocGet String.eqb (groupOffcuts store) color with
  | Some ps => ps
  | None => []
  end = offcutRefs store color.
Proof.
  rewrite groupOffcuts_groupBy, groupBy_get. unfold offcutRefs, keptOfKey.
  now destruct (filter _ _).
Qed.

Lemma offcutRefs_NoDup (store : list CutTilePiece.t) (color : string) :
  NoDup (offcutRefs store color).
Proof. unfold offcutRefs. apply NoDup_filter, seq_NoDup. Qed.

Lemma offcutRefs_disjoint (store : list CutTilePiece.t) (c c' : string) (ref : nat) :
  In ref (offcutRefs store c) -> In ref (offcutRefs store c') -> c = c'.
Proof.
  unfold offcutRefs. rewrite !filter_In. intros (_ & H) (_ & H').
  apply andb_true_iff in H, H'. destruct H as (_ & H), H' as (_ & H').
  apply String.eqb_eq in H, H'. congruence.
Qed.

Lemma offcutRefs_spec (store : list CutTilePiece.t) (color : string) (ref : nat) :
  In ref (offcutRefs store color)
  <-> exists piece,
        nth_error store ref = Some piece
        /\ CutTilePiece.isOffcut piece = true
        /\ Tile.color (CutTilePiece.originalTile piece) = color.
Proof.
  unfold offcutRefs. rewrite filter_In, in_seq, andb_true_iff, String.eqb_eq.
  unfold deref. split.
  - intros ((_ & Hlt) & Hoff & Hcol). cbn [Nat.add] in Hlt.
    destruct (nth_error store ref) as [piece|] eqn:Hn.
    + exists piece. rewrite (nth_error_nth _ _ _ Hn) in Hoff, Hcol. now repeat split.
    + apply nth_error_None in Hn. lia.
  - intros (piece & Hn & Hoff & Hcol). rewrite (nth_error_nth _ _ _ Hn).
    repeat split; try assumption; try lia.
    cbn [Nat.add]. apply nth_error_Some. now rewrite Hn.
Qed.

(** *** Sorting by a comparison that reads the tiles only *)

Lemma sort_ext {A : Type} (f g : A -> A -> R) (l : list A) :
  (forall a b, f a b = g a b) -> sort f l = sort g l.
Proof.
  intros H. induction l as [|a r IH]; [reflexivity|].
  cbn [sort fold_right]. fold (sort f r). fold (sort g r). rewrite IH.
  generalize (sort g r). intros s. induction s as [|b s IHs]; [reflexivity|].
  cbn [insertSorted]. now rewrite H, IHs.
Qed.

Lemma byOrdinal_tiles (s s' : list CutTilePiece.t) (a b : nat) :
  tilesOf s = tilesOf s' -> byOrdinal s a b = byOrdinal s' a b.
Proof.
  intros H. unfold byOrdinal.
  now rewrite (deref_tile_eq s s' a H), (deref_tile_eq s s' b H).
Qed.

Lemma xOffset_tiles (s s' : list CutTilePiece.t) (PADDING : R) (refs : list nat) (j : nat) :
  tilesOf s = tilesOf s' -> xOffset s PADDING refs j = xOffset s' PADDING refs j.
Proof.
  intros H. unfold xOffset. f_equal. apply map_ext. intros a.
  now rewrite (deref_tile_eq s s' a H).
Qed.

Lemma rowRefs_perm (store : list CutTilePiece.t) (color : string) :
  Permutation (rowRefs store color) (offcutRefs store color).
Proof. apply sort_perm. Qed.

(** *** All rows *)

Lemma rowStep_fold (all : list CutTilePiece.t) (minX PADDING : R) (colors : list string) :
  forall (store : list CutTilePiece.t) (currentY : R),
    NoDup colors ->
    tilesOf store = tilesOf all ->
    let store' :=
      fst (fold_left (rowStep (groupOffcuts all) minX PADDING) colors (store, currentY)) in
    tilesOf store' = tilesOf all
    /\ length store' = length store
    /\ (forall i, (forall c, In c colors -> ~ In i (offcutRefs all c)) ->
                  nth_error store' i = nth_error store i)
    /\ (forall r color j ref,
          nth_error colors r = Some color ->
          nth_error (rowRefs all color) j = Some ref ->
          nth_error store' ref
          = option_map
              (fun piece =>
                 setPosition piece
                   (minX + xOffset all PADDING (rowRefs all color) j)
                   (currentY + yOffset all PADDING colors r))
              (nth_error store ref)).
Proof.
  induction colors as [|c0 rest IH]; intros store currentY Hnd Htiles; cbv zeta.
  - cbn [fold_left fst]. repeat split; try assumption; try reflexivity.
    intros r color j ref Hr. now destruct r.
  - assert (Hstep : rowStep (groupOffcuts all) minX PADDING (store, currentY) c0
                    = (fst (fold_left (placeStep PADDING currentY) (rowRefs all c0)
                              (store, minX)),
                       currentY + (rowHeight all c0 + PADDING * 2))).
    { unfold rowStep. rewrite groupOffcuts_get.
      rewrite (sort_ext (byOrdinal store) (byOrdinal all))
        by (intros a b; now apply byOrdinal_tiles).
      fold (rowRefs all c0).
      destruct (fold_left (placeStep PADDING currentY) (rowRefs all c0) (store, minX))
        as [s1 x1]. cbn [fst]. f_equal. f_equal. f_equal. unfold rowHeight.
      f_equal. apply map_ext. intros a. now rewrite (deref_tile_eq store all a Htiles). }
    cbn [fold_left]. rewrite Hstep.
    set (store1 := fst (fold_left (placeStep PADDING currentY) (rowRefs all c0)
                          (store, minX))).
    assert (Hnd0 : NoDup (rowRefs all c0)).
    { apply (Permutation_NoDup (Permutation_sym (rowRefs_perm all c0))).
      apply offcutRefs_NoDup. }
    destruct (placeStep_fold PADDING currentY (rowRefs all c0) store minX Hnd0)
      as (Ht1 & Hl1 & Hout1 & Hin1). cbv zeta in *. fold store1 in Ht1, Hl1, Hout1, Hin1.
    inversion Hnd as [|? ? Hnotin Hnd']; subst.
    destruct (IH store1 (currentY + (rowHeight all c0 + PADDING * 2)) Hnd')
      as (Ht & Hl & Hout & Hin); [now rewrite Ht1|]. cbv zeta in *.
    split; [assumption|]. split; [now rewrite Hl|]. split.
    + intros i Hi. rewrite Hout by (intros c Hc; apply Hi; now right).
      apply Hout1. intros H. apply (Hi c0); [now left|].
      now apply (Permutation_in _ (rowRefs_perm all c0)).
    + intros [|r] color j ref Hr Hj; cbn [nth_error] in Hr.
      * injection Hr as <-.
        rewrite Hout.
        -- rewrite (Hin1 j ref Hj). unfold yOffset. cbn [firstn map sumR fold_right].
           rewrite Rplus_0_r. now rewrite (xOffset_tiles store all) by assumption.
        -- intros c Hc Href. apply Hnotin.
           assert (c0 = c) as ->; [|assumption].
           apply (offcutRefs_disjoint all c0 c ref); [|assumption].
           apply (Permutation_in _ (rowRefs_perm all c0)). now apply nth_error_In in Hj.
      * rewrite (Hin r color j ref Hr Hj).
        rewrite Hout1.
        -- f_equal.
           assert (Hy : currentY + (rowHeight all c0 + PADDING * 2)
                        + yOffset all PADDING rest r
                        = currentY + yOffset all PADDING (c0 :: rest) (S r)).
           { unfold yOffset. cbn [firstn map sumR fold_right].
             fold (sumR (map (fun color0 => rowHeight all color0 + PADDING * 2)
                           (firstn r rest))). ring. }
           now rewrite Hy.
        -- intros Href. apply Hnotin.
           assert (c0 = color) as ->; [|now apply nth_error_In in Hr].
           apply (offcutRefs_disjoint all c0 color ref).
           ++ now apply (Permutation_in _ (rowRefs_perm all c0)).
           ++ apply (Permutation_in _ (rowRefs_perm all color)).
              now apply nth_error_In in Hj.
Qed.

(** *** The packing moves pieces and changes nothing else *)

Lemma updateAt_geometry (store : list CutTilePiece.t) (i : nat) (px py : R) :
  map geometryOf (updateAt store i (fun piece => setPosition piece px py))
  = map geometryOf store.
Proof.
  revert i. induction store as [|a r IH]; intros [|i]; cbn [updateAt map];
    try reflexivity. now rewrite IH.
Qed.

Lemma placeStep_geometry (PADDING currentY : R) (refs : list nat) :
  forall (store : list CutTilePiece.t) (currentX : R),
    map geometryOf (fst (fold_left (placeStep PADDING currentY) refs (store, currentX)))
    = map geometryOf store.
Proof.
  induction refs as [|r0 rest IH]; intros store currentX; [reflexivity|].
  cbn [fold_left]. unfold placeStep at 2. rewrite IH. apply updateAt_geometry.
Qed.

Lemma packOffcuts_geometry (areas : list Area.t) (tiles : list Tile.t)
    (tileDimensions : TileDimensions.t) (allNewCutPieces : list CutTilePiece.t) :
  map geometryOf (packOffcuts areas tiles tileDimensions allNewCutPieces)
  = map geometryOf allNewCutPieces.
Proof.
  unfold packOffcuts.
  generalize (maxYOf (allPointsOf areas tiles)
              + TileDimensions.width tileDimensions / 2 * 3).
  generalize (sort byPalette (map fst (groupOffcuts allNewCutPieces))).
  generalize (groupOffcuts allNewCutPieces).
  intros G colors. generalize allNewCutPieces.
  induction colors as [|c rest IH]; intros store y; [reflexivity|].
  cbn [fold_left]. unfold rowStep at 2.
  destruct (fold_left _ (sort _ _) (store, _)) as [s1 x1] eqn:Hrow.
  rewrite IH. change s1 with (fst (s1, x1)). rewrite <- Hrow.
  apply placeStep_geometry.
Qed.

(** The pieces that [handleCut] hands over are the pieces of the tiles, one
    tile after the other, moved by the packing. *)
Lemma handleCut_pieces (areas : list Area.t) (tiles : list Tile.t)
    (tileDimensions : TileDimensions.t) :
  let correctedAreas :=
    map (fun area =>
           if isPolygonClockwise (Area.points area)
           then withPoints area (rev (Area.points area))
           else area)
      (filter (fun a => Area.isClosed a && Area.isVisible a) areas) in
  match handleCut areas tiles tileDimensions with
  | CutAlert => True
  | CutWastePrompt pieces _ | CutView pieces =>
      map geometryOf pieces = map geometryOf (flat_map (cutTile correctedAreas) tiles)
  end.
Proof.
  cbv zeta. unfold handleCut.
  destruct (_ || _); [exact I|].
  rewrite fold_left_app_flat_map. cbn [app].
  destruct (0 <? _)%nat; apply packOffcuts_geometry.
Qed.

(** *** The order of the rows and of the pieces *)

Lemma byPalette_not_gt (a b : string) :
  gtb (byPalette a b) 0 = false -> (indexOf TILE_COLORS a <= indexOf TILE_COLORS b)%Z.
Proof.
  unfold byPalette, gtb. intros H. apply ltb_nspec in H. apply le_IZR in H. lia.
Qed.

Lemma byPalette_gt (a b : string) :
  gtb (byPalette a b) 0 = true -> (indexOf TILE_COLORS b <= indexOf TILE_COLORS a)%Z.
Proof.
  unfold byPalette, gtb. intros H. apply ltb_spec in H. apply lt_IZR in H. lia.
Qed.

Lemma ordinalOf_deref (store : list CutTilePiece.t) (ref : nat) :
  Forall (fun piece => ordinalOf (CutTilePiece.originalTile piece) <> None) store ->
  ordinalOf (CutTilePiece.originalTile (deref store ref)) <> None.
Proof.
  intros H. unfold deref. destruct (nth_error store ref) as [piece|] eqn:Hn.
  - rewrite (nth_error_nth _ _ _ Hn). rewrite Forall_forall in H.
    apply H. now apply nth_error_In in Hn.
  - apply nth_error_None in Hn. rewrite nth_overflow by assumption. discriminate.
Qed.

Lemma byOrdinal_not_gt (store : list CutTilePiece.t) (a b : nat) :
  Forall (fun piece => ordinalOf (CutTilePiece.originalTile piece) <> None) store ->
  gtb (byOrdinal store a b) 0 = false -> (ordinalKey store a <= ordinalKey store b)%Z.
Proof.
  intros Hp. pose proof (ordinalOf_deref store a Hp) as Ha.
  pose proof (ordinalOf_deref store b Hp) as Hb.
  unfold byOrdinal, ordinalKey, gtb.
  destruct (ordinalOf _) as [na|]; [|now elim Ha].
  destruct (ordinalOf _) as [nb|]; [|now elim Hb].
  intros H. apply ltb_nspec in H. apply le_IZR in H. lia.
Qed.

(** *** The bounding box *)

Lemma fold_left_Rmin_le (l : list R) (a : R) :
  fold_left Rmin l a <= a /\ forall v, In v l -> fold_left Rmin l a <= v.
Proof.
  revert a. induction l as [|b r IH]; intros a; cbn [fold_left].
  - split; [lra | contradiction].
  - destruct (IH (Rmin a b)) as (H1 & H2).
    pose proof (Rmin_l a b). pose proof (Rmin_r a b).
    split; [lra|]. intros v [<- | Hv]; [lra | now apply H2].
Qed.

Lemma fold_left_Rmax_ge (l : list R) (a : R) :
  a <= fold_left Rmax l a /\ forall v, In v l -> v <= fold_left Rmax l a.
Proof.
  revert a. induction l as [|b r IH]; intros a; cbn [fold_left].
  - split; [lra | contradiction].
  - destruct (IH (Rmax a b)) as (H1 & H2).
    pose proof (Rmax_l a b). pose proof (Rmax_r a b).
    split; [lra|]. intros v [<- | Hv]; [lra | now apply H2].
Qed.

Lemma boundingBox (allPoints : list Pos.t) (p : Pos.t) :
  In p allPoints -> minXOf allPoints <= Pos.x p /\ Pos.y p <= maxYOf allPoints.
Proof.
  intros Hp. unfold minXOf, maxYOf.
  destruct allPoints as [|q rest]; [contradiction|].
  cbn [length Nat.ltb Nat.leb map minOf maxOf].
  destruct (fold_left_Rmin_le (map Pos.x rest) (Pos.x q)) as (H1 & H2).
  destruct (fold_left_Rmax_ge (map Pos.y rest) (Pos.y q)) as (H3 & H4).
  destruct Hp as [<- | Hp]; [now split|].
  split; [apply H2 | apply H4]; now apply in_map.
Qed.

Lemma fold_left_Rmin_In (l : list R) (a : R) : In (fold_left Rmin l a) (a :: l).
Proof.
  revert a. induction l as [|b r IH]; intros a; cbn [fold_left]; [now left|].
  destruct (IH (Rmin a b)) as [H | H]; [|right; now right].
  rewrite <- H. unfold Rmin. destruct (Rle_dec a b); [now left | right; now left].
Qed.

Lemma fold_left_Rmax_In (l : list R) (a : R) : In (fold_left Rmax l a) (a :: l).
Proof.
  revert a. induction l as [|b r IH]; intros a; cbn [fold_left]; [now left|].
  destruct (IH (Rmax a b)) as [H | H]; [|right; now right].
  rewrite <- H. unfold Rmax. destruct (Rle_dec a b); [right; now left | now left].
Qed.

(** The bounds are coordinates of points. *)
Lemma boundingBox_attained (allPoints : list Pos.t) :
  allPoints <> [] ->
  (exists p, In p allPoints /\ Pos.x p = minXOf allPoints)
  /\ (exists p, In p allPoints /\ Pos.y p = maxYOf allPoints).
Proof.
  intros Hne. unfold minXOf, maxYOf.
  destruct allPoints as [|q rest]; [now elim Hne|].
  cbn [length Nat.ltb Nat.leb minOf maxOf map].
  split.
  - pose proof (fold_left_Rmin_In (map Pos.x rest) (Pos.x q)) as H.
    change (Pos.x q :: map Pos.x rest) with (map Pos.x (q :: rest)) in H.
    apply in_map_iff in H. destruct H as (p & Hp & Hin). now exists p.
  - pose proof (fold_left_Rmax_In (map Pos.y rest) (Pos.y q)) as H.
    change (Pos.y q :: map Pos.y rest) with (map Pos.y (q :: rest)) in H.
    apply in_map_iff in H. destruct H as (p & Hp & Hin). now exists p.
Qed.

(** *** The sort keeps the order of equal elements *)

Section StableSort.
Context {A : Type} (compare : A -> A -> R) (before le : A -> A -> Prop).
Hypothesis le_of_not_gt : forall a b, before a b -> gtb (compare a b) 0 = false -> le a b.
Hypothesis le_of_gt : forall a b, gtb (compare a b) 0 = true -> le b a.
Hypothesis le_trans : forall a b c, le a b -> le b c -> le a c.

Lemma insertSorted_stable (a : A) (l : list A) :
  Forall (before a) l -> StronglySorted le l ->
  StronglySorted le (insertSorted compare a l).
Proof.
  induction l as [|b r IH]; intros Hbefore Hs; cbn [insertSorted].
  - repeat constructor.
  - apply StronglySorted_inv in Hs. destruct Hs as (Hr & Hb).
    apply Forall_cons_iff in Hbefore. destruct Hbefore as (Hab & Har).
    destruct (gtb (compare a b) 0) eqn:Hc.
    + constructor; [now apply IH|].
      apply (Permutation_Forall (Permutation_sym (insertSorted_perm compare a r))).
      constructor; [now apply le_of_gt | assumption].
    + constructor; [now constructor|].
      constructor; [now apply le_of_not_gt|].
      apply Forall_impl with (P := le b); [|assumption].
      intros c Hbc. apply le_trans with b; [now apply le_of_not_gt | assumption].
Qed.

Lemma sort_stable (l : list A) :
  StronglySorted before l -> StronglySorted le (sort compare l).
Proof.
  induction l as [|a r IH]; intros Hs; cbn [sort fold_right]; [constructor|].
  apply StronglySorted_inv in Hs. destruct Hs as (Hr & Ha).
  apply insertSorted_stable; [|now apply IH].
  apply (Permutation_Forall (Permutation_sym (sort_perm compare r))). exact Ha.
Qed.
End StableSort.

Lemma seq_ascending (n start : nat) : StronglySorted lt (seq start n).
Proof.
  revert start. induction n as [|n IH]; intros start; cbn [seq]; constructor.
  - apply IH.
  - apply Forall_forall. intros k Hk. apply in_seq in Hk. lia.
Qed.

Lemma filter_ascending (f : nat -> bool) (l : list nat) :
  StronglySorted lt l -> StronglySorted lt (filter f l).
Proof.
  induction l as [|a r IH]; intros Hs; cbn [filter]; [constructor|].
  apply StronglySorted_inv in Hs. destruct Hs as (Hr & Ha).
  destruct (f a); [|now apply IH].
  constructor; [now apply IH|].
  apply Forall_forall. intros k Hk. apply filter_In in Hk.
  rewrite Forall_forall in Ha. now apply Ha.
Qed.

Lemma safeOrdinal_parses (store : list CutTilePiece.t) :
  forallb safeOrdinal store = true ->
  Forall (fun piece => ordinalOf (CutTilePiece.originalTile piece) <> None) store.
Proof.
  intros H. apply Forall_forall. intros piece Hin.
  rewrite forallb_forall in H. specialize (H piece Hin). unfold safeOrdinal in H.
  destruct (ordinalOf _); [discriminate | discriminate H].
Qed.

Lemma byOrdinal_after (store : list CutTilePiece.t) (a b : nat) :
  gtb (byOrdinal store a b) 0 = true -> (ordinalKey store b < ordinalKey store a)%Z.
Proof.
  unfold byOrdinal, ordinalKey, gtb.
  destruct (ordinalOf _) as [na|]; [|intros H; apply ltb_spec in H; lra].
  destruct (ordinalOf _) as [nb|]; [|intros H; apply ltb_spec in H; lra].
  intros H. apply ltb_spec in H. apply lt_IZR in H. lia.
Qed.

(** With ordinals that parse, a row is in the order of the ordinals, and
    pieces of equal ordinal keep the order of the store. *)
Lemma rowRefs_rowOrder (store : list CutTilePiece.t) (color : string) :
  Forall (fun piece => ordinalOf (CutTilePiece.originalTile piece) <> None) store ->
  StronglySorted (rowOrder store) (rowRefs store color).
Proof.
  intros Hparse. unfold rowRefs.
  apply (sort_stable (byOrdinal store) lt (rowOrder store)).
  - intros a b Hab Hc. pose proof (byOrdinal_not_gt store a b Hparse Hc).
    unfold rowOrder. lia.
  - intros a b Hc. pose proof (byOrdinal_after store a b Hc). unfold rowOrder. lia.
  - unfold rowOrder. intros a b c. lia.
  - unfold offcutRefs. apply filter_ascending, seq_ascending.
Qed.

(** *** The running coordinates *)

Lemma fold_left_plus {A : Type} (g : A -> R) (l : list A) (a : R) :
  fold_left (fun acc v => acc + g v) l a = a + sumR (map g l).
Proof.
  revert a. induction l as [|b r IH]; intros a; cbn [fold_left map sumR fold_right].
  - now rewrite Rplus_0_r.
  - rewrite IH. unfold sumR. ring.
Qed.

Lemma xAt_xOffset (store : list CutTilePiece.t) (PADDING minX : R) (refs : list nat)
    (j : nat) :
  xAt store PADDING minX refs j = minX + xOffset store PADDING refs j.
Proof. unfold xAt, xOffset. apply fold_left_plus. Qed.

Lemma yAt_yOffset (store : list CutTilePiece.t) (PADDING startY : R)
    (colors : list string) (r : nat) :
  yAt store PADDING startY colors r = startY + yOffset store PADDING colors r.
Proof.
  unfold yAt, yOffset.
  apply (fold_left_plus (fun color => rowHeight store color + PADDING * 2)).
Qed.

(** C8 (amended). The deterministic packing of the offcuts:
    - there is one row per colour that has offcuts, the rows in the order
      of the palette;
    - the row of a colour holds the offcuts of that colour;
    - [minX] and [maxY] are the left and the lower side of the bounding box
      of all area points and tile corners: no point is beyond them, and
      some point lies on each (both are 0 when there is no point);
    - the pieces that are not offcuts stay where they are, nothing but the
      position of a piece changes, and no piece is added or lost;
    - when the ordinal of every tile parses, to an integer of magnitude at
      most 2^53, a row is ordered by the ordinal of the tiles, pieces of
      equal ordinal in the order of [allNewCutPieces]; and with [PADDING]
      half a nominal tile width, the first row is at
      [y = maxY + 3 * PADDING] (not [maxY + PADDING]), every row starts at
      [x = minX], in a row every piece is followed by its tile width and a
      gap of [PADDING], and each row is followed by the tallest tile height
      of that row (at least 0) plus [2 * PADDING]. *)
Theorem packOffcuts_layout (areas : list Area.t) (tiles : list Tile.t)
    (tileDimensions : TileDimensions.t) (allNewCutPieces : list CutTilePiece.t) :
  let placed := packOffcuts areas tiles tileDimensions allNewCutPieces in
  let PADDING := TileDimensions.width tileDimensions / 2 in
  let allPoints := allPointsOf areas tiles in
  let minX := minXOf allPoints in
  let maxY := maxYOf allPoints in
  let sortedColors := sort byPalette (map fst (groupOffcuts allNewCutPieces)) in
  (forall color, In color sortedColors <-> offcutRefs allNewCutPieces color <> [])
  /\ NoDup sortedColors
  /\ StronglySorted
       (fun a b => (indexOf TILE_COLORS a <= indexOf TILE_COLORS b)%Z) sortedColors
  /\ (forall color,
        Permutation (rowRefs allNewCutPieces color) (offcutRefs allNewCutPieces color))
  /\ (forall p, In p allPoints -> minX <= Pos.x p /\ Pos.y p <= maxY)
  /\ (allPoints <> [] ->
      (exists p, In p allPoints /\ Pos.x p = minX)
      /\ (exists p, In p allPoints /\ Pos.y p = maxY))
  /\ (allPoints = [] -> minX = 0 /\ maxY = 0)
  /\ (forall i piece,
        nth_error allNewCutPieces i = Some piece ->
        CutTilePiece.isOffcut piece = false ->
        nth_error placed i = Some piece)
  /\ map geometryOf placed = map geometryOf allNewCutPieces
  /\ length placed = length allNewCutPieces
  /\ (forallb safeOrdinal allNewCutPieces = true ->
      (forall color,
         StronglySorted (rowOrder allNewCutPieces) (rowRefs allNewCutPieces color))
      /\ (forall r color j ref,
            nth_error sortedColors r = Some color ->
            nth_error (rowRefs allNewCutPieces color) j = Some ref ->
            exists piece,
              nth_error allNewCutPieces ref = Some piece
              /\ nth_error placed ref
                 = Some (setPosition piece
                           (xAt allNewCutPieces PADDING minX
                              (rowRefs allNewCutPieces color) j)
                           (yAt allNewCutPieces PADDING (maxY + PADDING * 3)
                              sortedColors r)))).
Proof.
  cbv zeta.
  set (all := allNewCutPieces).
  set (sortedColors := sort byPalette (map fst (groupOffcuts all))).
  assert (Hperm : Permutation sortedColors (map fst (groupOffcuts all)))
    by apply sort_perm.
  assert (Hnd : NoDup sortedColors).
  { apply (Permutation_NoDup (Permutation_sym Hperm)).
    rewrite groupOffcuts_groupBy. apply groupBy_keys_NoDup. }
  destruct (rowStep_fold all (minXOf (allPointsOf areas tiles))
              (TileDimensions.width tileDimensions / 2) sortedColors all
              (maxYOf (allPointsOf areas tiles)
               + TileDimensions.width tileDimensions / 2 * 3) Hnd eq_refl)
    as (_ & Hlen & Hout & Hin). cbv zeta in Hlen, Hout, Hin.
  split; [|split; [|split; [|split; [|split; [|split; [|split; [|split;
    [|split; [|split]]]]]]]]].
  - intros color. split.
    + intros Hc Hempty. apply (Permutation_in _ Hperm) in Hc.
      apply in_map_iff in Hc. destruct Hc as ([c g] & <- & Hg). cbn [fst] in Hempty.
      rewrite groupOffcuts_groupBy in Hg. apply groupBy_entries in Hg.
      destruct Hg as (-> & Hne). now apply Hne.
    + intros Hne. apply (Permutation_in _ (Permutation_sym Hperm)).
      apply in_map_iff. exists (color, offcutRefs all color). split; [reflexivity|].
      rewrite groupOffcuts_groupBy. apply groupBy_entries. now split.
  - exact Hnd.
  - apply sort_sorted.
    + exact byPalette_not_gt.
    + exact byPalette_gt.
    + intros a b c. lia.
  - intros color. apply rowRefs_perm.
  - intros p Hp. now apply boundingBox.
  - apply boundingBox_attained.
  - intros ->. split; reflexivity.
  - intros i piece Hn Hoff. unfold packOffcuts. fold all. fold sortedColors.
    rewrite Hout; [assumption|].
    intros c _ Hi. apply offcutRefs_spec in Hi. destruct Hi as (piece' & Hn' & Hoff' & _).
    congruence.
  - apply packOffcuts_geometry.
  - unfold packOffcuts. fold all. fold sortedColors. exact Hlen.
  - intros Hsafe. split.
    + intros color. apply rowRefs_rowOrder. now apply safeOrdinal_parses.
    + intros r color j ref Hr Hj.
      assert (Href : In ref (offcutRefs all color)).
      { apply (Permutation_in _ (rowRefs_perm all color)). now apply nth_error_In in Hj. }
      apply offcutRefs_spec in Href. destruct Href as (piece & Hn & _).
      exists piece. split; [assumption|].
      unfold packOffcuts. fold all. fold sortedColors.
      rewrite (Hin r color j ref Hr Hj), Hn, xAt_xOffset, yAt_yOffset. reflexivity.
Qed.

(** *** A tile outside the room *)

Lemma squareRoom_not_clockwise : isPolygonClockwise squareRoom = false.
Proof. unfold isPolygonClockwise, squareRoom, at_, gtb. simpl. rdecide. reflexivity. Qed.

Lemma clip_farTile : clipPolygonByPolygon (tilePolygon farTile) squareRoom = [].
Proof.
  unfold clipPolygonByPolygon, tilePolygon, rectPolygon, farTile, squareRoom.
  cbn [length seq Tile.x Tile.y Tile.width Tile.height].
  clip_loop. reflexivity.
Qed.

Lemma cutTile_farTile : cutTile [squareArea] farTile = [farOffcut].
Proof.
  unfold cutTile, inPiecePolygonsOf. cbn [fold_left squareArea Area.points].
  rewrite clip_farTile. unfold polygonArea at 1. cbn [length Nat.ltb Nat.leb].
  unfold gtb at 1. rewrite (ltb_false 1e-6 0) by lra.
  unfold totalInPieceAreaOf. cbn [fold_left]. rewrite (ltb_true 0 1e-6) by lra.
  reflexivity.
Qed.

Lemma bounds_farTile :
  minXOf (allPointsOf [squareArea] [farTile]) = 0
  /\ maxYOf (allPointsOf [squareArea] [farTile]) = 1000.
Proof.
  unfold minXOf, maxYOf, allPointsOf, minOf, maxOf. simpl.
  split; rminmax; lra.
Qed.

(** C8 (counterexample). One room, one tile outside it, nominal tile width
    500: the padding is 250 and the bounding box ends at [y = 1000]; the
    only offcut is placed at [y = 1750 = 1000 + 3 * 250], not at
    [1000 + 250]. *)
Lemma handleCut_first_row_offset :
  maxYOf (allPointsOf [squareArea] [farTile]) = 1000
  /\ handleCut [squareArea] [farTile] (TileDimensions.mk 500 500)
     = CutWastePrompt [setPosition farOffcut 0 1750] ["12-offcut"%string]
  /\ 1750 = 1000 + 3 * (500 / 2)
  /\ 1750 <> 1000 + 500 / 2.
Proof.
  destruct bounds_farTile as (HminX & HmaxY).
  split; [exact HmaxY|]. split; [|lra].
  unfold handleCut.
  cbn [filter squareArea Area.isClosed Area.isVisible andb length Nat.eqb orb map
       Area.points fold_left app].
  fold squareArea. change (Area.points squareArea) with squareRoom.
  rewrite squareRoom_not_clockwise.
  rewrite cutTile_farTile.
  unfold packOffcuts. rewrite HminX, HmaxY.
  unfold groupOffcuts, rowStep, placeStep, sort, deref. simpl.
  unfold geb. rewrite (leb_true 99.9 100) by lra.
  simpl. unfold setPosition, farOffcut. simpl.
  f_equal. f_equal. f_equal; lra.
Qed.

(** *** Three offcuts in two rows *)

Lemma bounds_packedTiles :
  minXOf (allPointsOf [squareArea] packedTiles) = 0
  /\ maxYOf (allPointsOf [squareArea] packedTiles) = 1000.
Proof.
  unfold minXOf, maxYOf, allPointsOf, minOf, maxOf. simpl.
  split; rminmax; lra.
Qed.

Lemma rows_packedPieces :
  sort byPalette (map fst (groupOffcuts packedPieces)) = ["#ef4444"; "#3b82f6"]%string
  /\ rowRefs packedPieces "#ef4444" = [2; 0]%nat
  /\ rowRefs packedPieces "#3b82f6" = [1]%nat
  /\ rowHeight packedPieces "#ef4444" = 500.
Proof.
  assert (Hg : groupOffcuts packedPieces
               = [("#ef4444", [0; 2]); ("#3b82f6", [1])]%string%nat) by reflexivity.
  assert (H02 : byOrdinal packedPieces 0 2 = IZR (2 - 1)) by reflexivity.
  assert (Hp : byPalette "#ef4444" "#3b82f6" = IZR (0 - 6)) by reflexivity.
  split; [|split; [|split]].
  - rewrite Hg. cbn [map fst sort fold_right insertSorted]. rewrite Hp.
    unfold gtb. now rewrite (ltb_false 0 (IZR (0 - 6))) by (simpl; lra).
  - unfold rowRefs.
    change (offcutRefs packedPieces "#ef4444") with [0; 2]%nat.
    cbn [sort fold_right insertSorted]. rewrite H02.
    unfold gtb. now rewrite (ltb_true 0 (IZR (2 - 1))) by (simpl; lra).
  - reflexivity.
  - unfold rowHeight.
    change (offcutRefs packedPieces "#ef4444") with [0; 2]%nat.
    cbn [map fold_left deref nth packedPieces packedTiles fullOffcut
         CutTilePiece.originalTile Tile.height].
    rminmax; lra.
Qed.

(** The room is the square (0,0)-(1000,1000), with points on [x = 0] and
    on [y = 1000], and the nominal tile width is 500, so the padding is
    250.  The red row comes first, at
    [y = 1000 + 3 * 250 = 1750]: the tile numbered 1 at [x = 0], the tile
    numbered 2 after its width 400 and the padding, at [x = 650].  The blue
    row is lower by the tallest red tile, 500, plus twice the padding: at
    [y = 2750]. *)
Lemma packOffcuts_layout_witness :
  forallb safeOrdinal packedPieces = true
  /\ (exists p, In p (allPointsOf [squareArea] packedTiles) /\ Pos.x p = 0)
  /\ (exists p, In p (allPointsOf [squareArea] packedTiles) /\ Pos.y p = 1000)
  /\ map (fun piece => (CutTilePiece.id piece, CutTilePiece.x piece, CutTilePiece.y piece))
       (packOffcuts [squareArea] packedTiles (TileDimensions.mk 500 500) packedPieces)
     = [ ("21-offcut"%string, 0 + (400 + 500 / 2), 1000 + 500 / 2 * 3);
         ("22-offcut"%string, 0, 1000 + 500 / 2 * 3 + (500 + 500 / 2 * 2));
         ("23-offcut"%string, 0, 1000 + 500 / 2 * 3) ].
Proof.
  assert (Hsafe : forallb safeOrdinal packedPieces = true) by reflexivity.
  split; [exact Hsafe|].
  destruct bounds_packedTiles as (HminX & HmaxY).
  destruct rows_packedPieces as (Hcolors & Hred & Hblue & Hheight).
  destruct (packOffcuts_layout [squareArea] packedTiles (TileDimensions.mk 500 500)
              packedPieces)
    as (_ & _ & _ & _ & _ & Hattained & _ & _ & _ & Hlen & Hrows).
  cbv zeta in Hattained. rewrite HminX, HmaxY in Hattained.
  destruct Hattained as (Hleft & Hlower); [discriminate|].
  split; [exact Hleft|]. split; [exact Hlower|].
  destruct (Hrows Hsafe) as (_ & Hpos). clear Hrows.
  cbv zeta in Hlen, Hpos. rewrite Hcolors, HminX, HmaxY in Hpos.
  destruct (Hpos 0%nat "#ef4444"%string 1%nat 0%nat eq_refl) as (p0 & Hp0 & Hq0);
    [now rewrite Hred|].
  destruct (Hpos 1%nat "#3b82f6"%string 0%nat 1%nat eq_refl) as (p1 & Hp1 & Hq1);
    [now rewrite Hblue|].
  destruct (Hpos 0%nat "#ef4444"%string 0%nat 2%nat eq_refl) as (p2 & Hp2 & Hq2);
    [now rewrite Hred|].
  clear Hpos.
  injection Hp0 as <-. injection Hp1 as <-. injection Hp2 as <-.
  rewrite Hred in Hq0, Hq2. rewrite Hblue in Hq1.
  unfold xAt, yAt in Hq0, Hq1, Hq2.
  cbn [firstn fold_left] in Hq0, Hq1, Hq2. rewrite Hheight in Hq1.
  destruct (packOffcuts [squareArea] packedTiles (TileDimensions.mk 500 500) packedPieces)
    as [|a [|b [|c [|d rest]]]]; try discriminate Hlen.
  cbn [nth_error] in Hq0, Hq1, Hq2.
  injection Hq0 as ->. injection Hq1 as ->. injection Hq2 as ->.
  reflexivity.
Defined.

(** * Further properties *)

(** ** Geometry kernel *)

Lemma distance_self (p : Pos.t) : distance p p = 0.
Proof.
  unfold distance. replace ((Pos.x p - Pos.x p) ^ 2 + (Pos.y p - Pos.y p) ^ 2) with 0 by ring.
  apply sqrt_0.
Qed.

Lemma polygonArea_rectPolygon (x y w h : R) :
  polygonArea (rectPolygon x y w h) = Rabs (w * h).
Proof.
  unfold polygonArea, rectPolygon, lastOf. simpl.
  match goal with
  | |- Rabs ?e = _ => replace e with (- (w * h)) by (field_simplify; lra || ring)
  end.
  apply Rabs_Ropp.
Qed.

(** X3. [pointInPolygon] is [false] on every polygon of fewer than three
    points, and [true] at every vertex of a polygon of at least three
    points: the boundary belongs to the polygon. *)
Theorem pointInPolygon_vertex :
  (forall (point : Pos.t) (polygon : list Point.t),
     (length polygon < 3)%nat -> pointInPolygon point polygon = false)
  /\ (forall (p : Point.t) (polygon : list Point.t),
        (3 <= length polygon)%nat -> In p polygon ->
        pointInPolygon p polygon = true).
Proof.
  split.
  - intros point polygon H. unfold pointInPolygon.
    destruct (Nat.ltb_spec (length polygon) 3); [reflexivity | lia].
  - intros p polygon Hlen Hin. unfold pointInPolygon.
    destruct (Nat.ltb_spec (length polygon) 3) as [Hlt | _]; [lia|].
    destruct (In_nth _ _ origin Hin) as (i & Hi & Hnth).
    assert (Hex : existsb
              (fun i =>
                 ltb (Rabs (distance (at_ polygon i) p
                            + distance p (at_ polygon ((i + 1) mod length polygon))
                            - distance (at_ polygon i)
                                (at_ polygon ((i + 1) mod length polygon)))) EPSILON)
              (seq 0 (length polygon)) = true).
    { apply existsb_exists. exists i. split; [apply in_seq; lia|].
      unfold at_ at 1 3. rewrite Hnth. rewrite distance_self.
      apply ltb_true.
      replace (0 + distance p (at_ polygon ((i + 1) mod length polygon))
               - distance p (at_ polygon ((i + 1) mod length polygon))) with 0 by ring.
      rewrite Rabs_R0. unfold EPSILON. lra. }
    cbv zeta. now rewrite Hex.
Qed.

Lemma pointInPolygon_vertex_witness :
  pointInPolygon (Point.mk 3 1000 1000) squareRoom = true
  /\ pointInPolygon (Pos.mk 1 1) twoPoints = false.
Proof.
  split.
  - apply (proj2 pointInPolygon_vertex); simpl; [lia | tauto].
  - apply (proj1 pointInPolygon_vertex). simpl. lia.
Defined.

(** X4. [rectanglesIntersect] does not depend on the order of the two
    rectangles, and two rectangles that only touch along an edge (one
    starts where the other ends) do not intersect. *)
Theorem rectanglesIntersect_symmetric_exclusive (rect1 rect2 : Rect.t) :
  rectanglesIntersect rect1 rect2 = rectanglesIntersect rect2 rect1
  /\ (Rect.x rect2 = Rect.x rect1 + Rect.width rect1 ->
      rectanglesIntersect rect1 rect2 = false)
  /\ (Rect.y rect2 = Rect.y rect1 + Rect.height rect1 ->
      rectanglesIntersect rect1 rect2 = false).
Proof.
  unfold rectanglesIntersect, gtb. repeat split.
  - destruct (ltb (Rect.x rect1) _), (ltb (Rect.x rect2) _),
      (ltb (Rect.y rect1) _), (ltb (Rect.y rect2) _); reflexivity.
  - intros H. rewrite (ltb_false (Rect.x rect2)) by lra.
    now rewrite andb_false_r.
  - intros H. rewrite (ltb_false (Rect.y rect2)) by lra.
    now rewrite andb_false_r.
Qed.

Lemma rectanglesIntersect_symmetric_exclusive_witness :
  rectanglesIntersect (Rect.mk 0 0 500 500) (Rect.mk 500 0 500 500) = false.
Proof.
  apply (proj1 (proj2 (rectanglesIntersect_symmetric_exclusive
                         (Rect.mk 0 0 500 500) (Rect.mk 500 0 500 500)))).
  simpl. lra.
Defined.

(** X6. [segmentsIntersect] does not depend on the order in which the two
    segments are given. *)
Theorem segmentsIntersect_symmetric (p1 q1 p2 q2 : Point.t) :
  segmentsIntersect p1 q1 p2 q2 = segmentsIntersect p2 q2 p1 q1.
Proof.
  unfold segmentsIntersect.
  rewrite (Nat.eqb_sym (orientation p2 q2 p1) (orientation p2 q2 q1)).
  rewrite (Nat.eqb_sym (orientation p1 q1 p2) (orientation p1 q1 q2)).
  destruct (orientation p1 q1 q2 =? orientation p1 q1 p2)%nat,
    (orientation p2 q2 q1 =? orientation p2 q2 p1)%nat,
    (orientation p1 q1 p2 =? 0)%nat, (orientation p1 q1 q2 =? 0)%nat,
    (orientation p2 q2 p1 =? 0)%nat, (orientation p2 q2 q1 =? 0)%nat,
    (onSegment p1 p2 q1), (onSegment p1 q2 q1),
    (onSegment p2 p1 q2), (onSegment p2 q1 q2); reflexivity.
Qed.

(** *** Sums over the edges of a polygon *)

Section PathSums.
Variable f : Point.t -> Point.t -> R.

Lemma pathSumOf_snoc (l : list Point.t) (prev q : Point.t) :
  pathSumOf f prev (l ++ [q]) = pathSumOf f prev l + f (last l prev) q.
Proof.
  revert prev. induction l as [|cur rest IH]; intros prev.
  - simpl. ring.
  - change ((cur :: rest) ++ [q]) with (cur :: (rest ++ [q])).
    cbn [pathSumOf]. rewrite IH, last_cons. ring.
Qed.

(** Walking a path backwards: the sum is kept when [f] is symmetric
    ([s = 1]) and negated when it is antisymmetric ([s = -1]). *)
Lemma chainOf_rev (s : R) (path : list Point.t) :
  (forall p q, f q p = s * f p q) ->
  chainOf f (rev path) = s * chainOf f path.
Proof.
  intros Hs. induction path as [|p l IH]; [simpl; ring|].
  cbn [rev]. destruct (rev l) as [|h m] eqn:Hrev.
  - assert (l = []) as -> by (rewrite <- (rev_involutive l), Hrev; reflexivity).
    simpl. ring.
  - cbn [app chainOf]. rewrite pathSumOf_snoc.
    change (pathSumOf f h m) with (chainOf f (h :: m)). rewrite IH.
    assert (Hh : last m h = hd origin l).
    { rewrite <- last_cons with (d := origin), <- Hrev. apply last_rev. }
    rewrite Hh. destruct l as [|c l']; [destruct (rev m); discriminate|].
    cbn [hd chainOf pathSumOf]. rewrite (Hs p c). ring.
Qed.

(** The loop over the indices [i] adds [f] up along the closed path
    [polygon ++ [polygon[0]]]. *)
Lemma fold_seq_sum (g : nat -> R) (n s : nat) (a : R) :
  fold_left (fun acc i => acc + g i) (seq s n) a = a + sumR (map g (seq s n)).
Proof.
  revert s a. induction n as [|n IH]; intros s a; cbn [seq fold_left map sumR fold_right].
  - ring.
  - rewrite IH. fold (sumR (map g (seq (S s) n))). ring.
Qed.

Lemma pathSumOf_index (l : list Point.t) (prev : Point.t) :
  pathSumOf f prev l
  = sumR (map (fun i => f (nth i (prev :: l) origin) (nth (S i) (prev :: l) origin))
            (seq 0 (length l))).
Proof.
  revert prev. induction l as [|cur rest IH]; intros prev; [reflexivity|].
  cbn [pathSumOf length seq map sumR fold_right]. rewrite IH.
  fold (sumR (map (fun i => f (nth i (prev :: cur :: rest) origin)
                               (nth (S i) (prev :: cur :: rest) origin))
                (seq 1 (length rest)))).
  rewrite <- seq_shift, map_map. reflexivity.
Qed.

Lemma edgeSum_chain (polygon : list Point.t) :
  edgeSum f polygon = chainOf f (polygon ++ firstn 1 polygon).
Proof.
  unfold edgeSum. rewrite fold_seq_sum, Rplus_0_l.
  destruct polygon as [|a l]; [reflexivity|].
  cbn [firstn app chainOf]. rewrite pathSumOf_index.
  rewrite length_app. cbn [length]. rewrite Nat.add_1_r.
  f_equal. apply map_ext_in. intros i Hi. apply in_seq in Hi.
  unfold at_.
  assert (Hq : forall j, (j <= S (length l))%nat ->
             nth (j mod S (length l)) (a :: l) origin
             = nth j (a :: l ++ [a]) origin).
  { intros j Hj. destruct (Nat.eq_dec j (S (length l))) as [-> | Hne].
    - rewrite Nat.Div0.mod_same. cbn [nth].
      now rewrite nth_middle.
    - rewrite Nat.mod_small by lia.
      change (a :: l ++ [a]) with ((a :: l) ++ [a]).
      rewrite app_nth1 by (cbn [length]; lia). reflexivity. }
  rewrite (Hq (i + 1)%nat) by lia. rewrite Nat.add_1_r.
  f_equal. change (a :: l ++ [a]) with ((a :: l) ++ [a]).
  rewrite app_nth1 by (cbn [length]; lia). reflexivity.
Qed.

(** The same sum along the closed path that starts at the last vertex, as
    the loops [for (i = 0, j = n - 1; i < n; j = i++)] walk it. *)
Lemma edgeSum_from_last (polygon : list Point.t) :
  edgeSum f polygon = pathSumOf f (lastOf polygon) polygon.
Proof.
  rewrite edgeSum_chain. destruct polygon as [|a l]; [reflexivity|].
  cbn [firstn app chainOf pathSumOf]. rewrite pathSumOf_snoc.
  unfold lastOf. rewrite last_cons. ring.
Qed.

Lemma edgeSum_rev (s : R) (polygon : list Point.t) :
  (forall p q, f q p = s * f p q) ->
  edgeSum f (rev polygon) = s * edgeSum f polygon.
Proof.
  intros Hs. rewrite (edgeSum_from_last (rev polygon)). rewrite edgeSum_chain.
  unfold lastOf. rewrite last_rev.
  destruct polygon as [|a l]; [simpl; ring|].
  cbn [hd firstn].
  change (pathSumOf f a (rev (a :: l))) with (chainOf f (a :: rev (a :: l))).
  replace (a :: rev (a :: l)) with (rev ((a :: l) ++ [a]))
    by (rewrite rev_app_distr; reflexivity).
  now apply chainOf_rev.
Qed.

(** A sum of differences telescopes. *)
Lemma pathSumOf_telescope (g : Point.t -> R) (l : list Point.t) (prev : Point.t) :
  (forall p q, f p q = g q - g p) ->
  pathSumOf f prev l = g (last l prev) - g prev.
Proof.
  intros Hf. revert prev. induction l as [|cur rest IH]; intros prev.
  - simpl. ring.
  - cbn [pathSumOf]. rewrite IH, Hf, last_cons. ring.
Qed.
End PathSums.

Lemma pathSumOf_ext (f g : Point.t -> Point.t -> R) (l : list Point.t) (prev : Point.t) :
  (forall p q, f p q = g p q) -> pathSumOf f prev l = pathSumOf g prev l.
Proof.
  intros H. revert prev. induction l as [|c r IH]; intros prev; [reflexivity|].
  cbn [pathSumOf]. now rewrite H, IH.
Qed.

Lemma pathSumOf_plus (f g : Point.t -> Point.t -> R) (l : list Point.t) (prev : Point.t) :
  pathSumOf (fun p q => f p q + g p q) prev l = pathSumOf f prev l + pathSumOf g prev l.
Proof.
  revert prev. induction l as [|c r IH]; intros prev; cbn [pathSumOf]; [ring|].
  rewrite IH. ring.
Qed.

Lemma pathSumOf_scale (k : R) (f : Point.t -> Point.t -> R) (l : list Point.t)
    (prev : Point.t) :
  pathSumOf (fun p q => k * f p q) prev l = k * pathSumOf f prev l.
Proof.
  revert prev. induction l as [|c r IH]; intros prev; cbn [pathSumOf]; [ring|].
  rewrite IH. ring.
Qed.

Lemma pathSumOf_map (f : Point.t -> Point.t -> R) (m : Point.t -> Point.t)
    (l : list Point.t) (prev : Point.t) :
  pathSumOf f (m prev) (map m l) = pathSumOf (fun p q => f (m p) (m q)) prev l.
Proof.
  revert prev. induction l as [|c r IH]; intros prev; cbn [map pathSumOf]; [reflexivity|].
  now rewrite IH.
Qed.

Lemma signedSum_pathSumOf (polygon : list Point.t) :
  signedSum polygon = pathSumOf shoelaceTerm (lastOf polygon) polygon.
Proof.
  unfold signedSum. rewrite shoelace_fold, Rplus_0_l.
  generalize (lastOf polygon). induction polygon as [|c r IH]; intros prev; [reflexivity|].
  cbn [pathSum pathSumOf]. now rewrite IH.
Qed.

Lemma last_map {A B : Type} (m : A -> B) (l : list A) (d : A) :
  last (map m l) (m d) = m (last l d).
Proof.
  induction l as [|a r IH]; [reflexivity|].
  cbn [map]. destruct r as [|b r']; [reflexivity|]. exact IH.
Qed.

(** In exact arithmetic a translation does not change the shoelace sum. *)
Lemma polygonArea_translated (tile : Tile.t) (polygon : list Point.t) :
  polygonArea (map (toLocal tile) polygon) = polygonArea polygon.
Proof.
  unfold polygonArea. rewrite length_map.
  destruct (length polygon <? 3)%nat; [reflexivity|].
  fold (signedSum polygon). fold (signedSum (map (toLocal tile) polygon)).
  f_equal. f_equal. rewrite !signedSum_pathSumOf.
  destruct polygon as [|a l]; [reflexivity|].
  unfold lastOf.
  assert (Hlast : last (map (toLocal tile) (a :: l)) origin
                  = toLocal tile (last (a :: l) origin)).
  { cbn [map]. rewrite !last_cons. apply last_map. }
  rewrite Hlast, pathSumOf_map.
  set (z := last (a :: l) origin).
  rewrite (pathSumOf_ext _
             (fun p q =>
                shoelaceTerm p q
                + ((- Tile.y tile) * (Point.x q - Point.x p)
                   + Tile.x tile * (Point.y q - Point.y p)))).
  - rewrite (pathSumOf_plus shoelaceTerm
               (fun p q => (- Tile.y tile) * (Point.x q - Point.x p)
                           + Tile.x tile * (Point.y q - Point.y p))).
    rewrite (pathSumOf_plus
               (fun p q => (- Tile.y tile) * (Point.x q - Point.x p))
               (fun p q => Tile.x tile * (Point.y q - Point.y p))).
    rewrite (pathSumOf_scale (- Tile.y tile) (fun p q => Point.x q - Point.x p)).
    rewrite (pathSumOf_scale (Tile.x tile) (fun p q => Point.y q - Point.y p)).
    rewrite (pathSumOf_telescope (fun p q => Point.x q - Point.x p) Point.x)
      by reflexivity.
    rewrite (pathSumOf_telescope (fun p q => Point.y q - Point.y p) Point.y)
      by reflexivity.
    assert (Hz : last (a :: l) z = z) by (unfold z; now rewrite !last_cons).
    rewrite Hz. unfold z. ring.
  - intros p q. unfold shoelaceTerm, toLocal. cbn [Point.x Point.y]. ring.
Qed.

(** *** Tiles and pieces on integer coordinates *)

Lemma bound_square (B k : Z) : (Z.abs k <= B)%Z -> (B <= B * B)%Z.
Proof. intros H. pose proof (Z.abs_nonneg k). nia. Qed.

Lemma tilePolygon_exact (rnd : R -> R) (B : Z) (tile : Tile.t) :
  exactOnIntegers rnd -> integerTile B tile -> (8 * (B * B) <= 2 ^ 53)%Z ->
  Rounded.tilePolygon rnd tile = tilePolygon tile
  /\ Forall (integerPoint B) (tilePolygon tile).
Proof.
  intros Hrnd (x & y & w & h & Hx & Hy & Hw & Hh & Bx & By & Bxw & Byh) Hbound.
  pose proof (bound_square B x Bx) as HB.
  unfold Rounded.tilePolygon, tilePolygon, rectPolygon.
  rewrite Hx, Hy, Hw, Hh, <- !plus_IZR.
  rewrite (rnd_integer rnd Hrnd (x + w)%Z) by lia.
  rewrite (rnd_integer rnd Hrnd (y + h)%Z) by lia.
  split; [reflexivity|].
  repeat (apply Forall_cons; [eexists; eexists; cbn [Point.x Point.y];
                              split; [reflexivity|]; split; [reflexivity|];
                              split; assumption |]).
  apply Forall_nil.
Qed.

(** X1. With the operations of doubles (a rounding after every operation,
    exact on the integers up to [2 ^ 53] and on their halves): for a tile
    whose position and dimensions are integers, with corner coordinates of
    absolute value at most [B] and [8 * B * B <= 2 ^ 53], the area of the
    four-corner polygon of the tile is exactly the absolute value of
    [width * height]. *)
Theorem polygonArea_tilePolygon (rnd : R -> R) (B : Z) (tile : Tile.t) :
  exactOnIntegers rnd -> integerTile B tile -> (8 * (B * B) <= 2 ^ 53)%Z ->
  Rounded.polygonArea rnd (Rounded.tilePolygon rnd tile)
  = Rabs (Tile.width tile * Tile.height tile).
Proof.
  intros Hrnd Htile Hbound.
  destruct (tilePolygon_exact rnd B tile Hrnd Htile Hbound) as (-> & Hpoints).
  rewrite (polygonArea_exact rnd B Hrnd); [apply polygonArea_rectPolygon | exact Hpoints |].
  cbn [tilePolygon rectPolygon length]. lia.
Qed.

(** The tile of 500 x 500 at (2000, 0), with the rounding down to halves. *)
Lemma polygonArea_tilePolygon_witness :
  Rounded.polygonArea halfRound (Rounded.tilePolygon halfRound farTile) = Rabs (500 * 500).
Proof.
  apply (polygonArea_tilePolygon halfRound 2500 farTile).
  - exact halfRound_exact.
  - exists 2000%Z, 0%Z, 500%Z, 500%Z. cbn. repeat split; lia.
  - lia.
Defined.

(** Beyond the bound the area is another number: in doubles the tile of
    465 x 465 at (100000001, 100000001) has the area 216224, and the same
    tile at (0, 0) the area 216225. *)
Lemma polygonArea_tilePolygon_far :
  Double.polygonArea
    (Double.tilePolygon Whole.farAway Whole.farAway Whole.tileSide Whole.tileSide)
  = Whole.oneLess
  /\ Double.polygonArea
       (Double.tilePolygon PrimFloat.zero PrimFloat.zero Whole.tileSide Whole.tileSide)
     = Whole.tileArea.
Proof. split; vm_compute; reflexivity. Qed.

(** X7. With the operations of doubles (a rounding after every operation,
    exact on the integers up to [2 ^ 53] and on their halves): for a
    polygon of [n] points whose coordinates, and whose coordinates relative
    to the tile, are integers of absolute value at most [B], with
    [2 * n * B * B <= 2 ^ 53], moving the polygon into the local
    coordinates of the tile does not change its area. *)
Theorem polygonArea_toLocal (rnd : R -> R) (B : Z) (tile : Tile.t)
    (polygon : list Point.t) :
  exactOnIntegers rnd ->
  Forall (integerPoint B) polygon ->
  Forall (integerPoint B) (map (toLocal tile) polygon) ->
  (2 * Z.of_nat (length polygon) * (B * B) <= 2 ^ 53)%Z ->
  Rounded.polygonArea rnd (map (Rounded.toLocal rnd tile) polygon)
  = Rounded.polygonArea rnd polygon.
Proof.
  intros Hrnd Hworld Hlocal Hbound.
  assert (Hmap : map (Rounded.toLocal rnd tile) polygon = map (toLocal tile) polygon).
  { apply map_ext_in. intros p Hp.
    rewrite Forall_forall in Hlocal.
    destruct (Hlocal (toLocal tile p)) as (a & b & Ha & Hb & Ba & Bb);
      [now apply in_map|].
    cbn [toLocal Point.x Point.y] in Ha, Hb.
    destruct polygon as [|q l]; [contradiction|].
    assert (HB : (B <= 2 ^ 53)%Z).
    { pose proof (bound_square B a Ba). cbn [length] in Hbound.
      pose proof (Z.abs_nonneg a). nia. }
    unfold Rounded.toLocal, toLocal. rewrite Ha, Hb.
    rewrite (rnd_integer rnd Hrnd a) by lia.
    rewrite (rnd_integer rnd Hrnd b) by lia. reflexivity. }
  rewrite Hmap.
  rewrite (polygonArea_exact rnd B Hrnd (map (toLocal tile) polygon))
    by (try rewrite length_map; assumption).
  rewrite (polygonArea_exact rnd B Hrnd polygon) by assumption.
  apply polygonArea_translated.
Qed.

(** The corner square (800,800)-(1000,1000) of the room, in the local
    coordinates of the tile at (800, 800). *)
Lemma polygonArea_toLocal_witness :
  Rounded.polygonArea halfRound (map (Rounded.toLocal halfRound cornerTile) cornerSquare)
  = Rounded.polygonArea halfRound cornerSquare.
Proof.
  apply (polygonArea_toLocal halfRound 1000 cornerTile cornerSquare).
  - exact halfRound_exact.
  - unfold cornerSquare.
    repeat (apply Forall_cons;
            [eexists; eexists; cbn [Point.x Point.y];
             split; [reflexivity|]; split; [reflexivity|]; split; cbn; lia |]).
    apply Forall_nil.
  - unfold cornerSquare, cornerTile, toLocal. cbn [map Point.x Point.y Tile.x Tile.y].
    repeat (apply Forall_cons;
            [first [ exists 0%Z, 0%Z; cbn [Point.x Point.y];
                     split; [lra|]; split; [lra|]; split; cbn; lia
                   | exists 200%Z, 0%Z; cbn [Point.x Point.y];
                     split; [lra|]; split; [lra|]; split; cbn; lia
                   | exists 200%Z, 200%Z; cbn [Point.x Point.y];
                     split; [lra|]; split; [lra|]; split; cbn; lia
                   | exists 0%Z, 200%Z; cbn [Point.x Point.y];
                     split; [lra|]; split; [lra|]; split; cbn; lia ] |]).
    apply Forall_nil.
  - cbn. lia.
Defined.


(** ** Further properties of the winding test and of the statistics *)

Lemma isPolygonClockwise_windingSum (polygon : list Point.t) :
  isPolygonClockwise polygon = gtb (windingSum polygon) 0.
Proof. reflexivity. Qed.

Lemma windingSum_rev (polygon : list Point.t) :
  windingSum (rev polygon) = - windingSum polygon.
Proof.
  unfold windingSum. rewrite (edgeSum_rev windingTerm (-1)).
  - ring.
  - intros p q. unfold windingTerm. ring.
Qed.

Lemma gtb_true (a b : R) : a > b -> gtb a b = true.
Proof. intros H. apply ltb_true. lra. Qed.

Lemma gtb_false (a b : R) : a <= b -> gtb a b = false.
Proof. intros H. apply ltb_false. lra. Qed.

Lemma gtb_spec (a b : R) : gtb a b = true <-> a > b.
Proof. unfold gtb. rewrite ltb_spec. lra. Qed.

(** X8. The normalisation that the statistics and the cut apply before
    clipping never yields a clockwise polygon, and applying it a second
    time changes nothing. *)
Theorem normalized_not_clockwise (polygon : list Point.t) :
  isPolygonClockwise (normalized polygon) = false
  /\ normalized (normalized polygon) = normalized polygon.
Proof.
  assert (H : isPolygonClockwise (normalized polygon) = false).
  { unfold normalized. destruct (isPolygonClockwise polygon) eqn:Hcw.
    - rewrite isPolygonClockwise_windingSum in *. apply gtb_spec in Hcw.
      apply gtb_false. rewrite windingSum_rev. lra.
    - exact Hcw. }
  split; [exact H|]. unfold normalized at 1. now rewrite H.
Qed.

Lemma normalized_rev (polygon : list Point.t) :
  windingSum polygon <> 0 -> normalized (rev polygon) = normalized polygon.
Proof.
  intros Hne. unfold normalized. rewrite (isPolygonClockwise_windingSum polygon),
    (isPolygonClockwise_windingSum (rev polygon)), windingSum_rev.
  destruct (Rlt_le_dec 0 (windingSum polygon)) as [Hpos | Hneg].
  - rewrite (gtb_true (windingSum polygon)) by lra.
    rewrite gtb_false by lra. reflexivity.
  - rewrite (gtb_false (windingSum polygon)) by lra.
    rewrite gtb_true by lra. apply rev_involutive.
Qed.

(** X9. The statistics of an area do not depend on the direction in which
    its boundary was drawn: for a polygon whose winding sum is not zero,
    the result computed from the reversed points is the result computed
    from the points. *)
Theorem calculateStatsForArea_winding (area : Area.t) (allTiles : list Tile.t)
    (tileDims : TileDimensions.t) :
  windingSum (Area.points area) <> 0 ->
  Area.calculationResult
    (calculateStatsForArea (withPoints area (rev (Area.points area))) allTiles tileDims)
  = Area.calculationResult (calculateStatsForArea area allTiles tileDims).
Proof.
  intros Hne. unfold calculateStatsForArea, withPoints.
  cbn [Area.isClosed Area.points]. rewrite length_rev, (normalized_rev _ Hne).
  destruct (negb (Area.isClosed area) || (length (Area.points area) <? 3)%nat);
    [reflexivity|].
  destruct (eqb _ 0); [reflexivity|].
  destruct (fold_left _ _ _) as [total byColor]. reflexivity.
Qed.

Lemma calculateStatsForArea_winding_witness :
  Area.calculationResult
    (calculateStatsForArea (withPoints squareArea (rev (Area.points squareArea)))
       oneTile (TileDimensions.mk 500 500))
  = Area.calculationResult
      (calculateStatsForArea squareArea oneTile (TileDimensions.mk 500 500)).
Proof.
  apply (calculateStatsForArea_winding squareArea oneTile (TileDimensions.mk 500 500)).
  unfold windingSum, edgeSum, windingTerm. simpl. lra.
Defined.

(** *** The per-colour counts *)

Section AssocSums.
Context {K : Type} (keq : K -> K -> bool).
Hypothesis keq_spec : forall a b, keq a b = true <-> a = b.

Lemma assocSet_values (Q : R -> Prop) (o : list (K * R)) (k : K) (v : R) :
  Forall Q (map snd o) -> Q v -> Forall Q (map snd (assocSet keq o k v)).
Proof.
  intros Ho Hv. induction o as [|[a w] r IH]; cbn [assocSet map snd].
  - now constructor.
  - inversion Ho as [|? ? Hw Hr]; subst.
    destruct (keq a k); cbn [map snd]; constructor; auto.
Qed.

Lemma assocGet_value (Q : R -> Prop) (o : list (K * R)) (k : K) (v : R) :
  Forall Q (map snd o) -> assocGet keq o k = Some v -> Q v.
Proof.
  intros Ho. induction o as [|[a w] r IH]; cbn [assocGet]; [discriminate|].
  inversion Ho as [|? ? Hw Hr]; subst.
  destruct (keq a k); [intros [= <-]; exact Hw | now apply IH].
Qed.

Lemma assocSet_key_In (o : list (K * R)) (k k' : K) (v : R) :
  In k' (map fst (assocSet keq o k v)) -> k' = k \/ In k' (map fst o).
Proof.
  induction o as [|[a w] r IH]; cbn [assocSet map fst].
  - intros [<- | []]. now left.
  - destruct (keq a k); cbn [map fst]; intros [<- | H].
    + right. now left.
    + right. now right.
    + right. now left.
    + destruct (IH H) as [-> | H']; [now left | right; now right].
Qed.

Lemma assocSet_key_iff (o : list (K * R)) (k k' : K) (v : R) :
  In k' (map fst (assocSet keq o k v)) <-> k' = k \/ In k' (map fst o).
Proof.
  split; [apply assocSet_key_In|].
  rewrite (assocSet_keys keq keq_spec).
  destruct (existsb (keq k) (map fst o)) eqn:Hex.
  - intros [-> | H]; [|exact H].
    apply existsb_exists in Hex. destruct Hex as (a & Ha & Hka).
    apply keq_spec in Hka. now subst a.
  - intros [-> | H]; apply in_or_app; [right; now left | now left].
Qed.

Lemma assocSet_fresh (o : list (K * R)) (k : K) (v : R) :
  ~ In k (map fst o) -> assocSet keq o k v = o ++ [(k, v)].
Proof.
  induction o as [|[a w] r IH]; cbn [assocSet map fst app]; intros Hk; [reflexivity|].
  destruct (keq a k) eqn:Hak.
  - apply keq_spec in Hak. subst a. elim Hk. now left.
  - rewrite IH; [reflexivity|]. intros H. apply Hk. now right.
Qed.

(** Copying a map entry by entry, with a function applied to the values. *)
Lemma assocSet_copy (g : R -> R) (m acc : list (K * R)) :
  NoDup (map fst acc ++ map fst m) ->
  fold_left (fun acc e => assocSet keq acc (fst e) (g (snd e))) m acc
  = acc ++ map (fun e => (fst e, g (snd e))) m.
Proof.
  revert acc. induction m as [|[k v] r IH]; intros acc Hnd; cbn [fold_left map fst snd].
  - now rewrite app_nil_r.
  - cbn [map fst] in Hnd. rewrite assocSet_fresh.
    + rewrite IH.
      * now rewrite <- app_assoc.
      * rewrite map_app. cbn [map fst]. rewrite <- app_assoc. exact Hnd.
    + apply NoDup_remove_2 in Hnd. intros H. apply Hnd. apply in_or_app. now left.
Qed.
End AssocSums.

Lemma statsStep_fold_keys (areaPolygon : list Point.t) (l : list Tile.t) :
  forall st : R * list (string * R),
    NoDup (map fst (snd st)) ->
    Forall (fun v => 0 < v) (map snd (snd st)) ->
    let st' := fold_left (statsStep areaPolygon) l st in
    NoDup (map fst (snd st'))
    /\ Forall (fun v => 0 < v) (map snd (snd st'))
    /\ forall c,
         In c (map fst (snd st'))
         <-> In c (map fst (snd st))
             \/ exists tile,
                  In tile l /\ Tile.color tile = c /\ counted areaPolygon tile = true.
Proof.
  induction l as [|t r IH]; intros st Hnd Hpos; cbv zeta.
  - cbn [fold_left]. split; [assumption|]. split; [assumption|].
    intros c. split; [now left|]. intros [H | (tile & [] & _)]. exact H.
  - cbn [fold_left].
    assert (Hstep : NoDup (map fst (snd (statsStep areaPolygon st t)))
                    /\ Forall (fun v => 0 < v) (map snd (snd (statsStep areaPolygon st t)))
                    /\ forall c,
                         In c (map fst (snd (statsStep areaPolygon st t)))
                         <-> In c (map fst (snd st))
                             \/ (Tile.color t = c /\ counted areaPolygon t = true)).
    { destruct st as [total byColor]. cbn [fst snd] in *. unfold statsStep, counted.
      destruct (gtb _ 1e-6) eqn:Hgt.
      - apply gtb_spec in Hgt. cbn [snd]. split; [|split].
        + now apply (assocSet_NoDup String.eqb String_eqb_spec).
        + apply assocSet_values; [assumption|].
          destruct (assocGet _ _ _) as [v|] eqn:Hget; [|lra].
          pose proof (assocGet_value String.eqb (fun v => 0 < v) _ _ _ Hpos Hget).
          cbv beta in *. lra.
        + intros c. rewrite (assocSet_key_iff String.eqb String_eqb_spec).
          split.
          * intros [-> | H]; [right; now split | now left].
          * intros [H | (<- & _)]; [now right | now left].
      - split; [assumption|]. split; [assumption|].
        intros c. split; [now left|]. intros [H | (_ & H)]; [exact H | discriminate]. }
    destruct Hstep as (Hnd1 & Hpos1 & Hkeys1).
    destruct (IH (statsStep areaPolygon st t) Hnd1 Hpos1) as (Hnd2 & Hpos2 & Hkeys2).
    cbv zeta in *. split; [assumption|]. split; [assumption|].
    intros c. rewrite Hkeys2, Hkeys1. split.
    + intros [[H | (Hc & Hcount)] | (tile & Hin & Hc & Hcount)].
      * now left.
      * right. exists t. split; [now left | now split].
      * right. exists tile. split; [now right | now split].
    + intros [H | (tile & [<- | Hin] & Hc & Hcount)].
      * left. now left.
      * left. right. now split.
      * right. exists tile. now split.
Qed.

(** X10. For a closed area of at least three points and tile dimensions of
    non-zero area, the result is not [null]; its [total] is its [tileCount]
    and its [colorCount] is the number of entries of its per-colour map;
    no colour occurs twice in the map; a colour has an entry exactly when
    some tile of that colour passes [polygonIntersectsRectangle] against
    the area and its clipped polygon has an area above 1e-6; with a
    positive tile area every count is positive.  The area and the
    perimeter of the result are those of the points in counter-clockwise
    order ([areaPolygon]), which is the list that the tiles are tested and
    clipped against. *)
Theorem calculateStatsForArea_counts (area : Area.t) (allTiles : list Tile.t)
    (tileDims : TileDimensions.t) :
  Area.isClosed area = true ->
  (3 <= length (Area.points area))%nat ->
  TileDimensions.width tileDims * TileDimensions.height tileDims <> 0 ->
  let areaPolygon := normalized (Area.points area) in
  exists r,
    Area.calculationResult (calculateStatsForArea area allTiles tileDims) = Some r
    /\ CalculationResult.total r = CalculationResult.tileCount r
    /\ CalculationResult.colorCount r = length (CalculationResult.tileCountsByColor r)
    /\ NoDup (map fst (CalculationResult.tileCountsByColor r))
    /\ (forall c, In c (map fst (CalculationResult.tileCountsByColor r)) <->
        exists tile,
          In tile allTiles /\ Tile.color tile = c
          /\ polygonIntersectsRectangle areaPolygon tile = true
          /\ counted areaPolygon tile = true)
    /\ (0 < TileDimensions.width tileDims * TileDimensions.height tileDims ->
        Forall (fun n => 0 < n) (map snd (CalculationResult.tileCountsByColor r)))
    /\ CalculationResult.polygonArea r = polygonArea areaPolygon
    /\ CalculationResult.perimeter r = polygonPerimeter areaPolygon.
Proof.
  intros Hclosed Hlen Hne. cbv zeta. unfold calculateStatsForArea.
  rewrite Hclosed. cbn [negb orb].
  destruct (Nat.ltb_spec (length (Area.points area)) 3) as [Hlt | _]; [lia|].
  rewrite (eqb_false _ _ Hne).
  set (s := TileDimensions.width tileDims * TileDimensions.height tileDims) in *.
  set (P := normalized (Area.points area)).
  pose proof (statsStep_fold_keys P
                (filter (fun tile : Tile.t => polygonIntersectsRectangle P tile) allTiles)
                (0, [])) as Hinv.
  cbv zeta in Hinv.
  destruct (fold_left _ _ _) as [total byColor].
  destruct Hinv as (Hnd & Hpos & Hkeys); [constructor | constructor |].
  cbn [fst snd map] in *.
  rewrite (assocSet_copy String.eqb String_eqb_spec (fun v => v / s))
    by (cbn [map app]; exact Hnd).
  cbn [app]. eexists. split; [reflexivity|].
  cbn [CalculationResult.total CalculationResult.tileCount CalculationResult.colorCount
       CalculationResult.tileCountsByColor CalculationResult.polygonArea
       CalculationResult.perimeter withCalculationResult Area.calculationResult].
  assert (Hfst : map fst (map (fun e : string * R => (fst e, snd e / s)) byColor)
                 = map fst byColor) by (rewrite map_map; reflexivity).
  assert (Hsnd : map snd (map (fun e : string * R => (fst e, snd e / s)) byColor)
                 = map (fun v => v / s) (map snd byColor)) by (rewrite !map_map; reflexivity).
  rewrite Hfst, Hsnd.
  split; [reflexivity|]. split; [reflexivity|]. split; [exact Hnd|].
  split; [|split; [|split; reflexivity]].
  - intros c. rewrite Hkeys. split.
    + intros [[] | (tile & Hin & Hc & Hcount)].
      apply filter_In in Hin. destruct Hin as (Hin & Hint).
      exists tile. now repeat split.
    + intros (tile & Hin & Hc & Hint & Hcount). right. exists tile.
      split; [apply filter_In; now split | now split].
  - intros Hs. apply Forall_map. revert Hpos. apply Forall_impl.
    intros v Hv. now apply Rdiv_lt_0_compat.
Qed.

(** *** Two colours in the square room *)

Lemma normalized_squareRoom : normalized squareRoom = squareRoom.
Proof.
  unfold normalized.
  assert (H : isPolygonClockwise squareRoom = false).
  { unfold isPolygonClockwise, squareRoom, at_, gtb. simpl. rdecide. reflexivity. }
  now rewrite H.
Qed.

(** A tile of 500 x 500 in the lower row of the square room, at [(x, 0)]:
    a corner of the room lies in it, and the room clips nothing off it. *)
Lemma lowerRow_counted (id : Z) (x : R) (color : string) (number : option string) :
  x = 0 \/ x = 500 ->
  polygonIntersectsRectangle squareRoom (Tile.mk id x 0 500 500 color number) = true
  /\ counted squareRoom (Tile.mk id x 0 500 500 color number) = true.
Proof.
  intros Hx. split.
  - unfold polygonIntersectsRectangle, squareRoom, geb.
    cbn [existsb Point.x Point.y Tile.rect Rect.x Rect.y Rect.width Rect.height
         Tile.x Tile.y Tile.width Tile.height].
    destruct Hx as [-> | ->]; rdecide; reflexivity.
  - unfold counted, gtb. apply ltb_true.
    assert (Hclip : clipPolygonByPolygon (tilePolygon (Tile.mk id x 0 500 500 color number))
                      squareRoom
                    = tilePolygon (Tile.mk id x 0 500 500 color number)).
    { unfold clipPolygonByPolygon, tilePolygon, rectPolygon, squareRoom.
      cbn [length seq Tile.x Tile.y Tile.width Tile.height].
      destruct Hx as [-> | ->]; clip_loop; reflexivity. }
    rewrite Hclip. unfold tilePolygon. rewrite polygonArea_rectPolygon.
    cbn [Tile.width Tile.height]. rewrite Rabs_pos_eq; lra.
Qed.

(** A red and a blue tile inside the square room and a red tile far from
    it: the per-colour map has the two colours, each once. *)
Lemma calculateStatsForArea_counts_witness :
  exists r,
    Area.calculationResult
      (calculateStatsForArea squareArea threeColoured (TileDimensions.mk 500 500)) = Some r
    /\ CalculationResult.total r = CalculationResult.tileCount r
    /\ CalculationResult.colorCount r = 2%nat
    /\ Permutation (map fst (CalculationResult.tileCountsByColor r))
         ["#ef4444"; "#3b82f6"]%string
    /\ Forall (fun n => 0 < n) (map snd (CalculationResult.tileCountsByColor r))
    /\ CalculationResult.polygonArea r = polygonArea squareRoom
    /\ CalculationResult.perimeter r = polygonPerimeter squareRoom.
Proof.
  destruct (calculateStatsForArea_counts squareArea threeColoured
              (TileDimensions.mk 500 500))
    as (r & Hr & Htotal & Hcount & Hnd & Hkeys & Hpos & Harea & Hperimeter).
  - reflexivity.
  - simpl. lia.
  - simpl. lra.
  - change (Area.points squareArea) with squareRoom in Hkeys, Harea, Hperimeter.
    rewrite normalized_squareRoom in Hkeys, Harea, Hperimeter.
    assert (Hperm : Permutation (map fst (CalculationResult.tileCountsByColor r))
                      ["#ef4444"; "#3b82f6"]%string).
    { apply NoDup_Permutation; [exact Hnd | |].
      - constructor; [|constructor; [|constructor]]; simpl; intuition discriminate.
      - intros c. rewrite Hkeys. split.
        + intros (tile & Hin & <- & _).
          destruct Hin as [<- | [<- | [<- | []]]]; simpl; auto.
        + intros [<- | [<- | []]].
          * exists (Tile.mk 31 0 0 500 500 "#ef4444" (Some "0-1"%string)).
            split; [now left|]. split; [reflexivity|].
            apply (lowerRow_counted 31 0). now left.
          * exists (Tile.mk 32 500 0 500 500 "#3b82f6" (Some "6-1"%string)).
            split; [right; now left|]. split; [reflexivity|].
            apply (lowerRow_counted 32 500). now right. }
    exists r. split; [exact Hr|]. split; [exact Htotal|]. split.
    + rewrite Hcount, <- (length_map fst). now rewrite (Permutation_length Hperm).
    + split; [exact Hperm|]. split; [apply Hpos; simpl; lra|]. now split.
Defined.

(** ** Further properties of [clipPolygonByPolygon] *)

(** The point that [getLineIntersection] computes for a subject edge [S E]
    whose ends lie on different sides of the clip line lies between [S]
    and [E], and on the clip line. *)
Lemma getLineIntersection_between (S_ E c1 c2 : Point.t) (I : Pos.t) :
  (0 <= crossProduct c2 c1 S_ /\ crossProduct c2 c1 E < 0)
  \/ (crossProduct c2 c1 S_ < 0 /\ 0 <= crossProduct c2 c1 E) ->
  getLineIntersection S_ E c1 c2 = Some I ->
  exists t, 0 <= t <= 1
    /\ I = Pos.mk (Point.x S_ + t * (Point.x E - Point.x S_))
                  (Point.y S_ + t * (Point.y E - Point.y S_))
    /\ crossProduct c2 c1 (Point.mk (-1) (Pos.x I) (Pos.y I)) = 0.
Proof.
  intros Hsides. unfold getLineIntersection.
  cbn [Point.pos Pos.x Pos.y].
  set (d := (Point.x S_ - Point.x E) * (Point.y c1 - Point.y c2)
            - (Point.y S_ - Point.y E) * (Point.x c1 - Point.x c2)).
  set (num := (Point.x S_ - Point.x c1) * (Point.y c1 - Point.y c2)
              - (Point.y S_ - Point.y c1) * (Point.x c1 - Point.x c2)).
  assert (Hnum : num = crossProduct c2 c1 S_) by (unfold num, crossProduct; ring).
  assert (Hd : d = crossProduct c2 c1 S_ - crossProduct c2 c1 E)
    by (unfold d, crossProduct; ring).
  destruct (ltb (Rabs d) 1e-9) eqn:Hsmall; [discriminate|].
  intros [= <-]. exists (num / d).
  assert (Hd0 : d <> 0).
  { apply ltb_nspec in Hsmall. intros H0. rewrite H0, Rabs_R0 in Hsmall. lra. }
  split; [|split].
  - destruct Hsides as [[Hs He] | [Hs He]].
    + assert (0 < d) by lra. split.
      * apply Rmult_le_pos; [lra | left; now apply Rinv_0_lt_compat].
      * apply (Rmult_le_reg_r d); [assumption|].
        unfold Rdiv. rewrite Rmult_assoc, Rinv_l by assumption. lra.
    + assert (0 < - d) by lra.
      replace (num / d) with ((- num) / (- d)) by (field; assumption). split.
      * apply Rmult_le_pos; [lra | left; now apply Rinv_0_lt_compat].
      * apply (Rmult_le_reg_r (- d)); [assumption|].
        unfold Rdiv. rewrite Rmult_assoc, Rinv_l by lra. lra.
  - reflexivity.
  - cbn [Pos.x Pos.y]. unfold crossProduct. cbn [Point.x Point.y].
    unfold num, d. field. exact Hd0.
Qed.

Section ClipInvariant.
Variable Q : Point.t -> Prop.
Hypothesis Q_convex : convexSet Q.

Lemma pushIntersection_convex (S_ E c1 c2 : Point.t) (out : list Point.t) :
  (0 <= crossProduct c2 c1 S_ /\ crossProduct c2 c1 E < 0)
  \/ (crossProduct c2 c1 S_ < 0 /\ 0 <= crossProduct c2 c1 E) ->
  Q S_ -> Q E -> Forall Q out ->
  Forall Q (pushIntersection out (getLineIntersection S_ E c1 c2)).
Proof.
  intros Hsides HS HE Hout.
  destruct (getLineIntersection S_ E c1 c2) as [I|] eqn:HI; [|exact Hout].
  destruct (getLineIntersection_between _ _ _ _ _ Hsides HI) as (t & Ht & -> & _).
  cbn [pushIntersection Pos.x Pos.y]. apply Forall_app. split; [exact Hout|].
  constructor; [|constructor]. now apply Q_convex.
Qed.

Lemma clipStep_convex (c1 c2 S_ E : Point.t) (out : list Point.t) :
  Q S_ -> Q E -> Forall Q out ->
  Forall Q (snd (clipStep c1 c2 (S_, out) E)).
Proof.
  intros HS HE Hout. unfold clipStep. cbn [snd]. unfold geb.
  destruct (leb 0 (crossProduct c2 c1 S_)) eqn:Hs;
    destruct (leb 0 (crossProduct c2 c1 E)) eqn:He; cbn [andb negb].
  - apply Forall_app. split; [exact Hout | now repeat constructor].
  - apply leb_spec in Hs. apply leb_nspec in He.
    apply pushIntersection_convex; auto.
  - apply leb_nspec in Hs. apply leb_spec in He.
    apply Forall_app. split; [|now repeat constructor].
    apply pushIntersection_convex; auto.
  - exact Hout.
Qed.

Lemma clipStep_fold_convex (c1 c2 : Point.t) (l : list Point.t) :
  forall (S_ : Point.t) (out : list Point.t),
    Q S_ -> Forall Q l -> Forall Q out ->
    Forall Q (snd (fold_left (clipStep c1 c2) l (S_, out))).
Proof.
  induction l as [|E rest IH]; intros S_ out HS Hl Hout; [exact Hout|].
  inversion Hl as [|? ? HE Hrest]; subst. cbn [fold_left].
  pose proof (clipStep_convex c1 c2 S_ E out HS HE Hout) as Hstep.
  destruct (clipStep c1 c2 (S_, out) E) as [S' out'] eqn:Hcs.
  assert (S' = E) as -> by (unfold clipStep in Hcs; now injection Hcs).
  now apply IH.
Qed.

Lemma lastOf_Forall (l : list Point.t) : l <> [] -> Forall Q l -> Q (lastOf l).
Proof.
  intros Hne Hl. destruct (exists_last Hne) as (l0 & z & ->).
  unfold lastOf. rewrite last_last. apply Forall_app in Hl.
  destruct Hl as [_ Hz]. now inversion Hz.
Qed.

Lemma clipAgainstEdge_convex (c1 c2 : Point.t) (l : list Point.t) :
  Forall Q l -> Forall Q (clipAgainstEdge c1 c2 l).
Proof.
  intros Hl. unfold clipAgainstEdge. destruct l as [|a r]; [constructor|].
  apply clipStep_fold_convex; [|exact Hl | constructor].
  apply lastOf_Forall; [discriminate | exact Hl].
Qed.

Lemma clipLoop_convex (clipPolygon : list Point.t) (indices : list nat) :
  forall l, Forall Q l -> Forall Q (clipLoop clipPolygon indices l).
Proof.
  induction indices as [|i rest IH]; intros l Hl; [exact Hl|].
  cbn [clipLoop]. destruct l as [|a r]; [constructor|].
  apply IH. now apply clipAgainstEdge_convex.
Qed.
End ClipInvariant.

Lemma affine_convex_strict (A B C : R) : convexSet (fun p => 0 < affine A B C p).
Proof.
  intros p q t i [Ht0 Ht1] Hp Hq. unfold affine in *. cbn [Point.x Point.y].
  replace (A * (Point.x p + t * (Point.x q - Point.x p))
           + B * (Point.y p + t * (Point.y q - Point.y p)) + C)
    with ((1 - t) * (A * Point.x p + B * Point.y p + C)
          + t * (A * Point.x q + B * Point.y q + C)) by ring.
  destruct (Rle_lt_dec t (1 / 2)).
  - apply Rplus_lt_le_0_compat; [apply Rmult_lt_0_compat | apply Rmult_le_pos]; lra.
  - apply Rplus_le_lt_0_compat; [apply Rmult_le_pos | apply Rmult_lt_0_compat]; lra.
Qed.

Lemma outerSide_convex (c1 c2 : Point.t) : convexSet (fun p => crossProduct c2 c1 p < 0).
Proof.
  intros p q t i Ht Hp Hq.
  assert (H : forall r, crossProduct c2 c1 r < 0
                        <-> 0 < affine (Point.y c2 - Point.y c1) (- (Point.x c2 - Point.x c1))
                                  (- ((Point.y c2 - Point.y c1) * Point.x c1
                                      - (Point.x c2 - Point.x c1) * Point.y c1)) r).
  { intros r. unfold crossProduct, affine. lra. }
  apply H. apply H in Hp, Hq. now apply (affine_convex_strict _ _ _ p q t i).
Qed.

(** *** The loop over the clip edges *)

Lemma clipLoop_nil (clipPolygon : list Point.t) (indices : list nat) :
  clipLoop clipPolygon indices [] = [].
Proof. destruct indices; reflexivity. Qed.

Lemma clipLoop_app (clipPolygon : list Point.t) (a b : list nat) (l : list Point.t) :
  clipLoop clipPolygon (a ++ b) l = clipLoop clipPolygon b (clipLoop clipPolygon a l).
Proof.
  revert l. induction a as [|i rest IH]; intros l; [reflexivity|].
  cbn [app clipLoop]. destruct l as [|p r]; [now rewrite clipLoop_nil|]. apply IH.
Qed.

(** *** A separating clip edge *)

Lemma clipAgainstEdge_outside (c1 c2 : Point.t) (l : list Point.t) :
  Forall (fun p => crossProduct c2 c1 p < 0) l -> clipAgainstEdge c1 c2 l = [].
Proof.
  intros Hl. unfold clipAgainstEdge.
  assert (H : forall S_, crossProduct c2 c1 S_ < 0 ->
             snd (fold_left (clipStep c1 c2) l (S_, [])) = []).
  { induction l as [|E rest IH]; intros S_ HS; [reflexivity|].
    inversion Hl as [|? ? HE Hrest]; subst. cbn [fold_left].
    rewrite clipStep_skip by assumption. now apply IH. }
  destruct l as [|a r]; [reflexivity|]. apply H.
  apply (lastOf_Forall (fun p => crossProduct c2 c1 p < 0)); [discriminate | exact Hl].
Qed.

Lemma clipLoop_separated (clipPolygon : list Point.t) (i : nat) (pre post : list nat)
    (l : list Point.t) :
  Forall (fun p => crossProduct (at_ clipPolygon ((i + 1) mod length clipPolygon))
                     (at_ clipPolygon i) p < 0) l ->
  clipLoop clipPolygon (pre ++ i :: post) l = [].
Proof.
  intros Hl. rewrite clipLoop_app.
  pose proof (clipLoop_convex _ (outerSide_convex _ _) clipPolygon pre l Hl) as Hpre.
  cbn [clipLoop]. destruct (clipLoop clipPolygon pre l) as [|a r]; [reflexivity|].
  rewrite clipAgainstEdge_outside by exact Hpre. apply clipLoop_nil.
Qed.

Lemma clipLoop_separated_edge (subjectPolygon clipPolygon : list Point.t) (i : nat) :
  (i < length clipPolygon)%nat ->
  (forall p, In p subjectPolygon ->
     crossProduct (at_ clipPolygon ((i + 1) mod length clipPolygon))
       (at_ clipPolygon i) p < 0) ->
  clipPolygonByPolygon subjectPolygon clipPolygon = [].
Proof.
  intros Hi Hout. unfold clipPolygonByPolygon.
  assert (Hseq : forall n, (i < n)%nat -> seq 0 n = seq 0 i ++ i :: seq (S i) (n - S i)).
  { intros n Hn. replace n with (i + S (n - S i))%nat at 1 by lia.
    rewrite seq_app. reflexivity. }
  rewrite (Hseq _ Hi). apply clipLoop_separated. now apply Forall_forall.
Qed.

(** X13. When a line through one edge of the clip polygon has every vertex
    of the subject strictly on its outer side, the result is empty. *)
Theorem clipPolygonByPolygon_separated (subjectPolygon clipPolygon : list Point.t)
    (i : nat) :
  (i < length clipPolygon)%nat ->
  (forall p, In p subjectPolygon ->
     crossProduct (at_ clipPolygon ((i + 1) mod length clipPolygon))
       (at_ clipPolygon i) p < 0) ->
  clipPolygonByPolygon subjectPolygon clipPolygon = [].
Proof.
  intros Hi Hout. now apply (clipLoop_separated_edge subjectPolygon clipPolygon i).
Qed.

Lemma clipPolygonByPolygon_separated_witness :
  clipPolygonByPolygon (tilePolygon farTile) squareRoom = [].
Proof.
  apply (clipPolygonByPolygon_separated (tilePolygon farTile) squareRoom 1).
  - simpl. lia.
  - intros p Hp. simpl in Hp. unfold crossProduct.
    destruct Hp as [<- | [<- | [<- | [<- | []]]]]; simpl; lra.
Defined.

(** *** A subject inside the clip polygon *)

(** X32. When every vertex of the subject passes the inner-side test of
    the clipper ([crossProduct >= 0]) for every edge of the clip polygon,
    [clipPolygonByPolygon] returns the subject itself, vertex for vertex:
    nothing is cut off and no point is computed. *)
Theorem clipPolygonByPolygon_inside (subjectPolygon clipPolygon : list Point.t) :
  insideAll subjectPolygon clipPolygon = true ->
  clipPolygonByPolygon subjectPolygon clipPolygon = subjectPolygon.
Proof.
  intros Hin. unfold clipPolygonByPolygon. apply clipLoop_inside.
  intros i Hi p Hp. unfold insideAll in Hin.
  rewrite forallb_forall in Hin. specialize (Hin i Hi).
  rewrite forallb_forall in Hin. now apply Hin.
Qed.

Lemma innerTile_inside : insideAll (tilePolygon innerTile) squareRoom = true.
Proof.
  unfold insideAll, tilePolygon, rectPolygon, innerTile, squareRoom, insideEdge, at_,
    crossProduct, geb.
  simpl. rdecide. reflexivity.
Qed.

(** The tile (100,100)-(600,600) in the square room (0,0)-(1000,1000). *)
Lemma clipPolygonByPolygon_inside_witness :
  clipPolygonByPolygon (tilePolygon innerTile) squareRoom = tilePolygon innerTile.
Proof.
  apply (clipPolygonByPolygon_inside (tilePolygon innerTile) squareRoom).
  exact innerTile_inside.
Defined.

(** ** Further properties of the cut *)

Lemma filter_none {A : Type} (f : A -> bool) (l : list A) :
  Forall (fun a => f a = false) l -> filter f l = [].
Proof.
  induction 1 as [|a r Ha _ IH]; [reflexivity|]. cbn [filter]. now rewrite Ha.
Qed.

Lemma filter_all {A : Type} (f : A -> bool) (l : list A) :
  Forall (fun a => f a = true) l -> filter f l = l.
Proof.
  induction 1 as [|a r Ha _ IH]; [reflexivity|]. cbn [filter]. now rewrite Ha, IH.
Qed.

Lemma filter_length_le {A : Type} (f : A -> bool) (l : list A) :
  (length (filter f l) <= length l)%nat.
Proof.
  induction l as [|a r IH]; [reflexivity|]. cbn [filter].
  destruct (f a); cbn [length]; lia.
Qed.

Lemma totalInPieceAreaOf_nil : totalInPieceAreaOf [] = 0.
Proof. reflexivity. Qed.

Lemma cutTile_nonempty (correctedAreas : list Area.t) (tile : Tile.t) :
  exists piece rest, cutTile correctedAreas tile = piece :: rest.
Proof.
  unfold cutTile.
  destruct (ltb (totalInPieceAreaOf (inPiecePolygonsOf correctedAreas tile)) 1e-6) eqn:Hlow.
  - eexists. eexists. reflexivity.
  - apply ltb_nspec in Hlow.
    destruct (inPiecePolygonsOf correctedAreas tile) as [|a r].
    + rewrite totalInPieceAreaOf_nil in Hlow. lra.
    + unfold mapi. cbn [mapiFrom app]. eexists. eexists. reflexivity.
Qed.

(** X14. The pieces of one tile: there is at least one; every piece refers
    to the tile and lies at the position of the tile; its waste percentage
    lies between 0 and 100; at most one piece is an offcut, and there are
    at most as many in-pieces as areas. *)
Theorem cutTile_shape (correctedAreas : list Area.t) (tile : Tile.t) :
  cutTile correctedAreas tile <> []
  /\ Forall
       (fun piece =>
          CutTilePiece.originalTile piece = tile
          /\ CutTilePiece.x piece = Tile.x tile
          /\ CutTilePiece.y piece = Tile.y tile
          /\ 0 <= CutTilePiece.wastePercentage piece <= 100)
       (cutTile correctedAreas tile)
  /\ (length (filter CutTilePiece.isOffcut (cutTile correctedAreas tile)) <= 1)%nat
  /\ (length (filter (fun piece => negb (CutTilePiece.isOffcut piece))
                (cutTile correctedAreas tile))
      <= length correctedAreas)%nat.
Proof.
  unfold cutTile.
  assert (Hcount : (length (inPiecePolygonsOf correctedAreas tile)
                    <= length correctedAreas)%nat).
  { rewrite inPiecePolygonsOf_filter.
    etransitivity; [apply filter_length_le | now rewrite length_map]. }
  set (polys := inPiecePolygonsOf correctedAreas tile) in *.
  set (total := totalInPieceAreaOf polys).
  set (orig := Tile.width tile * Tile.height tile).
  set (f := fun (poly : list Point.t) (i : nat) => CutTilePiece.mk _ _ _ _ _ _ _ _).
  destruct (ltb total 1e-6) eqn:Hlow.
  - split; [discriminate|]. split; [|split].
    + constructor; [|constructor].
      cbn [CutTilePiece.originalTile CutTilePiece.x CutTilePiece.y
           CutTilePiece.wastePercentage].
      repeat split; lra.
    + cbn [filter CutTilePiece.isOffcut length]. lia.
    + cbn [filter CutTilePiece.isOffcut negb length]. lia.
  - apply ltb_nspec in Hlow.
    assert (Hne : polys <> []).
    { intros H0. unfold total in Hlow. rewrite H0, totalInPieceAreaOf_nil in Hlow. lra. }
    assert (Hin : Forall (fun piece => CutTilePiece.isOffcut piece = false)
                    (mapi f polys)).
    { apply mapiFrom_Forall. reflexivity. }
    split; [|split; [|split]].
    + unfold mapi. destruct polys as [|a r]; [contradiction | discriminate].
    + apply Forall_app. split.
      * apply mapiFrom_Forall. intros a i. unfold f.
        cbn [CutTilePiece.originalTile CutTilePiece.x CutTilePiece.y
             CutTilePiece.wastePercentage].
        repeat split; lra.
      * destruct (gtb (orig - total) 1e-6) eqn:Hpart; [|constructor].
        constructor; [|constructor].
        cbn [CutTilePiece.originalTile CutTilePiece.x CutTilePiece.y
             CutTilePiece.wastePercentage].
        repeat split; try reflexivity.
        -- apply gtb_spec in Hpart. destruct (gtb orig 0) eqn:Hpos; [|lra].
           apply gtb_spec in Hpos. apply Rmult_le_pos; [|lra].
           apply Rmult_le_pos; [lra | left; now apply Rinv_0_lt_compat].
        -- apply gtb_spec in Hpart. destruct (gtb orig 0) eqn:Hpos; [|lra].
           apply gtb_spec in Hpos.
           assert (Hr : 0 < / orig) by now apply Rinv_0_lt_compat.
           assert (Hor : orig * / orig = 1) by (apply Rinv_r; lra).
           assert (Htr : 0 <= total * / orig) by (apply Rmult_le_pos; lra).
           unfold Rdiv. lra.
    + rewrite filter_app, (filter_none _ _ Hin). cbn [app].
      destruct (gtb (orig - total) 1e-6);
        cbn [filter CutTilePiece.isOffcut length]; lia.
    + rewrite filter_app, filter_all.
      * rewrite length_app. unfold mapi. rewrite mapiFrom_length.
        destruct (gtb (orig - total) 1e-6);
          cbn [filter CutTilePiece.isOffcut negb length]; lia.
      * revert Hin. apply Forall_impl. intros a Ha. now rewrite Ha.
Qed.

(** *** Tiles that no area reaches *)

Lemma polygonArea_nil : polygonArea [] = 0.
Proof. reflexivity. Qed.

Lemma inPiecePolygonsOf_separated (correctedAreas : list Area.t) (tile : Tile.t) :
  (forall area, In area correctedAreas -> separatedFrom tile (Area.points area)) ->
  inPiecePolygonsOf correctedAreas tile = [].
Proof.
  intros Hsep. rewrite inPiecePolygonsOf_filter. apply filter_none.
  apply Forall_map. apply Forall_forall. intros area Harea.
  destruct (Hsep area Harea) as (i & Hi & Hout).
  rewrite (clipLoop_separated_edge (tilePolygon tile) (Area.points area) i Hi Hout).
  rewrite polygonArea_nil. apply gtb_false. lra.
Qed.

Lemma cutTile_separated_areas (correctedAreas : list Area.t) (tile : Tile.t) :
  (forall area, In area correctedAreas -> separatedFrom tile (Area.points area)) ->
  cutTile correctedAreas tile = [fullOffcut tile].
Proof.
  intros Hsep. unfold cutTile. rewrite (inPiecePolygonsOf_separated _ _ Hsep).
  rewrite totalInPieceAreaOf_nil, (ltb_true 0 1e-6) by lra. reflexivity.
Qed.

(** X16. A tile whose four corners lie strictly beyond the line of one edge
    of every area is cut into one piece: the offcut of the whole tile, with
    a waste of 100 per cent. *)
Theorem cutTile_separated (correctedAreas : list Area.t) (tile : Tile.t) :
  (forall area, In area correctedAreas -> separatedFrom tile (Area.points area)) ->
  cutTile correctedAreas tile = [fullOffcut tile].
Proof.
  exact (cutTile_separated_areas correctedAreas tile).
Qed.

Lemma farTile_separated : separatedFrom farTile squareRoom.
Proof.
  exists 1%nat. split; [simpl; lia|].
  intros p Hp. simpl in Hp. unfold crossProduct.
  destruct Hp as [<- | [<- | [<- | [<- | []]]]]; simpl; lra.
Qed.

Lemma cutTile_separated_witness : cutTile [squareArea] farTile = [fullOffcut farTile].
Proof.
  apply (cutTile_separated [squareArea] farTile).
  intros area [<- | []]. exact farTile_separated.
Defined.

(** X17. [handleCut] alerts and leaves exactly when no area is both closed
    and visible or there is no tile; otherwise it hands over at least one
    piece per tile. *)
Theorem handleCut_alert (areas : list Area.t) (tiles : list Tile.t)
    (tileDimensions : TileDimensions.t) :
  (handleCut areas tiles tileDimensions = CutAlert
   <-> cutAreasOf areas = [] \/ tiles = [])
  /\ match handleCut areas tiles tileDimensions with
     | CutAlert => True
     | CutWastePrompt pieces _ | CutView pieces => (length tiles <= length pieces)%nat
     end.
Proof.
  pose proof (handleCut_pieces areas tiles tileDimensions) as Hpieces.
  cbv zeta in Hpieces. fold (cutAreasOf areas) in Hpieces.
  set (corrected := map _ (cutAreasOf areas)) in Hpieces.
  assert (Hlen : (length tiles <= length (flat_map (cutTile corrected) tiles))%nat).
  { clear Hpieces. induction tiles as [|t r IH]; [reflexivity|].
    cbn [flat_map]. rewrite length_app. cbn [length].
    destruct (cutTile_nonempty corrected t) as (a & l & ->). cbn [length]. lia. }
  assert (Hcond : (length (cutAreasOf areas) =? 0)%nat || (length tiles =? 0)%nat = true
                  <-> cutAreasOf areas = [] \/ tiles = []).
  { rewrite orb_true_iff, !Nat.eqb_eq, !length_zero_iff_nil. reflexivity. }
  unfold handleCut in *. fold (cutAreasOf areas) in *.
  destruct ((length (cutAreasOf areas) =? 0)%nat || (length tiles =? 0)%nat).
  - split; [|exact I]. split; [intros _; now apply Hcond | reflexivity].
  - assert (Hno : ~ (cutAreasOf areas = [] \/ tiles = []))
      by (intros H; apply Hcond in H; discriminate).
    destruct (0 <? _)%nat.
    + split; [split; [discriminate | contradiction]|].
      apply (f_equal (@length _)) in Hpieces. rewrite !length_map in Hpieces. lia.
    + split; [split; [discriminate | contradiction]|].
      apply (f_equal (@length _)) in Hpieces. rewrite !length_map in Hpieces. lia.
Qed.

Lemma handleCut_alert_witness :
  handleCut [] oneTile (TileDimensions.mk 500 500) = CutAlert.
Proof.
  apply (proj2 (proj1 (handleCut_alert [] oneTile (TileDimensions.mk 500 500)))).
  left. reflexivity.
Defined.

(** X18. When some area is closed and visible and a tile lies strictly
    beyond the line of one edge of every such area (normalised), [handleCut]
    asks whether the wasted pieces are to be deleted, and the offcut of
    that tile is among the pieces it names. *)
Theorem handleCut_separated_tile (areas : list Area.t) (tiles : list Tile.t)
    (tileDimensions : TileDimensions.t) (tile : Tile.t) :
  cutAreasOf areas <> [] ->
  In tile tiles ->
  (forall area, In area (cutAreasOf areas) ->
     separatedFrom tile (normalized (Area.points area))) ->
  exists pieces ids,
    handleCut areas tiles tileDimensions = CutWastePrompt pieces ids
    /\ In (stringOfZ (Tile.id tile) ++ "-offcut")%string ids.
Proof.
  intros Hareas Htile Hsep.
  pose proof (handleCut_pieces areas tiles tileDimensions) as Hpieces.
  cbv zeta in Hpieces. unfold handleCut in *. fold (cutAreasOf areas) in *.
  set (corrected := map _ (cutAreasOf areas)) in *.
  assert (Hcond : (length (cutAreasOf areas) =? 0)%nat || (length tiles =? 0)%nat = false).
  { apply orb_false_iff. split; apply Nat.eqb_neq; rewrite length_zero_iff_nil.
    - exact Hareas.
    - intros ->. contradiction. }
  rewrite Hcond in *.
  assert (Hcut : cutTile corrected tile = [fullOffcut tile]).
  { apply cutTile_separated_areas. intros area Harea. unfold corrected in Harea.
    apply in_map_iff in Harea. destruct Harea as (a & <- & Ha).
    specialize (Hsep a Ha). unfold normalized in Hsep.
    destruct (isPolygonClockwise (Area.points a)); exact Hsep. }
  set (placed := packOffcuts areas tiles tileDimensions _) in *.
  assert (Hplaced : map geometryOf placed
                    = map geometryOf (flat_map (cutTile corrected) tiles))
    by (destruct (0 <? _)%nat; exact Hpieces).
  clear Hpieces.
  assert (Hin : In (geometryOf (fullOffcut tile)) (map geometryOf placed)).
  { rewrite Hplaced. apply in_map. apply in_flat_map. exists tile.
    split; [assumption|]. rewrite Hcut. now left. }
  apply in_map_iff in Hin. destruct Hin as (q & Hq & Hqin).
  unfold geometryOf, fullOffcut in Hq. injection Hq as Hid _ _ _ Hoff Hwaste.
  set (wasted := filter _ placed).
  assert (Hw : In q wasted).
  { apply filter_In. split; [assumption|].
    rewrite Hoff, Hwaste. unfold geb. rewrite leb_true by lra. reflexivity. }
  assert (Hpos : (0 <? length wasted)%nat = true).
  { apply Nat.ltb_lt. destruct wasted; [contradiction | cbn [length]; lia]. }
  rewrite Hpos. eexists. eexists. split; [reflexivity|].
  rewrite <- Hid. now apply in_map.
Qed.

Lemma handleCut_separated_tile_witness :
  exists pieces ids,
    handleCut [squareArea] [farTile] (TileDimensions.mk 500 500)
    = CutWastePrompt pieces ids
    /\ In (stringOfZ (Tile.id farTile) ++ "-offcut")%string ids.
Proof.
  apply (handleCut_separated_tile [squareArea] [farTile] (TileDimensions.mk 500 500) farTile).
  - discriminate.
  - now left.
  - intros area [<- | []]. change (Area.points squareArea) with squareRoom.
    unfold normalized. rewrite squareRoom_not_clockwise. exact farTile_separated.
Defined.

(** *** Tiles that an area covers *)

(** X19. A tile whose four corners pass the inner-side test for every edge
    of one area, and lie strictly beyond the line of one edge of each of
    the other areas, has one candidate, its own four-corner polygon.  When
    the area that [polygonArea] computes for that polygon is above [1e-6]
    and not more than [1e-6] below [width * height], the tile is cut into
    one piece: the in-piece of the whole tile, without an offcut. *)
Theorem cutTile_covered (pre post : list Area.t) (area : Area.t) (tile : Tile.t) :
  insideAll (tilePolygon tile) (Area.points area) = true ->
  (forall a, In a (pre ++ post) -> separatedFrom tile (Area.points a)) ->
  (clipPolygonByPolygon (tilePolygon tile) (Area.points area) = tilePolygon tile
   /\ forall a, In a (pre ++ post) ->
        clipPolygonByPolygon (tilePolygon tile) (Area.points a) = [])
  /\ (1e-6 < polygonArea (tilePolygon tile) ->
      Tile.width tile * Tile.height tile - (0 + polygonArea (tilePolygon tile)) <= 1e-6 ->
      cutTile (pre ++ area :: post) tile = [inPieceOf tile (tilePolygon tile) 0]).
Proof.
  intros Hin Hsep.
  assert (Hclip : clipPolygonByPolygon (tilePolygon tile) (Area.points area)
                  = tilePolygon tile).
  { unfold clipPolygonByPolygon. apply clipLoop_inside.
    intros i Hi p Hp. unfold insideAll in Hin.
    rewrite forallb_forall in Hin. specialize (Hin i Hi).
    rewrite forallb_forall in Hin. now apply Hin. }
  assert (Hempty : forall a, separatedFrom tile (Area.points a) ->
                     clipPolygonByPolygon (tilePolygon tile) (Area.points a) = []).
  { intros a (i & Hi & Hout). exact (clipLoop_separated_edge _ _ i Hi Hout). }
  split; [split; [exact Hclip | intros a Ha; apply Hempty; now apply Hsep]|].
  intros Hbig Hclose.
  assert (Hrest : forall l, (forall a, In a l -> separatedFrom tile (Area.points a)) ->
            filter (fun poly => gtb (polygonArea poly) 1e-6)
              (map (fun a => clipPolygonByPolygon (tilePolygon tile) (Area.points a)) l)
            = []).
  { intros l Hl. rewrite <- (inPiecePolygonsOf_filter l tile).
    now apply inPiecePolygonsOf_separated. }
  assert (Hpolys : inPiecePolygonsOf (pre ++ area :: post) tile = [tilePolygon tile]).
  { rewrite inPiecePolygonsOf_filter, map_app, filter_app. cbn [map filter].
    rewrite Hclip, (gtb_true _ _ Hbig).
    rewrite !Hrest; [reflexivity | |]; intros a Ha; apply Hsep; apply in_or_app; auto. }
  unfold cutTile. rewrite Hpolys. unfold totalInPieceAreaOf. cbn [fold_left].
  rewrite ltb_false by lra.
  rewrite gtb_false by lra. reflexivity.
Qed.

(** The tile (100,100)-(600,600) in the square room: one in-piece, the
    square (0,0)-(500,500) in the coordinates of the tile. *)
Lemma cutTile_covered_witness :
  cutTile ([] ++ squareArea :: []) innerTile
  = [ CutTilePiece.mk "13-in-0" innerTile
        [ [ Point.mk (-1) (100 - 100) (100 - 100);
            Point.mk (-2) (100 + 500 - 100) (100 - 100);
            Point.mk (-3) (100 + 500 - 100) (100 + 500 - 100);
            Point.mk (-4) (100 - 100) (100 + 500 - 100) ] ]
        None 100 100 false 0 ].
Proof.
  assert (Harea : polygonArea (tilePolygon innerTile) = 500 * 500).
  { unfold tilePolygon. rewrite polygonArea_rectPolygon. apply Rabs_pos_eq.
    cbn [innerTile Tile.width Tile.height]. lra. }
  apply (proj2 (cutTile_covered [] [] squareArea innerTile innerTile_inside
                  (fun a (H : In a ([] ++ [])) => False_ind _ H))).
  - rewrite Harea. lra.
  - rewrite Harea. cbn [innerTile Tile.width Tile.height]. lra.
Defined.

(** ** Further properties of [renumberTilesByColor] *)

Lemma renumber_map (tiles : list Tile.t) :
  renumberTilesByColor tiles = map (renumberedOf tiles) tiles.
Proof. reflexivity. Qed.

Lemma renumberedOf_id (tiles : list Tile.t) (t : Tile.t) :
  Tile.id (renumberedOf tiles t) = Tile.id t.
Proof.
  unfold renumberedOf, mapOfEntries.
  destruct (assocGet Z.eqb _ (Tile.id t)) as [t'|] eqn:Hget; [|reflexivity].
  apply (mapOfEntries_In Z.eqb Z_eqb_spec) in Hget.
  destruct Hget as [Hin | Hget]; [|discriminate].
  apply in_map_iff in Hin. destruct Hin as (u & Heq & _).
  injection Heq as Hid Hu. subst u. exact Hid.
Qed.

(** X20. For every list of tiles, also one in which ids repeat,
    [renumberTilesByColor] returns as many tiles, and the tile at each place
    has the id of the tile that was there. *)
Theorem renumberTilesByColor_ids (tiles : list Tile.t) :
  map Tile.id (renumberTilesByColor tiles) = map Tile.id tiles.
Proof.
  rewrite renumber_map, map_map. apply map_ext. intros t. apply renumberedOf_id.
Qed.

Lemma renumberedOf_cases (tiles : list Tile.t) (t : Tile.t) :
  NoDup (map Tile.id tiles) -> In t tiles ->
  (Tile.number t = None /\ renumberedOf tiles t = t)
  \/ exists i,
       nth_error (sort byPosition (numberedOfColor (Tile.color t) tiles)) i = Some t
       /\ renumberedOf tiles t = withNumber t (Some (label (Tile.color t) (i + 1))).
Proof.
  intros Hnd Ht. pose proof (renumbered_lookup tiles t Hnd Ht) as H.
  cbv zeta in H. unfold renumberedOf.
  destruct (assocGet Z.eqb _ (Tile.id t)) as [t'|].
  - right. exact H.
  - left. now split.
Qed.

Lemma sorted_numbered (tiles : list Tile.t) (c : string) (i : nat) (t : Tile.t) :
  nth_error (sort byPosition (numberedOfColor c tiles)) i = Some t ->
  In t tiles /\ isSome (Tile.number t) = true /\ Tile.color t = c.
Proof.
  intros Hn. apply nth_error_In in Hn.
  apply (Permutation_in _ (sort_perm byPosition _)) in Hn.
  unfold numberedOfColor in Hn. apply filter_In in Hn. destruct Hn as (Hu & Hb).
  apply andb_true_iff in Hb. destruct Hb as (Hb1 & Hb2).
  apply String.eqb_eq in Hb2. now repeat split.
Qed.

(** What renumbering keeps of a tile. *)
Lemma renumberedOf_keeps (tiles : list Tile.t) (t : Tile.t) :
  NoDup (map Tile.id tiles) -> In t tiles ->
  Tile.color (renumberedOf tiles t) = Tile.color t
  /\ Tile.x (renumberedOf tiles t) = Tile.x t
  /\ Tile.y (renumberedOf tiles t) = Tile.y t
  /\ isSome (Tile.number (renumberedOf tiles t)) = isSome (Tile.number t).
Proof.
  intros Hnd Ht. destruct (renumberedOf_cases tiles t Hnd Ht) as [[_ ->] | (i & Hn & ->)].
  - now repeat split.
  - apply sorted_numbered in Hn. destruct Hn as (_ & Hsome & _).
    cbn [withNumber Tile.color Tile.x Tile.y Tile.number isSome]. now repeat split.
Qed.

Section SortMap.
Context {A : Type} (compare : A -> A -> R) (g : A -> A).

Lemma insertSorted_map (a : A) (l : list A) :
  (forall b, In b l -> compare (g a) (g b) = compare a b) ->
  insertSorted compare (g a) (map g l) = map g (insertSorted compare a l).
Proof.
  induction l as [|b r IH]; intros H; [reflexivity|].
  cbn [map insertSorted]. rewrite (H b) by now left.
  destruct (gtb (compare a b) 0); cbn [map]; [|reflexivity].
  rewrite IH; [reflexivity|]. intros c Hc. apply H. now right.
Qed.

Lemma sort_map (l : list A) :
  (forall a b, In a l -> In b l -> compare (g a) (g b) = compare a b) ->
  sort compare (map g l) = map g (sort compare l).
Proof.
  induction l as [|a r IH]; intros H; [reflexivity|].
  cbn [map]. unfold sort in *. cbn [fold_right]. rewrite IH.
  - apply insertSorted_map. intros b Hb. apply H; [now left|]. right.
    apply (Permutation_in _ (sort_perm compare r)). exact Hb.
  - intros a' b' Ha' Hb'. apply H; now right.
Qed.
End SortMap.

Lemma filter_map_swap {A B : Type} (p : B -> bool) (g : A -> B) (l : list A) :
  filter p (map g l) = map g (filter (fun a => p (g a)) l).
Proof.
  induction l as [|a r IH]; [reflexivity|]. cbn [map filter].
  destruct (p (g a)); cbn [map]; now rewrite IH.
Qed.

(** Selecting tiles keeps their ids distinct. *)
Lemma selected_ids_NoDup (keep : Tile.t -> bool) (tiles : list Tile.t) :
  NoDup (map Tile.id tiles) -> NoDup (map Tile.id (filter keep tiles)).
Proof.
  induction tiles as [|t rest IH]; intros Hnd; [constructor|].
  cbn [map] in Hnd. apply NoDup_cons_iff in Hnd. destruct Hnd as [Hfresh Hrest].
  cbn [filter]. destruct (keep t); [|now apply IH].
  cbn [map]. apply NoDup_cons; [|now apply IH].
  intros Hin. apply Hfresh. apply in_map_iff in Hin. destruct Hin as (u & Hu & Hin).
  apply filter_In in Hin. rewrite <- Hu. apply in_map. tauto.
Qed.

(** X21. On tiles with pairwise distinct ids, renumbering a second time
    changes nothing. *)
Theorem renumberTilesByColor_idempotent (tiles : list Tile.t) :
  NoDup (map Tile.id tiles) ->
  renumberTilesByColor (renumberTilesByColor tiles) = renumberTilesByColor tiles.
Proof.
  intros Hnd. rewrite (renumber_map tiles).
  set (g := renumberedOf tiles). set (R := map g tiles).
  assert (Hkeep : forall t, In t tiles ->
            Tile.color (g t) = Tile.color t /\ Tile.x (g t) = Tile.x t
            /\ Tile.y (g t) = Tile.y t
            /\ isSome (Tile.number (g t)) = isSome (Tile.number t))
    by (intros t Ht; now apply renumberedOf_keeps).
  assert (HndR : NoDup (map Tile.id R)).
  { unfold R. rewrite map_map.
    rewrite (map_ext _ Tile.id); [exact Hnd|]. intros t. apply renumberedOf_id. }
  assert (Hgroup : forall c,
            sort byPosition (numberedOfColor c R)
            = map g (sort byPosition (numberedOfColor c tiles))).
  { intros c. unfold numberedOfColor, R. rewrite filter_map_swap.
    rewrite (filter_ext_in _ (fun t => isSome (Tile.number t)
                                       && String.eqb (Tile.color t) c)).
    - apply sort_map. intros a b Ha Hb.
      apply filter_In in Ha, Hb. destruct Ha as [Ha _], Hb as [Hb _].
      destruct (Hkeep a Ha) as (_ & Hax & Hay & _).
      destruct (Hkeep b Hb) as (_ & Hbx & Hby & _).
      unfold byPosition. now rewrite Hax, Hay, Hbx, Hby.
    - intros t Ht. destruct (Hkeep t Ht) as (Hc & _ & _ & Hs). now rewrite Hc, Hs. }
  rewrite renumber_map. rewrite <- (map_id R) at 3. apply map_ext_in.
  intros r Hr. unfold R in Hr. apply in_map_iff in Hr. destruct Hr as (t & <- & Ht).
  assert (HrR : In (g t) R) by (unfold R; now apply in_map).
  destruct (renumberedOf_cases R (g t) HndR HrR) as [[_ ->] | (j & Hj & ->)];
    [reflexivity|].
  rewrite Hgroup in Hj.
  destruct (Hkeep t Ht) as (Hc & _ & _ & Hs). rewrite Hc in *.
  destruct (renumberedOf_cases tiles t Hnd Ht) as [[Hnone Hgt] | (i & Hi & Hgt)].
  - (* an unnumbered tile is in no group *)
    exfalso. apply nth_error_In in Hj. apply in_map_iff in Hj.
    destruct Hj as (u & Hu & Hin). apply In_nth_error in Hin. destruct Hin as (k & Hk).
    apply sorted_numbered in Hk. destruct Hk as (Hut & Hsome & _).
    assert (u = t) as ->.
    { apply (injective_on_NoDup Tile.id tiles); try assumption.
      rewrite <- (renumberedOf_id tiles u), <- (renumberedOf_id tiles t).
      fold g. now rewrite Hu. }
    rewrite Hnone in Hsome. discriminate.
  - assert (Hsorted : NoDup (map Tile.id
                               (map g (sort byPosition
                                         (numberedOfColor (Tile.color t) tiles))))).
    { rewrite map_map. rewrite (map_ext _ Tile.id) by (intros u; apply renumberedOf_id).
      apply (Permutation_NoDup
               (Permutation_map Tile.id
                  (Permutation_sym (sort_perm byPosition
                                      (numberedOfColor (Tile.color t) tiles))))).
      now apply selected_ids_NoDup. }
    assert (Hij : j = i).
    { rewrite NoDup_nth_error in Hsorted. apply Hsorted.
      - apply nth_error_Some. rewrite (map_nth_error Tile.id _ _ Hj). discriminate.
      - rewrite (map_nth_error Tile.id _ _ Hj).
        rewrite (map_nth_error Tile.id _ _ (map_nth_error g _ _ Hi)). reflexivity. }
    subst j. fold g in Hgt. rewrite Hgt. reflexivity.
Qed.

Lemma renumberTilesByColor_idempotent_witness :
  renumberTilesByColor (renumberTilesByColor threeTiles) = renumberTilesByColor threeTiles.
Proof.
  apply (renumberTilesByColor_idempotent threeTiles).
  simpl. repeat constructor; simpl; intuition lia.
Defined.

(** ** Further properties of the snap resolvers *)

(** The extension loop ends on a point within the radius. *)
Lemma lineStep_fold_within (pos : Pos.t) (lines : list TrackingLine.t) :
  forall (best : option Pos.t) (minSnapDist snapRadius : R),
    minSnapDist <= snapRadius ->
    (forall p, best = Some p -> distance pos p < snapRadius) ->
    forall p, fst (fold_left (lineStep pos) lines (best, minSnapDist)) = Some p ->
              distance pos p < snapRadius.
Proof.
  induction lines as [|line rest IH]; intros best minSnapDist snapRadius Hmin Hbest p;
    cbn [fold_left].
  - cbn [fst]. apply Hbest.
  - unfold lineStep at 2.
    destruct (eqb _ 0 && eqb _ 0); [now apply IH|].
    match goal with |- context [ltb ?d minSnapDist] => destruct (ltb d minSnapDist) eqn:Hlt end;
      [|now apply IH].
    apply ltb_spec in Hlt. apply IH; [lra|].
    intros q [= <-]. lra.
Qed.

(** X22. Without polar increments, a result of [getSnappedPos] that is
    neither a grid point nor the cursor itself (type [vertex], [midpoint],
    [intersection] or [extension]) lies closer to the cursor than the snap
    radius [SNAP_DISTANCE / zoom]. *)
Theorem getSnappedPos_within_radius (c : Canvas.t) (pos : Pos.t) :
  Canvas.activeAngleSnap c = None -> Canvas.activeLengthSnap c = None ->
  SnapResult.type (getSnappedPos c pos) <> grid ->
  SnapResult.type (getSnappedPos c pos) <> none ->
  distance pos (SnapResult.pos (getSnappedPos c pos)) < SNAP_DISTANCE / Canvas.zoom c.
Proof.
  intros Hangle Hlength. rewrite (getSnappedPos_ordinary c pos Hangle Hlength).
  pose proof (bestSnapOf_recorded c pos) as Hrec.
  unfold ordinarySnap. unfold recorded in Hrec.
  assert (Hbest : BestSnap.type (bestSnapOf c pos) <> none ->
                  distance pos (BestSnap.pos (bestSnapOf c pos))
                  < SNAP_DISTANCE / Canvas.zoom c).
  { intros Hne. destruct (BestSnap.dist (bestSnapOf c pos)) as [d|].
    - destruct Hrec as (Hd & Hlt & _). now rewrite <- Hd.
    - destruct Hrec as (Hnone & _). contradiction. }
  assert (Hrest : forall r : SnapResult.t,
            r = match
                  (if SnapModes.otrack (Canvas.snapModes c)
                      && (0 <? length (TrackingGuides.lines (Canvas.trackingGuides c)))%nat
                   then fst (fold_left (lineStep pos)
                               (TrackingGuides.lines (Canvas.trackingGuides c))
                               (None, SNAP_DISTANCE / Canvas.zoom c))
                   else None)
                with
                | Some p => SnapResult.mk p extension
                | None =>
                    if SnapModes.grid (Canvas.snapModes c) then
                      SnapResult.mk
                        (Pos.mk
                           (round (Pos.x pos / TileDimensions.width (Canvas.tileDimensions c))
                            * TileDimensions.width (Canvas.tileDimensions c))
                           (round (Pos.y pos / TileDimensions.height (Canvas.tileDimensions c))
                            * TileDimensions.height (Canvas.tileDimensions c)))
                        grid
                    else SnapResult.mk pos none
                end ->
            SnapResult.type r <> grid -> SnapResult.type r <> none ->
            distance pos (SnapResult.pos r) < SNAP_DISTANCE / Canvas.zoom c).
  { intros r ->.
    destruct (SnapModes.otrack _ && _).
    - destruct (fst _) as [p|] eqn:Hp.
      + intros _ _. cbn [SnapResult.pos].
        apply (lineStep_fold_within pos _ None _ _ (Rle_refl _)
                 ltac:(intros ? [=]) p Hp).
      + destruct (SnapModes.grid _); cbn [SnapResult.type]; congruence.
    - destruct (SnapModes.grid _); cbn [SnapResult.type]; congruence. }
  destruct (BestSnap.type (bestSnapOf c pos)) eqn:Htype;
    try (apply Hrest; reflexivity);
    intros _ _; cbn [SnapResult.pos]; apply Hbest; discriminate.
Qed.

Lemma getSnappedPos_slanted :
  getSnappedPos slantedCanvas cursorOnMidpoint
  = SnapResult.mk (Pos.mk ((-6 + 6) / 2) ((8 + -8) / 2)) midpoint.
Proof.
  set (pos := cursorOnMidpoint).
  assert (H1 : distance pos (Pos.mk (-6) 8) = 10) by distance_is.
  assert (H2 : distance pos (Point.mk 1 (-6) 8) = 10) by distance_is.
  assert (H3 : distance pos (Point.mk 2 6 (-8)) = 10) by distance_is.
  assert (H4 : distance pos (Pos.mk ((-6 + 6) / 2) ((8 + -8) / 2)) = 0) by distance_is.
  rewrite getSnappedPos_ordinary by reflexivity.
  unfold ordinarySnap. rewrite bestSnapOf_candidates.
  unfold vertexCandidates, midpointCandidates, midpointOf, findPoint, SNAP_DISTANCE.
  simpl. unfold candidateStep, closerThan.
  repeat first [ rewrite H1 | rewrite H2 | rewrite H3 | rewrite H4
               | progress rdecide | progress cbn [andb BestSnap.dist] ].
  reflexivity.
Qed.

Lemma getSnappedPos_within_radius_witness :
  distance cursorOnMidpoint (SnapResult.pos (getSnappedPos slantedCanvas cursorOnMidpoint))
  < SNAP_DISTANCE / Canvas.zoom slantedCanvas.
Proof.
  apply (getSnappedPos_within_radius slantedCanvas cursorOnMidpoint).
  - reflexivity.
  - reflexivity.
  - rewrite getSnappedPos_slanted. discriminate.
  - rewrite getSnappedPos_slanted. discriminate.
Defined.

(** X23. Without polar increments, a result of type [vertex], [midpoint] or
    [intersection] is itself a candidate of its type (a vertex or a wall
    midpoint of the visible areas with object snap on, the tracking
    intersection with object tracking on), and it is a nearest one among
    all candidates: no vertex, no wall midpoint and no tracking
    intersection is closer to the cursor. *)
Theorem getSnappedPos_nearest (c : Canvas.t) (pos : Pos.t) :
  Canvas.activeAngleSnap c = None -> Canvas.activeLengthSnap c = None ->
  SnapResult.type (getSnappedPos c pos) = vertex
  \/ SnapResult.type (getSnappedPos c pos) = midpoint
  \/ SnapResult.type (getSnappedPos c pos) = intersection ->
  In (SnapResult.pos (getSnappedPos c pos))
     (candidatesOf c (SnapResult.type (getSnappedPos c pos)))
  /\ forall q, In q (osnapCandidates c ++ trackedIntersection c) ->
       distance pos (SnapResult.pos (getSnappedPos c pos)) <= distance pos q.
Proof.
  intros Hangle Hlength. rewrite (getSnappedPos_ordinary c pos Hangle Hlength).
  intros Htype. destruct (ordinarySnap_object c pos Htype) as (Hin & _ & Hnear).
  now split.
Qed.

(** On the slanted wall with the cursor at (0, 0) the result is the
    midpoint of the wall, one of the wall midpoints of the visible areas,
    and the tracking intersection (-6, 8) is not closer. *)
Lemma getSnappedPos_nearest_witness :
  SnapResult.type (getSnappedPos slantedCanvas cursorOnMidpoint) = midpoint
  /\ In (SnapResult.pos (getSnappedPos slantedCanvas cursorOnMidpoint))
        (midpointCandidates (Canvas.visibleAreas slantedCanvas))
  /\ distance cursorOnMidpoint (SnapResult.pos (getSnappedPos slantedCanvas cursorOnMidpoint))
     <= distance cursorOnMidpoint (Pos.mk (-6) 8).
Proof.
  assert (Ht : SnapResult.type (getSnappedPos slantedCanvas cursorOnMidpoint) = midpoint)
    by (rewrite getSnappedPos_slanted; reflexivity).
  destruct (getSnappedPos_nearest slantedCanvas cursorOnMidpoint eq_refl eq_refl
              (or_intror (or_introl Ht))) as (Hin & Hnear).
  split; [exact Ht|]. split.
  - rewrite Ht in Hin. exact Hin.
  - apply Hnear. simpl. auto.
Defined.

(** *** The first point of an area *)

Lemma bestSnapOf_no_otrack (c : Canvas.t) (pos : Pos.t) :
  SnapModes.otrack (Canvas.snapModes c) = false ->
  BestSnap.type (bestSnapOf c pos) <> intersection.
Proof.
  intros Hoff. rewrite bestSnapOf_candidates. cbv zeta. rewrite Hoff. cbn [andb].
  assert (H1 : BestSnap.type
                 match TrackingGuides.intersection (Canvas.trackingGuides c) with
                 | Some _ => BestSnap.mk pos None none
                 | None => BestSnap.mk pos None none
                 end = none)
    by now destruct (TrackingGuides.intersection _).
  destruct (SnapModes.osnap _); [|rewrite H1; discriminate].
  match goal with
  | |- BestSnap.type (fold_left ?f ?l (fold_left ?g ?m ?b)) <> _ =>
      destruct (candidates_type pos (SNAP_DISTANCE / Canvas.zoom c) midpoint l
                  (fold_left g m b)) as [-> | ->];
        [discriminate|];
      destruct (candidates_type pos (SNAP_DISTANCE / Canvas.zoom c) vertex m b)
        as [-> | ->]; [discriminate|]
  end.
  rewrite H1. discriminate.
Qed.

(** X24. With object tracking off and no polar increment set, the resolver
    for the first point of an area and the general resolver agree. *)
Theorem getFirstPointSnap_getSnappedPos (c : Canvas.t) (pos : Pos.t) :
  Canvas.activeAngleSnap c = None -> Canvas.activeLengthSnap c = None ->
  SnapModes.otrack (Canvas.snapModes c) = false ->
  getFirstPointSnap c pos = getSnappedPos c pos.
Proof.
  intros Hangle Hlength Hoff. rewrite (getSnappedPos_ordinary c pos Hangle Hlength).
  pose proof (bestSnapOf_no_otrack c pos Hoff) as Hni.
  unfold getFirstPointSnap, ordinarySnap.
  assert (Hbest : bestSnapOf c pos
                  = if SnapModes.osnap (Canvas.snapModes c) then
                      fold_left (midpointStep pos (SNAP_DISTANCE / Canvas.zoom c))
                        (flat_map (fun a => map (fun w => (w, Area.points a)) (Area.walls a))
                           (Canvas.visibleAreas c))
                        (fold_left (vertexStep pos (SNAP_DISTANCE / Canvas.zoom c))
                           (flat_map Area.points (Canvas.visibleAreas c))
                           (BestSnap.mk pos None none))
                    else BestSnap.mk pos None none).
  { unfold bestSnapOf. rewrite Hoff. cbn [andb].
    now destruct (TrackingGuides.intersection _). }
  rewrite <- Hbest. rewrite Hoff. cbn [andb].
  destruct (BestSnap.type (bestSnapOf c pos)); try reflexivity. contradiction.
Qed.

Lemma getFirstPointSnap_getSnappedPos_witness :
  getFirstPointSnap gridCanvas (Pos.mk 730 240) = getSnappedPos gridCanvas (Pos.mk 730 240).
Proof.
  apply (getFirstPointSnap_getSnappedPos gridCanvas (Pos.mk 730 240)); reflexivity.
Defined.

(** *** The fallbacks *)

Lemma getSnappedPos_cases (c : Canvas.t) (pos : Pos.t) :
  (exists points lastPoint, getSnappedPos c pos = polarSnap c points lastPoint pos)
  \/ getSnappedPos c pos = ordinarySnap c pos.
Proof.
  unfold getSnappedPos. destruct (0 <? length _)%nat; [|now right].
  destruct (isWALL _ && _); [left; eauto | now right].
Qed.

(** X25. A result of type [grid] is, in each coordinate, a multiple of the
    tile dimension nearest to the cursor (for tile dimensions other than
    0), and a result of type [none] is the cursor itself. *)
Theorem getSnappedPos_fallback (c : Canvas.t) (pos : Pos.t) :
  (SnapResult.type (getSnappedPos c pos) = grid ->
   (TileDimensions.width (Canvas.tileDimensions c) <> 0 ->
    nearestMultiple (TileDimensions.width (Canvas.tileDimensions c)) (Pos.x pos)
      (Pos.x (SnapResult.pos (getSnappedPos c pos))))
   /\ (TileDimensions.height (Canvas.tileDimensions c) <> 0 ->
       nearestMultiple (TileDimensions.height (Canvas.tileDimensions c)) (Pos.y pos)
         (Pos.y (SnapResult.pos (getSnappedPos c pos)))))
  /\ (SnapResult.type (getSnappedPos c pos) = none ->
      SnapResult.pos (getSnappedPos c pos) = pos).
Proof.
  destruct (getSnappedPos_cases c pos) as [(points & lastPoint & ->) | ->].
  - split; intros H;
      destruct (polarSnap_type c points lastPoint pos) as [H' | H'];
      rewrite H' in H; discriminate.
  - unfold ordinarySnap.
    destruct (BestSnap.type (bestSnapOf c pos)) eqn:Hb; cbn [SnapResult.type];
      try (split; intros H; discriminate);
      destruct (if SnapModes.otrack _ && _ then _ else _);
      try destruct (SnapModes.grid _); cbn [SnapResult.type SnapResult.pos Pos.x Pos.y];
      (split; [intros H; try discriminate | intros H; try discriminate; try reflexivity]);
      split; intros Hne; now apply round_nearestMultiple.
Qed.

Lemma getSnappedPos_fallback_witness :
  nearestMultiple 500 730 (Pos.x (SnapResult.pos (getSnappedPos gridCanvas (Pos.mk 730 240)))).
Proof.
  apply (proj1 (getSnappedPos_fallback gridCanvas (Pos.mk 730 240))).
  - reflexivity.
  - simpl. lra.
Defined.

(** ** The undo history *)

Lemma restore_ok (s : App.t) (i : nat) :
  (i < length (App.history s))%nat ->
  exists state,
    nth_error (App.history s) i = Some state
    /\ restore s i
       = Some (App.mk (HistoryState.areas state) (HistoryState.tiles state)
                 (findIndex (fun a => negb (Area.isClosed a)) (HistoryState.areas state))
                 (App.history s) i (App.isCutViewActive s)).
Proof.
  intros Hi. unfold restore.
  destruct (nth_error (App.history s) i) as [state|] eqn:Hn.
  - exists state. now split.
  - apply nth_error_None in Hn. lia.
Qed.

Lemma recordHistory_index (s : App.t) (newAreas : list Area.t) (newTiles : list Tile.t) :
  App.isCutViewActive s = false ->
  S (App.historyIndex (recordHistory s newAreas newTiles))
  = length (App.history (recordHistory s newAreas newTiles))
  /\ nth_error (App.history (recordHistory s newAreas newTiles))
       (App.historyIndex (recordHistory s newAreas newTiles))
     = Some (HistoryState.mk newAreas newTiles).
Proof.
  intros Hcut. unfold recordHistory. rewrite Hcut.
  cbn [App.historyIndex App.history]. split.
  - rewrite length_app. cbn [length]. lia.
  - rewrite nth_error_app2 by lia. now rewrite Nat.sub_diag.
Qed.

(** X26. The index of the history always points into the history: this
    holds after every [recordHistory] outside the cut view, and
    [recordHistory], [handleUndo] and [handleRedo] keep it; while it holds,
    [handleUndo] and [handleRedo] never read beyond the history; and right
    after [recordHistory] there is nothing to redo. *)
Theorem history_invariant (s : App.t) (newAreas : list Area.t) (newTiles : list Tile.t) :
  (App.isCutViewActive s = false -> historyOk (recordHistory s newAreas newTiles))
  /\ (App.isCutViewActive s = false ->
      handleRedo (recordHistory s newAreas newTiles)
      = Some (recordHistory s newAreas newTiles))
  /\ (historyOk s ->
      historyOk (recordHistory s newAreas newTiles)
      /\ (exists s', handleUndo s = Some s' /\ historyOk s')
      /\ (exists s', handleRedo s = Some s' /\ historyOk s')).
Proof.
  assert (Hrec : App.isCutViewActive s = false ->
                 historyOk (recordHistory s newAreas newTiles)).
  { intros Hcut. destruct (recordHistory_index s newAreas newTiles Hcut) as [Hlen _].
    unfold historyOk. lia. }
  split; [exact Hrec|]. split.
  - intros Hcut. destruct (recordHistory_index s newAreas newTiles Hcut) as [Hlen _].
    unfold handleRedo.
    destruct (Z.ltb_spec (Z.of_nat (App.historyIndex (recordHistory s newAreas newTiles)))
                (Z.of_nat (length (App.history (recordHistory s newAreas newTiles))) - 1));
      [lia | reflexivity].
  - intros Hok. split; [|split].
    + destruct (App.isCutViewActive s) eqn:Hcut; [|now apply Hrec].
      unfold recordHistory. now rewrite Hcut.
    + unfold handleUndo. destruct (Nat.ltb_spec 0 (App.historyIndex s)) as [Hpos | _];
        cbn [andb]; [|now exists s].
      destruct (negb (App.isCutViewActive s)); [|now exists s].
      unfold historyOk in Hok.
      destruct (restore_ok s (App.historyIndex s - 1)) as (state & _ & ->); [lia|].
      eexists. split; [reflexivity|]. unfold historyOk.
      cbn [App.historyIndex App.history]. lia.
    + unfold handleRedo.
      destruct (Z.ltb_spec (Z.of_nat (App.historyIndex s))
                  (Z.of_nat (length (App.history s)) - 1)) as [Hlt | _];
        cbn [andb]; [|now exists s].
      destruct (negb (App.isCutViewActive s)); [|now exists s].
      destruct (restore_ok s (App.historyIndex s + 1)) as (state & _ & ->); [lia|].
      eexists. split; [reflexivity|]. unfold historyOk.
      cbn [App.historyIndex App.history]. lia.
Qed.

Lemma history_invariant_witness :
  historyOk (recordHistory initialApp [] oneTile).
Proof.
  apply (proj1 (history_invariant initialApp [] oneTile)). reflexivity.
Defined.

Lemma nth_error_firstn_lt {A : Type} (l : list A) (i n : nat) :
  (i < n)%nat -> nth_error (firstn n l) i = nth_error l i.
Proof.
  revert i n. induction l as [|a r IH]; intros i n Hi.
  - now rewrite firstn_nil.
  - destruct n as [|n]; [lia|]. destruct i as [|i]; [reflexivity|].
    cbn [firstn nth_error]. apply IH. lia.
Qed.

(** X27. Outside the cut view, with the document on the screen being the
    current entry of the history: after an edit, [handleUndo] brings back
    the areas and the tiles from before the edit, and [handleRedo] after
    that brings back those of the edit. *)
Theorem handleUndo_handleRedo_edit (s : App.t) (newAreas : list Area.t)
    (newTiles : list Tile.t) :
  App.isCutViewActive s = false -> historyOk s -> synced s ->
  exists s1 s2,
    handleUndo (edit s newAreas newTiles) = Some s1
    /\ App.areas s1 = App.areas s /\ App.tiles s1 = App.tiles s
    /\ App.historyIndex s1 = App.historyIndex s
    /\ handleRedo s1 = Some s2
    /\ App.areas s2 = newAreas /\ App.tiles s2 = newTiles
    /\ App.historyIndex s2 = App.historyIndex (edit s newAreas newTiles)
    /\ App.history s2 = App.history (edit s newAreas newTiles).
Proof.
  intros Hcut Hok Hsync. unfold historyOk, synced in *.
  unfold edit, recordHistory. cbn [App.isCutViewActive App.historyIndex App.history
                                   App.areas App.tiles App.activeAreaIndex].
  rewrite Hcut.
  set (kept := firstn (App.historyIndex s + 1) (App.history s)).
  assert (Hkept : length kept = (App.historyIndex s + 1)%nat).
  { unfold kept. rewrite length_firstn. lia. }
  assert (Hcur : nth_error (kept ++ [HistoryState.mk newAreas newTiles])
                   (App.historyIndex s)
                 = Some (HistoryState.mk (App.areas s) (App.tiles s))).
  { rewrite nth_error_app1 by lia. unfold kept.
    rewrite nth_error_firstn_lt by lia. exact Hsync. }
  assert (Hnew : nth_error (kept ++ [HistoryState.mk newAreas newTiles])
                   (App.historyIndex s + 1)
                 = Some (HistoryState.mk newAreas newTiles)).
  { rewrite nth_error_app2 by lia. rewrite Hkept, Nat.sub_diag. reflexivity. }
  unfold handleUndo. cbn [App.historyIndex App.isCutViewActive]. rewrite Hkept.
  replace (0 <? App.historyIndex s + 1)%nat with true
    by (symmetry; apply Nat.ltb_lt; lia).
  cbn [andb negb]. replace (App.historyIndex s + 1 - 1)%nat with (App.historyIndex s) by lia.
  unfold restore at 1. cbn [App.history App.isCutViewActive]. rewrite Hcur.
  eexists. eexists. split; [reflexivity|].
  cbn [App.areas App.tiles App.historyIndex HistoryState.areas HistoryState.tiles].
  repeat (split; [reflexivity|]).
  unfold handleRedo. cbn [App.historyIndex App.history App.isCutViewActive].
  rewrite length_app, Hkept. cbn [length].
  replace (Z.of_nat (App.historyIndex s)
           <? Z.of_nat (App.historyIndex s + 1 + 1) - 1)%Z with true
    by (symmetry; apply Z.ltb_lt; lia).
  cbn [andb negb]. unfold restore. cbn [App.history App.isCutViewActive]. rewrite Hnew.
  split; [reflexivity|].
  cbn [App.areas App.tiles App.historyIndex App.history
       HistoryState.areas HistoryState.tiles].
  repeat split.
Qed.

Lemma handleUndo_handleRedo_edit_witness :
  exists s1 s2,
    handleUndo (edit initialApp [] oneTile) = Some s1
    /\ App.areas s1 = App.areas initialApp /\ App.tiles s1 = App.tiles initialApp
    /\ App.historyIndex s1 = App.historyIndex initialApp
    /\ handleRedo s1 = Some s2
    /\ App.areas s2 = [] /\ App.tiles s2 = oneTile
    /\ App.historyIndex s2 = App.historyIndex (edit initialApp [] oneTile)
    /\ App.history s2 = App.history (edit initialApp [] oneTile).
Proof.
  apply (handleUndo_handleRedo_edit initialApp [] oneTile).
  - reflexivity.
  - unfold historyOk. simpl. lia.
  - reflexivity.
Defined.

(** In the cut view the history is frozen: [recordHistory], [handleUndo]
    and [handleRedo] leave the state as it is. *)
Lemma history_frozen_in_cut_view (s : App.t) (newAreas : list Area.t)
    (newTiles : list Tile.t) :
  App.isCutViewActive s = true ->
  recordHistory s newAreas newTiles = s
  /\ handleUndo s = Some s
  /\ handleRedo s = Some s.
Proof.
  intros Hcut. unfold recordHistory, handleUndo, handleRedo. rewrite Hcut.
  cbn [negb]. rewrite !andb_false_r. repeat split.
Qed.

Lemma history_frozen_in_cut_view_witness :
  recordHistory cutViewApp [] oneTile = cutViewApp
  /\ handleUndo cutViewApp = Some cutViewApp
  /\ handleRedo cutViewApp = Some cutViewApp.
Proof.
  apply (history_frozen_in_cut_view cutViewApp [] oneTile). reflexivity.
Defined.

(** ** The snap switches *)

(** X28. The master switch flips: after [handleToggleMasterSnap] the master
    snap is on exactly when it was off before.  After either handler a
    polar increment and a snap mode are never on together, so that the
    effect that follows has nothing to change; and the effect alone
    restores this for every state. *)
Theorem snap_switches (s : SnapState.t) (mode : SnapMode) :
  isMasterSnapOn (handleToggleMasterSnap s) = negb (isMasterSnapOn s)
  /\ exclusive (handleToggleMasterSnap s)
  /\ exclusive (handleToggleSnapMode mode s)
  /\ snapEffect (handleToggleMasterSnap s) = handleToggleMasterSnap s
  /\ snapEffect (handleToggleSnapMode mode s) = handleToggleSnapMode mode s
  /\ exclusive (snapEffect s).
Proof.
  destruct s as [[g o t] angle len].
  split; [|split; [|split; [|split; [|split]]]].
  - unfold handleToggleMasterSnap, isMasterSnapOn.
    cbn [SnapState.activeAngleSnap SnapState.activeLengthSnap SnapState.snapModes
         SnapModes.grid SnapModes.osnap SnapModes.otrack isSome orb].
    destruct (isSome angle || isSome len); [reflexivity|].
    now destruct (g && o && t).
  - unfold exclusive, handleToggleMasterSnap.
    cbn [SnapState.activeAngleSnap SnapState.activeLengthSnap isSome orb]. discriminate.
  - unfold exclusive, handleToggleSnapMode.
    destruct mode, g, o, t; cbn; try discriminate; intros _; reflexivity.
  - unfold handleToggleMasterSnap, snapEffect.
    cbn [SnapState.activeAngleSnap SnapState.activeLengthSnap isSome orb]. reflexivity.
  - unfold handleToggleSnapMode, snapEffect.
    destruct mode, g, o, t; cbn; try reflexivity;
      destruct (isSome angle || isSome len); reflexivity.
  - unfold exclusive, snapEffect.
    cbn [SnapState.activeAngleSnap SnapState.activeLengthSnap SnapState.snapModes
         SnapModes.grid SnapModes.osnap SnapModes.otrack].
    destruct (isSome angle || isSome len) eqn:Hp.
    + destruct g, o, t; cbn; intros _; reflexivity.
    + cbn [SnapState.activeAngleSnap SnapState.activeLengthSnap]. rewrite Hp. discriminate.
Qed.

(** ** Painting tiles *)

Lemma existsb_false_Forall {A : Type} (f : A -> bool) (l : list A) :
  existsb f l = false -> Forall (fun a => f a = false) l.
Proof.
  induction l as [|a r IH]; cbn [existsb]; intros H; [constructor|].
  apply orb_false_iff in H. destruct H as [Ha Hr]. constructor; auto.
Qed.

Lemma ForallOrdPairs_snoc {A : Type} (Q : A -> A -> Prop) (l : list A) (n : A) :
  ForallOrdPairs Q l -> Forall (fun a => Q a n) l -> ForallOrdPairs Q (l ++ [n]).
Proof.
  induction 1 as [|a l Ha Hl IH]; intros Hn; cbn [app].
  - constructor; constructor.
  - inversion Hn as [|? ? Han Hln]; subst. constructor.
    + apply Forall_app. split; [exact Ha | constructor; [exact Han | constructor]].
    + now apply IH.
Qed.

Lemma addTileToPaintBatch_cases (c : Canvas.t) (activeColor : string)
    (paintingBatch : list BatchTile.t) (pos : Pos.t) (prev : list BatchTile.t) :
  addTileToPaintBatch c activeColor paintingBatch pos prev
  = if existsb
         (fun batchTile : BatchTile.t =>
            rectanglesIntersect (paintedTile c activeColor pos) batchTile)
         paintingBatch
    then prev
    else prev ++ [paintedTile c activeColor pos].
Proof.
  unfold addTileToPaintBatch, paintedTile.
  now destruct (SnapModes.grid (Canvas.snapModes c)).
Qed.

(** X29. [addTileToPaintBatch] builds one tile of the nominal dimensions
    and the active colour: with the grid snap on at
    [(floor(x / width) * width, floor(y / height) * height)], with the grid
    snap off at [(x, y - height)], for the cursor [(x, y)].  When the tile
    intersects a tile of the batch that the handler sees, the state stays
    as it is; otherwise the tile is appended to the state.  When the batch
    that the handler sees is the batch of the state and no tile of it
    intersects a tile added before it, this holds after the call. *)
Theorem addTileToPaintBatch_disjoint (c : Canvas.t) (activeColor : string)
    (paintingBatch : list BatchTile.t) (pos : Pos.t) (prev : list BatchTile.t) :
  let width := TileDimensions.width (Canvas.tileDimensions c) in
  let height := TileDimensions.height (Canvas.tileDimensions c) in
  let tile :=
    if SnapModes.grid (Canvas.snapModes c)
    then BatchTile.mk (floor (Pos.x pos / width) * width)
           (floor (Pos.y pos / height) * height) width height activeColor
    else BatchTile.mk (Pos.x pos) (Pos.y pos - height) width height activeColor in
  ((addTileToPaintBatch c activeColor paintingBatch pos prev = prev
    /\ exists batchTile : BatchTile.t,
         In batchTile paintingBatch /\ rectanglesIntersect tile batchTile = true)
   \/ (addTileToPaintBatch c activeColor paintingBatch pos prev = prev ++ [tile]
       /\ forall batchTile : BatchTile.t,
            In batchTile paintingBatch -> rectanglesIntersect tile batchTile = false))
  /\ (prev = paintingBatch -> disjointBatch prev ->
      disjointBatch (addTileToPaintBatch c activeColor paintingBatch pos prev)).
Proof.
  cbv zeta. rewrite addTileToPaintBatch_cases.
  change (if SnapModes.grid (Canvas.snapModes c) then _ else _)
    with (paintedTile c activeColor pos).
  destruct (existsb _ paintingBatch) eqn:Hex.
  - split; [|intros _ Hbatch; exact Hbatch].
    left. split; [reflexivity|].
    apply existsb_exists in Hex. destruct Hex as (batchTile & Hin & Hhit).
    now exists batchTile.
  - apply existsb_false_Forall in Hex. split.
    + right. split; [reflexivity|]. rewrite Forall_forall in Hex. exact Hex.
    + intros -> Hbatch. apply ForallOrdPairs_snoc; [exact Hbatch | exact Hex].
Qed.

(** With two tiles painted and the cursor at (730, 740), grid snap off:
    the tile at (730, 240) intersects neither, it is appended, and the
    batch of three stays free of intersections. *)
Lemma addTileToPaintBatch_disjoint_witness :
  addTileToPaintBatch paintCanvas "#ef4444" paintedBatch (Pos.mk 730 740) paintedBatch
  = paintedBatch ++ [BatchTile.mk 730 (740 - 500) 500 500 "#ef4444"]
  /\ disjointBatch
       (addTileToPaintBatch paintCanvas "#ef4444" paintedBatch (Pos.mk 730 740) paintedBatch).
Proof.
  destruct (addTileToPaintBatch_disjoint paintCanvas "#ef4444" paintedBatch
              (Pos.mk 730 740) paintedBatch) as (Hcases & Hkeep).
  cbv zeta in Hcases. cbn [paintCanvas Canvas.snapModes SnapModes.grid
    Canvas.tileDimensions TileDimensions.width TileDimensions.height Pos.x Pos.y] in Hcases.
  split.
  - destruct Hcases as [(_ & batchTile & Hin & Hhit) | (Happ & _)]; [|exact Happ].
    exfalso. revert Hhit. unfold rectanglesIntersect, gtb.
    destruct Hin as [<- | [<- | []]];
      cbn [BatchTile.rect BatchTile.x BatchTile.y BatchTile.width BatchTile.height
           Rect.x Rect.y Rect.width Rect.height];
      rewrite (ltb_false 730 (0 + 500)) by lra; discriminate.
  - apply Hkeep; [reflexivity|].
    unfold disjointBatch, paintedBatch. constructor; [|constructor; constructor].
    constructor; [|constructor].
    unfold rectanglesIntersect, gtb.
    cbn [BatchTile.rect BatchTile.x BatchTile.y BatchTile.width BatchTile.height
         Rect.x Rect.y Rect.width Rect.height].
    rewrite (ltb_true 0 (0 + 500)) by lra.
    rewrite (ltb_false 600 (0 + 500)) by lra. reflexivity.
Defined.

(** The handler of an earlier render still sees the empty batch: the tile
    of the same cursor is appended a second time, and the two tiles
    intersect. *)
Lemma addTileToPaintBatch_stale_closure :
  addTileToPaintBatch paintCanvas "#ef4444" [] (Pos.mk 730 740)
    (addTileToPaintBatch paintCanvas "#ef4444" [] (Pos.mk 730 740) [])
  = [ BatchTile.mk 730 (740 - 500) 500 500 "#ef4444";
      BatchTile.mk 730 (740 - 500) 500 500 "#ef4444" ]
  /\ rectanglesIntersect (BatchTile.mk 730 (740 - 500) 500 500 "#ef4444")
       (BatchTile.mk 730 (740 - 500) 500 500 "#ef4444") = true.
Proof.
  split; [reflexivity|].
  unfold rectanglesIntersect, gtb.
  cbn [BatchTile.rect BatchTile.x BatchTile.y BatchTile.width BatchTile.height
       Rect.x Rect.y Rect.width Rect.height].
  rdecide. reflexivity.
Qed.
